(** * autoPLEX: path normalisation, identity resolution, metadata diff,
      change log and sync workflows

    A shallow embedding of [plex_music_cleaner.py] and
    [apple_music_xml_client.py], followed by the properties the
    specification states about them.

    Conventions of the embedding.
    - A Python [str] is a [string]: the sequence of the bytes of its UTF-8
      encoding.  Slicing by a count of ASCII characters, [startswith],
      [in], [split] on an ASCII separator and [==] act on the UTF-8 bytes
      exactly as they act on the code points.
    - A Python value that is [None] or a [str] is a [pystr].
    - The [ratingKey] of a track object is an integer or a string
      ([Plex.RatingKey]).  The change log keeps it in a [TEXT] column and
      gives back its text; the code compares the key of the track, as it
      is, with that text.
    - A [dict] is an association list in insertion order with pairwise
      distinct keys ([dict_wf]); assignment to an existing key keeps the
      key's position.
    - Code inside [try: ... except Exception] is a computation in [exn];
      [try_except] is the handler. *)

From stdpp Require Import base strings list gmap pretty.
From Stdlib Require Import Ascii NArith Sorted.

Local Open Scope string_scope.
Local Open Scope list_scope.

#[local] Arguments String.append !_ _ / : simpl nomatch.

(** ** Python values and built-in operations *)

Module Py.

Definition pystr : Type := option string.

(** Truth value of [None] or a [str]: only a non-empty string is true. *)
Definition truthy (v : pystr) : bool :=
  match v with
  | Some (String _ _) => true
  | _ => false
  end.

(** [a or b] *)
Definition py_or (a b : pystr) : pystr := if truthy a then a else b.

(** [a != b] on values that are [None] or [str]. *)
Definition py_ne (a b : pystr) : bool := negb (bool_decide (a = b)).

Inductive exn (A : Type) : Type :=
| Return (a : A)
| Raise.
Arguments Return {A} a.
Arguments Raise {A}.

Definition try_except {A : Type} (body : exn A) (handler : A) : A :=
  match body with
  | Return a => a
  | Raise => handler
  end.

(** [s.startswith(prefix)] *)
Fixpoint startswith (s prefix : string) {struct prefix} : bool :=
  match prefix with
  | "" => true
  | String c prefix' =>
      match s with
      | "" => false
      | String d s' => if Ascii.eqb c d then startswith s' prefix' else false
      end
  end.

(** [s[n:]] *)
Fixpoint str_drop (n : nat) (s : string) : string :=
  match n with
  | O => s
  | S n' => match s with
            | "" => ""
            | String _ s' => str_drop n' s'
            end
  end.

(** [needle in hay] *)
Fixpoint str_in (needle hay : string) : bool :=
  startswith hay needle
  || match hay with
     | "" => false
     | String _ hay' => str_in needle hay'
     end.

(** The text before and after the first occurrence of [sep], if any. *)
Fixpoint break_at (sep : ascii) (s : string) : option (string * string) :=
  match s with
  | "" => None
  | String c s' =>
      if Ascii.eqb c sep then Some ("", s')
      else match break_at sep s' with
           | Some (before, after) => Some (String c before, after)
           | None => None
           end
  end.

(** [s.split(sep, maxsplit)] for a one-character separator. *)
Fixpoint split_max (sep : ascii) (maxsplit : nat) (s : string) : list string :=
  match maxsplit with
  | O => [s]
  | S m => match break_at sep s with
           | Some (before, after) => before :: split_max sep m after
           | None => [s]
           end
  end.

(** [s[:n]] *)
Fixpoint str_take (n : nat) (s : string) : string :=
  match n with
  | O => ""
  | S n' => match s with
            | "" => ""
            | String c s' => String c (str_take n' s')
            end
  end.

(** [s.rfind(c)], counted from index [i] of the enclosing string;
    [None] stands for -1. *)
Fixpoint rfind_from (c : ascii) (s : string) (i : nat) : option nat :=
  match s with
  | "" => None
  | String d s' =>
      match rfind_from c s' (S i) with
      | Some j => Some j
      | None => if Ascii.eqb d c then Some i else None
      end
  end.

Definition rfind (c : ascii) (s : string) : option nat := rfind_from c s 0.

(** [s.rfind(c) + 1] *)
Definition rfind_succ (c : ascii) (s : string) : nat :=
  match rfind c s with
  | Some i => S i
  | None => 0
  end.

(** ** Dictionaries in insertion order *)

Definition dict (V : Type) : Type := list (string * V).

Definition dict_wf {V : Type} (d : dict V) : Prop := NoDup (d.*1).

(** [d[k]] when [k in d] *)
Fixpoint dict_get {V : Type} (d : dict V) (k : string) : option V :=
  match d with
  | [] => None
  | (k', v) :: d' => if String.eqb k' k then Some v else dict_get d' k
  end.

(** [d[k] = v] *)
Fixpoint dict_set {V : Type} (d : dict V) (k : string) (v : V) : dict V :=
  match d with
  | [] => [(k, v)]
  | (k', v') :: d' =>
      if String.eqb k' k then (k', v) :: d' else (k', v') :: dict_set d' k v
  end.

(** [x] is the first element of [l], in order, on which [test] holds. *)
Definition first_where {A : Type} (test : A -> bool) (l : list A) (x : A)
  : Prop :=
  exists before after,
    l = before ++ x :: after
    /\ test x = true
    /\ Forall (fun y => test y = false) before.

End Py.
Export Py.

(** ** [urllib.parse]: percent-decoding *)

Module Urllib.

Definition byte_of (c : ascii) : N := N_of_ascii c.

(** [_hexdig = '0123456789ABCDEFabcdef'] *)
Definition is_hexdig (c : ascii) : bool :=
  let n := byte_of c in
  ((48 <=? n) && (n <=? 57) || (65 <=? n) && (n <=? 70)
   || (97 <=? n) && (n <=? 102))%N.

Definition hex_value (c : ascii) : N :=
  let n := byte_of c in
  (if n <=? 57 then n - 48 else if n <=? 70 then n - 55 else n - 87)%N.

(** [bytes.fromhex(a + b)] *)
Definition hextobyte (a b : ascii) : ascii :=
  ascii_of_N (16 * hex_value a + hex_value b).

(** [unquote_to_bytes]: every ['%'] followed by two hexadecimal digits is
    replaced by the octet they denote; any other ['%'] stays. *)
Fixpoint unquote_to_bytes (s : string) : string :=
  match s with
  | "" => ""
  | String c t =>
      if Ascii.eqb c "%" then
        match t with
        | String a (String b rest) =>
            if is_hexdig a && is_hexdig b
            then String (hextobyte a b) (unquote_to_bytes rest)
            else String c (unquote_to_bytes t)
        | _ => String c (unquote_to_bytes t)
        end
      else String c (unquote_to_bytes t)
  end.

(** U+FFFD in UTF-8. *)
Definition replacement : string :=
  String "239" (String "191" (String "189" "")).

Definition is_cont (c : ascii) : bool :=
  let n := byte_of c in ((128 <=? n) && (n <=? 191))%N.

(** Length of the sequence a lead byte announces; 0 for a byte that cannot
    start one (continuation bytes, C0, C1, F5..FF). *)
Definition seq_len (c : ascii) : nat :=
  let n := byte_of c in
  if (n <? 128)%N then 1
  else if (n <? 194)%N then 0
  else if (n <? 224)%N then 2
  else if (n <? 240)%N then 3
  else if (n <? 245)%N then 4
  else 0.

(** Admissible second byte after lead byte [c] (no overlong forms, no
    surrogates, nothing above U+10FFFF). *)
Definition second_ok (c d : ascii) : bool :=
  let n := byte_of c in
  let m := byte_of d in
  ((if n =? 224 then 160 else if n =? 240 then 144 else 128) <=? m)%N
  && (m <=? (if n =? 237 then 159 else if n =? 244 then 143 else 191))%N.

(** [bytes.decode('utf-8', 'replace')], read back as UTF-8: well-formed
    sequences are kept, every maximal ill-formed run that is a proper
    prefix of a well-formed sequence, and every other stray byte, becomes
    U+FFFD. *)
Fixpoint utf8_replace (s : string) : string :=
  match s with
  | "" => ""
  | String b0 t =>
      match seq_len b0 with
      | 1 => String b0 (utf8_replace t)
      | 2 =>
          match t with
          | String b1 t1 =>
              if is_cont b1 then String b0 (String b1 (utf8_replace t1))
              else replacement +:+ utf8_replace t
          | "" => replacement
          end
      | 3 =>
          match t with
          | String b1 t1 =>
              if second_ok b0 b1 then
                match t1 with
                | String b2 t2 =>
                    if is_cont b2
                    then String b0 (String b1 (String b2 (utf8_replace t2)))
                    else replacement +:+ utf8_replace t1
                | "" => replacement
                end
              else replacement +:+ utf8_replace t
          | "" => replacement
          end
      | 4 =>
          match t with
          | String b1 t1 =>
              if second_ok b0 b1 then
                match t1 with
                | String b2 t2 =>
                    if is_cont b2 then
                      match t2 with
                      | String b3 t3 =>
                          if is_cont b3
                          then String b0 (String b1 (String b2
                                 (String b3 (utf8_replace t3))))
                          else replacement +:+ utf8_replace t2
                      | "" => replacement
                      end
                    else replacement +:+ utf8_replace t1
                | "" => replacement
                end
              else replacement +:+ utf8_replace t
          | "" => replacement
          end
      | _ => replacement +:+ utf8_replace t
      end
  end.

(** [urllib.parse.unquote(s)] with its defaults
    [encoding='utf-8', errors='replace']. *)
Definition unquote (s : string) : string :=
  if str_in "%" s then utf8_replace (unquote_to_bytes s) else s.

(** Well-formed UTF-8 (Unicode, table 3-7): the byte strings that are the
    encoding of some Python [str]. *)
Fixpoint utf8_valid (s : string) : bool :=
  match s with
  | "" => true
  | String b0 t =>
      match seq_len b0 with
      | 1 => utf8_valid t
      | 2 =>
          match t with
          | String b1 t1 => is_cont b1 && utf8_valid t1
          | "" => false
          end
      | 3 =>
          match t with
          | String b1 (String b2 t2) =>
              second_ok b0 b1 && is_cont b2 && utf8_valid t2
          | _ => false
          end
      | 4 =>
          match t with
          | String b1 (String b2 (String b3 t3)) =>
              second_ok b0 b1 && is_cont b2 && is_cont b3 && utf8_valid t3
          | _ => false
          end
      | _ => false
      end
  end.

End Urllib.

(** ** Library functions supplied by the Python runtime

    [os.path] follows the platform and [str.lower] follows the Unicode
    tables; the workflows are stated over any choice of them. *)

Record Runtime : Type := {
  basename : string -> string;            (* os.path.basename *)
  splitext : string -> string * string;   (* os.path.splitext *)
  lower : string -> string;               (* str.lower *)
  (* datetime.now().isoformat(), read while the row with the given id is
     being inserted into the change log *)
  isoformat_now : nat -> string
}.

Module Posix.

(** [posixpath.basename] *)
Definition basename (p : string) : string := str_drop (rfind_succ "/" p) p.

(** Does [s[i:j]] hold a character other than [c]? *)
Fixpoint other_than (c : ascii) (s : string) (i j : nat) : bool :=
  match s with
  | "" => false
  | String d s' =>
      match j with
      | O => false
      | S j' =>
          match i with
          | O => negb (Ascii.eqb d c) || other_than c s' 0 j'
          | S i' => other_than c s' i' j'
          end
      end
  end.

(** [posixpath.splitext]: the extension starts at the last dot that comes
    after the last separator and after a character that is not a dot. *)
Definition splitext (p : string) : string * string :=
  match rfind "." p with
  | None => (p, "")
  | Some dotIndex =>
      let filenameIndex := rfind_succ "/" p in
      if (filenameIndex <=? dotIndex)%nat
         && other_than "." p filenameIndex dotIndex
      then (str_take dotIndex p, str_drop dotIndex p)
      else (p, "")
  end.

Definition lower_char (c : ascii) : ascii :=
  let n := N_of_ascii c in
  if ((65 <=? n) && (n <=? 90))%N then ascii_of_N (n + 32) else c.

(** [str.lower] on ASCII text. *)
Fixpoint lower (s : string) : string :=
  match s with
  | "" => ""
  | String c s' => String (lower_char c) (lower s')
  end.

Definition runtime : Runtime :=
  Build_Runtime basename splitext lower (fun _ => "1970-01-01T00:00:00").

End Posix.

(** ** Path Normalizer *)

Module PathNormalizer.
Import Urllib.

(** [AppleMusicXMLClient._decode_file_url]; [os_name] is [os.name]. *)
Definition _decode_file_url (os_name : string) (file_url : pystr)
  : option string :=
  try_except
    (match file_url with
     | None => Raise          (* None has no startswith *)
     | Some file_url =>
         if startswith file_url "file://" then
           let path := str_drop 7 file_url in
           let path := unquote path in
           let path :=
             if String.eqb os_name "nt" && startswith path "/" then
               if startswith path "/Volumes/" then
                 let parts := split_max "/" 3 path in
                 if (4 <=? length parts)%nat then
                   let drive_name := nth 2 parts "" in
                   let rest_of_path := nth 3 parts "" in
                   drive_name +:+ ":/" +:+ rest_of_path
                 else path
               else str_drop 1 path
             else path in
           Return (Some path)
         else Return None
     end)
    None.

(** [AppleMusicClient._decode_apple_file_path] *)
Definition _decode_apple_file_path (os_name : string) (encoded_path : pystr)
  : option string :=
  if negb (truthy encoded_path) then None
  else
    try_except
      (match encoded_path with
       | None => Raise
       | Some encoded_path =>
           if startswith encoded_path "file://" then
             let path := str_drop 7 encoded_path in
             let path := unquote path in
             let path :=
               if String.eqb os_name "nt" && startswith path "/" then
                 if startswith path "/Volumes/" then
                   let parts := split_max "/" 3 path in
                   if (4 <=? length parts)%nat then
                     let drive_name := nth 2 parts "" in
                     let rest_of_path := nth 3 parts "" in
                     drive_name +:+ ":/" +:+ rest_of_path
                   else path
                 else str_drop 1 path
               else path in
             Return (Some path)
           else Return None
       end)
      None.

(** *** The decoder as the specification words it *)

(** A path of the form [/Volumes/<name>/<rest>]: its name and rest. *)
Definition volume_form (path : string) : option (string * string) :=
  if startswith path "/Volumes/" then break_at "/" (str_drop 9 path)
  else None.

(** The reference definition: no [file://] scheme, undecodable;
    otherwise strip the scheme and percent-decode; under the Windows
    convention rewrite [/Volumes/<name>/<rest>] to [<name>:/<rest>] and
    strip one leading separator from any other path that begins with
    one. *)
Definition decode_reference (os_name : string) (location : pystr)
  : option string :=
  match location with
  | None => None
  | Some location =>
      if startswith location "file://" then
        let path := unquote (str_drop 7 location) in
        if String.eqb os_name "nt" then
          match volume_form path with
          | Some (name, rest) => Some (name +:+ ":/" +:+ rest)
          | None =>
              if startswith path "/" then Some (str_drop 1 path)
              else Some path
          end
        else Some path
      else None
  end.

(** The reference definition with the one case the code treats
    otherwise: a path that begins with [/Volumes/] and has nothing after
    the volume name is left as it is. *)
Definition decode_reference_guarded (os_name : string) (location : pystr)
  : option string :=
  match location with
  | None => None
  | Some location =>
      if startswith location "file://" then
        let path := unquote (str_drop 7 location) in
        if String.eqb os_name "nt" then
          match volume_form path with
          | Some (name, rest) => Some (name +:+ ":/" +:+ rest)
          | None =>
              if startswith path "/Volumes/" then Some path
              else if startswith path "/" then Some (str_drop 1 path)
              else Some path
          end
        else Some path
      else None
  end.

(** *** The encoder

    Modelled from the spec: the repository has no encoder; section 8
    names [encode(p)] and the claim fixes it as the [file://] prefix
    followed by the RFC 3986 percent-encoding of [p].  Unreserved
    characters and the path separator stay, every other octet becomes
    ['%'] and two upper-case hexadecimal digits. *)

Definition unreserved (c : ascii) : bool :=
  let n := N_of_ascii c in
  ((65 <=? n) && (n <=? 90) || (97 <=? n) && (n <=? 122)
   || (48 <=? n) && (n <=? 57)
   || (n =? 45) || (n =? 46) || (n =? 95) || (n =? 126))%N.

Definition hexdigit (n : N) : ascii :=
  ascii_of_N (if (n <? 10)%N then n + 48 else n + 55).

Definition quote_octet (c : ascii) : string :=
  if unreserved c || Ascii.eqb c "/" then String c ""
  else
    let n := N_of_ascii c in
    String "%" (String (hexdigit (n / 16)) (String (hexdigit (n mod 16)) "")).

Fixpoint quote (p : string) : string :=
  match p with
  | "" => ""
  | String c p' => quote_octet c +:+ quote p'
  end.

Definition encode (p : string) : string := "file://" +:+ quote p.

End PathNormalizer.

(** ** The source library: records and the plist-export adapter *)

Module AppleMusic.

(** The metadata dictionary of one source track:
    [{'title': .., 'artist': .., 'album': ..}].  The plist adapter always
    stores strings; the database adapter stores what the row holds, which
    may be [None]. *)
Record Metadata : Type := {
  title : pystr;
  artist : pystr;
  album : pystr
}.

(** What the workflows call on either adapter. *)
Record Source : Type := {
  all_tracks : dict Metadata;                      (* get_all_tracks() *)
  tracks_by_artist : string -> exn (dict Metadata);  (* get_tracks_by_artist(name) *)
  playlist_tracks : string -> list string          (* get_playlist_tracks(name) *)
}.

End AppleMusic.

Module AppleMusicXMLClient.
Import AppleMusic.

(** One entry of the plist's [Tracks] dictionary; [None] is a key that
    is not there. *)
Record TrackData : Type := {
  Location : option string;
  Name : option string;
  Artist : option string;
  Album : option string
}.

(** One entry of the plist's [Playlists] list.  [Playlist_Items] holds,
    for every item, [str(item.get('Track ID', ''))]. *)
Record PlaylistData : Type := {
  Master : bool;
  Distinguished_Kind : option nat;
  Playlist_Name : option string;
  Playlist_Items : list string
}.

Record t : Type := {
  track_map : dict Metadata;      (* file path -> metadata *)
  id_map : dict string;           (* track id -> file path *)
  playlists : dict (list string)  (* playlist name -> file paths *)
}.

Definition empty : t := {| track_map := []; id_map := []; playlists := [] |}.

(** [dict.get(key, '')] *)
Definition get_or_empty (v : option string) : string := default "" v.

Definition _process_track (os_name : string) (self : t)
    (entry : string * TrackData) : t :=
  let '(track_id, track_data) := entry in
  match Location track_data with
  | None => self
  | Some location =>
      match PathNormalizer._decode_file_url os_name (Some location) with
      | Some (String _ _ as file_path) =>
          let metadata :=
            {| title := Some (get_or_empty (Name track_data));
               artist := Some (get_or_empty (Artist track_data));
               album := Some (get_or_empty (Album track_data)) |} in
          {| track_map := dict_set (track_map self) file_path metadata;
             id_map := dict_set (id_map self) track_id file_path;
             playlists := playlists self |}
      | _ => self
      end
  end.

Definition _process_tracks (os_name : string) (self : t)
    (tracks_dict : list (string * TrackData)) : t :=
  fold_left (_process_track os_name) tracks_dict self.

(** The inner loop of [_process_playlists]: the paths of the items whose
    track id is known. *)
Fixpoint playlist_paths (ids : dict string) (items : list string)
  : list string :=
  match items with
  | [] => []
  | track_id :: items' =>
      match dict_get ids track_id with
      | Some path => path :: playlist_paths ids items'
      | None => playlist_paths ids items'
      end
  end.

Definition _process_playlist (self : t) (playlist : PlaylistData) : t :=
  if Master playlist || bool_decide (Distinguished_Kind playlist <> None)
  then self
  else
    match get_or_empty (Playlist_Name playlist) with
    | "" => self
    | playlist_name =>
        match playlist_paths (id_map self) (Playlist_Items playlist) with
        | [] => self
        | tracks =>
            {| track_map := track_map self;
               id_map := id_map self;
               playlists := dict_set (playlists self) playlist_name tracks |}
        end
    end.

Definition _process_playlists (self : t) (playlists_list : list PlaylistData)
  : t :=
  fold_left _process_playlist playlists_list self.

Definition get_all_tracks (self : t) : dict Metadata := track_map self.

(** The dictionary comprehension of [get_tracks_by_artist]:
    [metadata['artist'].lower()] raises on [None]. *)
Fixpoint filter_by_artist (rt : Runtime) (artist_name_lower : string)
    (items : dict Metadata) : exn (dict Metadata) :=
  match items with
  | [] => Return []
  | (path, metadata) :: items' =>
      match artist metadata with
      | None => Raise
      | Some a =>
          match filter_by_artist rt artist_name_lower items' with
          | Raise => Raise
          | Return kept =>
              if str_in artist_name_lower (lower rt a)
              then Return ((path, metadata) :: kept)
              else Return kept
          end
      end
  end.

Definition get_tracks_by_artist (rt : Runtime) (self : t)
    (artist_name : string) : exn (dict Metadata) :=
  let artist_name_lower := lower rt artist_name in
  filter_by_artist rt artist_name_lower (track_map self).

(** [name.lower() == playlist_name_lower] *)
Definition same_name (rt : Runtime) (playlist_name_lower : string)
    (item : string * list string) : bool :=
  String.eqb (lower rt item.1) playlist_name_lower.

(** [playlist_name_lower in name.lower()] *)
Definition name_contains (rt : Runtime) (playlist_name_lower : string)
    (item : string * list string) : bool :=
  str_in playlist_name_lower (lower rt item.1).

Definition get_playlist_tracks (rt : Runtime) (self : t)
    (playlist_name : string) : list string :=
  (* Try exact match first *)
  match dict_get (playlists self) playlist_name with
  | Some tracks => tracks
  | None =>
      (* Try case-insensitive match *)
      let playlist_name_lower := lower rt playlist_name in
      match find (same_name rt playlist_name_lower) (playlists self) with
      | Some (_, tracks) => tracks
      | None =>
          (* Try substring match as a last resort *)
          match find (name_contains rt playlist_name_lower)
                     (playlists self) with
          | Some (_, tracks) => tracks
          | None => []
          end
      end
  end.

(** What [_process_playlists] maintains: names are distinct and no stored
    playlist is empty. *)
Definition stored_ok (self : t) : Prop :=
  dict_wf (playlists self)
  /\ Forall (fun item : string * list string => item.2 <> []) (playlists self).

Definition source (rt : Runtime) (self : t) : Source :=
  {| all_tracks := get_all_tracks self;
     tracks_by_artist := get_tracks_by_artist rt self;
     playlist_tracks := get_playlist_tracks rt self |}.

(** The test of the comprehension in [get_tracks_by_artist] on one entry:
    [artist_name_lower in metadata['artist'].lower()], for an artist that
    is a string. *)
Definition artist_contains (rt : Runtime) (artist_name_lower : string)
    (item : string * Metadata) : bool :=
  match artist item.2 with
  | Some a => str_in artist_name_lower (lower rt a)
  | None => false
  end.

(** The metadata [_process_tracks] stores for an entry of the export. *)
Definition metadata_of (track_data : TrackData) : Metadata :=
  {| title := Some (get_or_empty (Name track_data));
     artist := Some (get_or_empty (Artist track_data));
     album := Some (get_or_empty (Album track_data)) |}.

(** The path [_process_tracks] stores an entry under, if it stores it: the
    decoded [Location], when there is one and it decodes to a non-empty
    path. *)
Definition stored_path (os_name : string) (track_data : TrackData)
  : option string :=
  match Location track_data with
  | None => None
  | Some location =>
      match PathNormalizer._decode_file_url os_name (Some location) with
      | Some (String c path) => Some (String c path)
      | _ => None
      end
  end.

(** [__init__] and [_load_library] once [plistlib.load] has read the
    export; [None] is a key, ['Tracks'] or ['Playlists'], that the export
    lacks. *)
Definition _load_library (os_name : string)
    (Tracks : option (list (string * TrackData)))
    (Playlists : option (list PlaylistData)) : t :=
  let self := empty in
  let self :=
    match Tracks with
    | Some tracks_dict => _process_tracks os_name self tracks_dict
    | None => self
    end in
  match Playlists with
  | Some playlists_list => _process_playlists self playlists_list
  | None => self
  end.

(** What [_process_tracks] maintains of the two maps, [tracks_dict] being
    the entries read so far: keys are distinct, every path of [id_map] is a
    key of [track_map], and every entry of [track_map] is the stored form of
    an entry read. *)
Definition maps_ok (os_name : string)
    (tracks_dict : list (string * TrackData)) (self : t) : Prop :=
  dict_wf (track_map self)
  /\ dict_wf (id_map self)
  /\ Forall (fun item : string * string => item.2 ∈ (track_map self).*1)
       (id_map self)
  /\ Forall (fun item : string * Metadata =>
               exists track_id track_data,
                 (track_id, track_data) ∈ tracks_dict
                 /\ stored_path os_name track_data = Some item.1
                 /\ item.2 = metadata_of track_data)
       (track_map self).

End AppleMusicXMLClient.

(** ** The change log *)

Module CleanLogger.

(** A row of table [cleaned]. *)
Record Row : Type := {
  id : nat;
  plex_rating_key : string;
  field : string;
  old_value : pystr;
  new_value : pystr;
  timestamp : string
}.

(** The logger: its connection, open until [close], and the rows of the
    table.  Every statement on a closed connection raises. *)
Record t : Type := {
  conn_open : bool;
  cleaned : list Row
}.

(** [_initialize_db] on a database that does not exist yet. *)
Definition fresh : t := {| conn_open := true; cleaned := [] |}.

(** The row that [INSERT INTO cleaned (plex_rating_key, field, old_value,
    new_value, timestamp) VALUES (?, ?, ?, ?, ?)] adds when it is given
    the key [id]. *)
Definition entry (rt : Runtime) (id : nat) (rating_key field_ : string)
    (old new : pystr) : Row :=
  {| id := id; plex_rating_key := rating_key; field := field_;
     old_value := old; new_value := new; timestamp := isoformat_now rt id |}.

(** No row is ever deleted, so [AUTOINCREMENT] numbers the rows 1, 2, ... *)
Definition record_change (rt : Runtime) (self : t)
    (rating_key field : string) (old_value new_value : pystr) : t :=
  try_except
    (if conn_open self then
       let id := S (length (cleaned self)) in
       Return {| conn_open := true;
                 cleaned :=
                   cleaned self
                   ++ [entry rt id rating_key field old_value new_value] |}
     else Raise)
    self.

(** [SELECT COUNT( * ) FROM cleaned WHERE plex_rating_key = ? AND field = ?] *)
Definition count_where (rows : list Row) (rating_key field_ : string) : nat :=
  length (filter (fun r => plex_rating_key r = rating_key /\ field r = field_)
                 rows).

Definition is_track_cleaned (self : t) (rating_key field : string) : bool :=
  try_except
    (if conn_open self then
       let count := count_where (cleaned self) rating_key field in
       Return (0 <? count)%nat
     else Raise)
    false.

Definition get_cleaned_tracks (self : t) : gset string :=
  try_except
    (if conn_open self then
       Return (list_to_set (plex_rating_key <$> cleaned self))
     else Raise)
    ∅.

Definition close (self : t) : t :=
  {| conn_open := false; cleaned := cleaned self |}.

(** The dictionary [get_stats] returns: numbers by key, or the one entry
    [{'error': message}]. *)
Inductive StatsDict : Type :=
| Counts (entries : gmap string nat)
| ErrorDict (message : string).

(** [SELECT field, COUNT( * ) FROM cleaned GROUP BY field], read into a
    dictionary. *)
Definition field_counts (rows : list Row) : gmap string nat :=
  foldr (fun row counts =>
           <[field row := S (default 0 (counts !! field row))]> counts)
        ∅ rows.

(** In [{'total_changes': .., 'tracks_changed': .., **field_counts}] an
    entry of [field_counts] replaces an earlier entry of the same key. *)
Definition get_stats (self : t) : StatsDict :=
  try_except
    (if conn_open self then
       let total_changes := length (cleaned self) in
       let tracks_changed :=
         size (list_to_set (plex_rating_key <$> cleaned self) : gset string) in
       Return
         (Counts
            (field_counts (cleaned self)
             ∪ <["total_changes" := total_changes]>
                 (<["tracks_changed" := tracks_changed]> ∅)))
     else Raise)
    (ErrorDict "Failed to retrieve statistics").

(** [stats.get(key, 0)] *)
Definition stat (stats : StatsDict) (key : string) : nat :=
  match stats with
  | Counts entries => default 0 (entries !! key)
  | ErrorDict _ => 0
  end.

End CleanLogger.

(** ** The managed library *)

Module Plex.

(** The [ratingKey] of a track object, as the server library gives it:
    an integer or a string.  The code never converts it. *)
Inductive RatingKey : Type :=
| IntKey (n : Z)
| StrKey (s : string).

(** The text under which a key is stored in the [TEXT] column
    [plex_rating_key] of the change log, and read back from it: a string
    as it is, an integer in decimal. *)
Definition key_text (key : RatingKey) : string :=
  match key with
  | IntKey n => pretty n
  | StrKey s => s
  end.

(** [key in cleaned_tracks] for a key as the track object holds it and
    the set of strings read from the change log: a string is looked up,
    an integer equals no string. *)
#[global] Instance key_elem_of : ElemOf RatingKey (gset string) :=
  fun key cleaned_tracks =>
    match key with
    | IntKey _ => False
    | StrKey s => s ∈ cleaned_tracks
    end.

#[global] Instance key_elem_of_dec (key : RatingKey)
    (cleaned_tracks : gset string) : Decision (key ∈ cleaned_tracks) :=
  match key as k return Decision (k ∈ cleaned_tracks) with
  | IntKey _ => right (fun absurd : False => absurd)
  | StrKey s => decide (s ∈ cleaned_tracks)
  end.

(** A track object.  [media] lists, for every media item, the [file] of
    each of its parts; reading it can raise. *)
Record Track : Type := {
  ratingKey : RatingKey;
  title : pystr;
  originalTitle : pystr;       (* the per-track artist override *)
  grandparentTitle : pystr;    (* the album artist *)
  parentTitle : pystr;         (* the album *)
  media : exn (list (list pystr))
}.

(** One [track.edit( **update_fields ); track.reload()] sent to the
    server, and whether it went through. *)
Record EditCall : Type := {
  target : RatingKey;
  update_fields : dict string;
  accepted : bool
}.

(** The server as the client sees it.  A request that raises is [Raise];
    [edit] tells whether the server takes a metadata write. *)
Record Server : Type := {
  searchTracks : option string -> exn (list Track);
  search : string -> exn (list Track);
  edit : Track -> dict string -> bool
}.

(** The playlists on the server, by title, and the requests of
    [create_playlist] that fail. *)
Definition Playlists : Type := list (string * list Track).

Record Faults : Type := {
  listing_fails : bool;    (* server.playlists() *)
  delete_fails : bool;     (* playlist.delete() *)
  create_fails : bool      (* server.createPlaylist(name, tracks) *)
}.

Definition no_faults : Faults :=
  {| listing_fails := false; delete_fails := false; create_fails := false |}.

Definition get_all_tracks (server : Server) : list Track :=
  try_except (searchTracks server None) [].

Definition get_tracks_by_artist (server : Server) (artist_name : string)
  : list Track :=
  try_except (searchTracks server (Some artist_name)) [].

(** [os.path.basename(part.file) == base_filename] for some part, in
    order; [os.path.basename(None)] raises. *)
Fixpoint some_part_named (rt : Runtime) (base_filename : string)
    (parts : list pystr) : exn bool :=
  match parts with
  | [] => Return false
  | None :: _ => Raise
  | Some file :: parts' =>
      if String.eqb (basename rt file) base_filename then Return true
      else some_part_named rt base_filename parts'
  end.

Fixpoint some_media_named (rt : Runtime) (base_filename : string)
    (medias : list (list pystr)) : exn bool :=
  match medias with
  | [] => Return false
  | parts :: medias' =>
      match some_part_named rt base_filename parts with
      | Raise => Raise
      | Return true => Return true
      | Return false => some_media_named rt base_filename medias'
      end
  end.

(** The first result with a part of that file name. *)
Fixpoint first_exact (rt : Runtime) (base_filename : string)
    (results : list Track) : exn (option Track) :=
  match results with
  | [] => Return None
  | track :: results' =>
      match media track with
      | Raise => Raise
      | Return medias =>
          match some_media_named rt base_filename medias with
          | Raise => Raise
          | Return true => Return (Some track)
          | Return false => first_exact rt base_filename results'
          end
      end
  end.

Definition find_track_by_filename (rt : Runtime) (server : Server)
    (filename : string) : option Track :=
  try_except
    (let base_filename := basename rt filename in
     let name_without_ext := (splitext rt base_filename).1 in
     match search server name_without_ext with
     | Raise => Raise
     | Return results =>
         match first_exact rt base_filename results with
         | Raise => Raise
         | Return (Some track) => Return (Some track)
         | Return None =>
             match results with
             | track :: _ => Return (Some track)
             | [] => Return None
             end
         end
     end)
    None.

Definition update_track_metadata (server : Server) (track : Track)
    (title_ artist album : pystr) : bool * list EditCall :=
  let fields : dict string := [] in
  let fields :=
    match title_ with
    | Some v => if py_ne (title track) title_
                then dict_set fields "title" v else fields
    | None => fields
    end in
  let fields :=
    match artist with
    | Some v => if py_ne (originalTitle track) artist
                then dict_set fields "originalTitle" v else fields
    | None => fields
    end in
  let fields :=
    match album with
    | Some v => if py_ne (parentTitle track) album
                then dict_set fields "parentTitle" v else fields
    | None => fields
    end in
  match fields with
  | [] => (false, [])
  | _ =>
      let ok := edit server track fields in
      (ok, [{| target := ratingKey track; update_fields := fields;
               accepted := ok |}])
  end.

(** [playlist.title.lower() == name.lower()] *)
Definition same_title (rt : Runtime) (name : string)
    (playlist : string * list Track) : bool :=
  String.eqb (lower rt playlist.1) (lower rt name).

(** Delete the first playlist whose title equals [name] up to case. *)
Fixpoint delete_first (rt : Runtime) (name : string) (existing : Playlists)
  : option Playlists :=
  match existing with
  | [] => None
  | playlist :: existing' =>
      if same_title rt name playlist then Some existing'
      else match delete_first rt name existing' with
           | Some rest => Some (playlist :: rest)
           | None => None
           end
  end.

Definition create_playlist (rt : Runtime) (faults : Faults)
    (existing : Playlists) (name : string) (tracks : list Track)
  : bool * Playlists :=
  if listing_fails faults then (false, existing)
  else
    match delete_first rt name existing with
    | Some rest =>
        if delete_fails faults then (false, existing)
        else if create_fails faults then (false, rest)
        else (true, rest ++ [(name, tracks)])
    | None =>
        if create_fails faults then (false, existing)
        else (true, existing ++ [(name, tracks)])
    end.

(** Some part of some media item of [track] has the file name
    [base_filename]. *)
Definition has_part_named (rt : Runtime) (base_filename : string)
    (track : Track) : bool :=
  match media track with
  | Return medias =>
      existsb
        (existsb (fun part : pystr =>
                    match part with
                    | Some file => String.eqb (basename rt file) base_filename
                    | None => false
                    end))
        medias
  | Raise => false
  end.

(** A track whose media can be read and whose parts all have a file. *)
Definition readable (track : Track) : Prop :=
  exists medias,
    media track = Return medias
    /\ Forall (Forall (fun part : pystr => is_Some part)) medias.

(** The value [update_track_metadata] writes for a field, if any: the new
    value when one is given and the current value is not it. *)
Definition changed (current new : pystr) : option string :=
  match new with
  | Some v => if bool_decide (current = new) then None else Some v
  | None => None
  end.

End Plex.

(** ** The workflows *)

Module Orchestrator.
Import AppleMusic.

Record Stats : Type := {
  total_tracks : nat;
  matched_tracks : nat;
  updated_tracks : nat;
  title_updates : nat;
  artist_updates : nat;
  album_updates : nat;
  skipped_tracks : nat
}.

Definition initial_stats (total : nat) : Stats :=
  {| total_tracks := total; matched_tracks := 0; updated_tracks := 0;
     title_updates := 0; artist_updates := 0; album_updates := 0;
     skipped_tracks := 0 |}.

(** [stats[key] += 1] *)
Definition incr (key : string) (s : Stats) : Stats :=
  {| total_tracks := total_tracks s;
     matched_tracks :=
       if String.eqb key "matched_tracks" then S (matched_tracks s)
       else matched_tracks s;
     updated_tracks :=
       if String.eqb key "updated_tracks" then S (updated_tracks s)
       else updated_tracks s;
     title_updates :=
       if String.eqb key "title_updates" then S (title_updates s)
       else title_updates s;
     artist_updates :=
       if String.eqb key "artist_updates" then S (artist_updates s)
       else artist_updates s;
     album_updates :=
       if String.eqb key "album_updates" then S (album_updates s)
       else album_updates s;
     skipped_tracks :=
       if String.eqb key "skipped_tracks" then S (skipped_tracks s)
       else skipped_tracks s |}.

(** What a clean run has done so far: its counters, the change log, and
    the writes sent to the server. *)
Record Run : Type := {
  stats : Stats;
  clean_logger : CleanLogger.t;
  edits : list Plex.EditCall
}.

Definition count (key : string) (run : Run) : Run :=
  {| stats := incr key (stats run);
     clean_logger := clean_logger run;
     edits := edits run |}.

(** [clean_logger.record_change(track.ratingKey, field, old, new)]: the
    key is bound to the [TEXT] column as its text. *)
Definition log_change (rt : Runtime) (run : Run)
    (rating_key : Plex.RatingKey) (field : string)
    (old_value new_value : pystr) : Run :=
  {| stats := stats run;
     clean_logger :=
       CleanLogger.record_change rt (clean_logger run)
         (Plex.key_text rating_key) field old_value new_value;
     edits := edits run |}.

(** The loop that reads the file path of a track (the first part of each
    media item, until one is non-empty). *)
Fixpoint first_file (medias : list (list pystr)) (file_path : pystr)
  : pystr :=
  match medias with
  | [] => file_path
  | parts :: medias' =>
      let file_path := match parts with
                       | part_file :: _ => part_file
                       | [] => file_path
                       end in
      if truthy file_path then file_path else first_file medias' file_path
  end.

(** The tiered match of a managed file path against the source catalog:
    the key itself, else the first key of the same base name. *)
(** [os.path.basename(apple_path) == filename] *)
Definition same_basename (rt : Runtime) (filename : string)
    (item : string * Metadata) : bool :=
  String.eqb (basename rt item.1) filename.

Definition match_track (rt : Runtime) (apple_tracks : dict Metadata)
    (file_path : string) : option Metadata :=
  (* Try direct path match first *)
  match dict_get apple_tracks file_path with
  | Some metadata => Some metadata
  | None =>
      (* Try matching by filename *)
      let filename := basename rt file_path in
      match find (same_basename rt filename) apple_tracks with
      | Some (_, metadata) => Some metadata
      | None => None
      end
  end.

(** The artist a managed track currently shows. *)
Definition track_artist (track : Plex.Track) : pystr :=
  py_or (Plex.originalTitle track) (Plex.grandparentTitle track).

(** Compare and update metadata of a matched pair. *)
Definition compare_and_update (rt : Runtime) (server : Plex.Server)
    (run : Run) (track : Plex.Track) (apple_track : Metadata) : Run :=
  let updated := false in
  (* Check title *)
  let '(run, updated) :=
    if py_ne (Plex.title track) (title apple_track) then
      (count "title_updates"
         (log_change rt run (Plex.ratingKey track) "title"
            (Plex.title track) (title apple_track)), true)
    else (run, updated) in
  (* Check artist *)
  let '(run, updated) :=
    if py_ne (track_artist track) (artist apple_track) then
      (count "artist_updates"
         (log_change rt run (Plex.ratingKey track) "artist"
            (track_artist track) (artist apple_track)), true)
    else (run, updated) in
  (* Check album *)
  let '(run, updated) :=
    if py_ne (Plex.parentTitle track) (album apple_track) then
      (count "album_updates"
         (log_change rt run (Plex.ratingKey track) "album"
            (Plex.parentTitle track) (album apple_track)), true)
    else (run, updated) in
  (* Update track metadata if needed *)
  if updated then
    let '(_, calls) :=
      Plex.update_track_metadata server track
        (title apple_track) (artist apple_track) (album apple_track) in
    count "updated_tracks"
      {| stats := stats run; clean_logger := clean_logger run;
         edits := edits run ++ calls |}
  else run.

(** One turn of the loop over the managed tracks. *)
Definition clean_track (rt : Runtime) (server : Plex.Server)
    (apple_tracks : dict Metadata) (cleaned_tracks : gset string)
    (run : Run) (track : Plex.Track) : Run :=
  (* Skip already cleaned tracks *)
  if bool_decide (Plex.ratingKey track ∈ cleaned_tracks)
  then count "skipped_tracks" run
  else
    match Plex.media track with
    | Raise => run
    | Return medias =>
        match first_file medias None with
        | Some (String _ _ as file_path) =>
            match match_track rt apple_tracks file_path with
            | Some apple_track =>
                compare_and_update rt server (count "matched_tracks" run)
                  track apple_track
            | None => run
            end
        | _ => run
        end
    end.

Definition clean_tracks (rt : Runtime) (server : Plex.Server)
    (plex_tracks : list Plex.Track) (apple_tracks : dict Metadata)
    (clean_logger : CleanLogger.t) : Run :=
  let cleaned_tracks := CleanLogger.get_cleaned_tracks clean_logger in
  fold_left (clean_track rt server apple_tracks cleaned_tracks) plex_tracks
    {| stats := initial_stats (length plex_tracks);
       clean_logger := clean_logger;
       edits := [] |}.

Definition clean_all_tracks (rt : Runtime) (server : Plex.Server)
    (apple_music_client : Source) (clean_logger : CleanLogger.t) : Run :=
  let plex_tracks := Plex.get_all_tracks server in
  let apple_tracks := all_tracks apple_music_client in
  clean_tracks rt server plex_tracks apple_tracks clean_logger.

Definition clean_artist_tracks (rt : Runtime) (server : Plex.Server)
    (apple_music_client : Source) (clean_logger : CleanLogger.t)
    (artist_name : string) : exn Run :=
  let plex_tracks := Plex.get_tracks_by_artist server artist_name in
  match tracks_by_artist apple_music_client artist_name with
  | Raise => Raise
  | Return apple_tracks =>
      Return (clean_tracks rt server plex_tracks apple_tracks clean_logger)
  end.

(** The Metadata Differ as the specification words it: for each of
    title, artist and album, in that order, a Change Entry iff the managed
    value is not the source value.  [n] is the number of rows already in
    the log, which fixes the keys of the new ones. *)
Definition change_entries (rt : Runtime) (n : nat) (track : Plex.Track)
    (apple_track : Metadata) : list CleanLogger.Row :=
  let title_rows :=
    if py_ne (Plex.title track) (title apple_track)
    then [CleanLogger.entry rt (S n) (Plex.key_text (Plex.ratingKey track))
            "title" (Plex.title track) (title apple_track)]
    else [] in
  let artist_rows :=
    if py_ne (track_artist track) (artist apple_track)
    then [CleanLogger.entry rt (S (n + length title_rows))
            (Plex.key_text (Plex.ratingKey track)) "artist"
            (track_artist track) (artist apple_track)]
    else [] in
  let album_rows :=
    if py_ne (Plex.parentTitle track) (album apple_track)
    then [CleanLogger.entry rt
            (S (n + length title_rows + length artist_rows))
            (Plex.key_text (Plex.ratingKey track)) "album"
            (Plex.parentTitle track) (album apple_track)]
    else [] in
  title_rows ++ artist_rows ++ album_rows.

(** 1 for a field that differs, 0 for one that does not. *)
Definition differs (current new : pystr) : nat :=
  if py_ne current new then 1 else 0.

(** Does the differ find a field to change on [track]: it has a file, the
    file is matched in the catalog, and title, artist or album differ. *)
Definition needs_change (rt : Runtime) (apple_tracks : dict Metadata)
    (track : Plex.Track) : bool :=
  match Plex.media track with
  | Return medias =>
      match first_file medias None with
      | Some (String c file_path) =>
          match match_track rt apple_tracks (String c file_path) with
          | Some apple_track =>
              py_ne (Plex.title track) (title apple_track)
              || py_ne (track_artist track) (artist apple_track)
              || py_ne (Plex.parentTitle track) (album apple_track)
          | None => false
          end
      | _ => false
      end
  | Raise => false
  end.

(** [run'] continues [run]: the change log and the writes grew at the
    end only, by rows and writes about tracks whose key is in [keys]; a
    row holds the text of the key. *)
Definition continues (keys : Plex.RatingKey -> Prop) (run run' : Run)
  : Prop :=
  (exists rows,
      CleanLogger.cleaned (clean_logger run')
      = CleanLogger.cleaned (clean_logger run) ++ rows
      /\ Forall (fun row =>
                   exists key,
                     keys key
                     /\ CleanLogger.plex_rating_key row = Plex.key_text key)
           rows)
  /\ (exists calls,
        edits run' = edits run ++ calls
        /\ Forall (fun call => keys (Plex.target call)) calls)
  /\ CleanLogger.conn_open (clean_logger run')
     = CleanLogger.conn_open (clean_logger run).

(** What a write asks of the server, without the server's answer. *)
Definition request (call : Plex.EditCall) : Plex.RatingKey * dict string :=
  (Plex.target call, Plex.update_fields call).

(** Two runs that differ at most in the answers of the server to their
    writes. *)
Definition same_but_answers (run run' : Run) : Prop :=
  stats run = stats run'
  /\ clean_logger run = clean_logger run'
  /\ request <$> edits run = request <$> edits run'.

(** *** Playlist sync *)

Record SyncStats : Type := {
  sync_total_tracks : nat;
  sync_matched_tracks : nat;
  missing_tracks : nat
}.

(** The warnings about missing tracks. *)
Inductive Warning : Type :=
| CouldNotFind (n : nat)         (* "Could not find {n} tracks in Plex:" *)
| MissingFile (name : string)    (* "  - {basename}" *)
| AndMore (n : nat).             (* "  ... and {n} more" *)

Record Sync : Type := {
  sync_stats : SyncStats;
  plex_playlists : Plex.Playlists;     (* the server's playlists afterwards *)
  created : option (bool * list Plex.Track);
    (* the member list handed to create_playlist and its result, if called *)
  warnings : list Warning
}.

(** The state of the loop over the source paths. *)
Record Resolution : Type := {
  res_stats : SyncStats;
  plex_tracks : list Plex.Track;    (* found, in source order *)
  missing : list string             (* not found, in source order *)
}.

Definition resolve_path (rt : Runtime) (server : Plex.Server)
    (st : Resolution) (file_path : string) : Resolution :=
  let stats := res_stats st in
  match Plex.find_track_by_filename rt server file_path with
  | Some plex_track =>
      {| res_stats :=
           {| sync_total_tracks := sync_total_tracks stats;
              sync_matched_tracks := S (sync_matched_tracks stats);
              missing_tracks := missing_tracks stats |};
         plex_tracks := plex_tracks st ++ [plex_track];
         missing := missing st |}
  | None =>
      {| res_stats :=
           {| sync_total_tracks := sync_total_tracks stats;
              sync_matched_tracks := sync_matched_tracks stats;
              missing_tracks := S (missing_tracks stats) |};
         plex_tracks := plex_tracks st;
         missing := missing st ++ [file_path] |}
  end.

(** The source paths that resolve to a managed track, as those tracks,
    and the paths that do not; both in source order. *)
Definition resolved (rt : Runtime) (server : Plex.Server)
    (paths : list string) : list Plex.Track :=
  omap (Plex.find_track_by_filename rt server) paths.

Definition unresolved (rt : Runtime) (server : Plex.Server)
    (paths : list string) : list string :=
  filter (fun p => Plex.find_track_by_filename rt server p = None) paths.

Definition missing_warnings (rt : Runtime) (missing : list string)
  : list Warning :=
  match missing with
  | [] => []
  | _ =>
      CouldNotFind (length missing)
      :: (MissingFile <$> (basename rt <$> take 10 missing))
      ++ (if (10 <? length missing)%nat
          then [AndMore (length missing - 10)] else [])
  end.

Definition sync_playlist (rt : Runtime) (server : Plex.Server)
    (faults : Plex.Faults) (existing : Plex.Playlists)
    (apple_music_client : Source) (playlist_name : string) : Sync :=
  let apple_track_paths := playlist_tracks apple_music_client playlist_name in
  let st :=
    fold_left (resolve_path rt server) apple_track_paths
      {| res_stats :=
           {| sync_total_tracks := length apple_track_paths;
              sync_matched_tracks := 0;
              missing_tracks := 0 |};
         plex_tracks := [];
         missing := [] |} in
  (* Create playlist in Plex *)
  let '(created, playlists) :=
    match plex_tracks st with
    | [] => (None, existing)
    | _ =>
        let '(success, playlists) :=
          Plex.create_playlist rt faults existing playlist_name
            (plex_tracks st) in
        (Some (success, plex_tracks st), playlists)
    end in
  {| sync_stats := res_stats st; plex_playlists := playlists;
     created := created; warnings := missing_warnings rt (missing st) |}.

End Orchestrator.

(** ** The SQLite client: the remote library *)

Module AppleMusicClient.

(** [a, b = parts]: unpacking raises unless there are exactly two. *)
Definition unpack2 (parts : list string) : exn (string * string) :=
  match parts with
  | [a; b] => Return (a, b)
  | _ => Raise
  end.

(** The first step of [_find_db_via_ssh]: parse the SSH connection
    string [library_path] into [(user, host, remote_path)].  [getuser] is
    [getpass.getuser()]. *)
Definition ssh_connection (getuser : exn string) (library_path : string)
  : exn (string * string * string) :=
  if str_in "@" library_path then
    match unpack2 (split_max "@" 1 library_path) with
    | Return (user, rest) =>
        match unpack2 (split_max ":" 1 rest) with
        | Return (host, remote_path) => Return (user, host, remote_path)
        | Raise => Raise
        end
    | Raise => Raise
    end
  else
    (* Default to current user if not specified *)
    match getuser with
    | Return user =>
        match unpack2 (split_max ":" 1 library_path) with
        | Return (host, remote_path) => Return (user, host, remote_path)
        | Raise => Raise
        end
    | Raise => Raise
    end.

End AppleMusicClient.

(** ** Interactive clean of all artists *)

Module Interactive.

(** The [stats] dictionary of [interactive_clean_all]. *)
Record Stats : Type := {
  total_artists : nat;
  processed_artists : nat;
  skipped_artists : nat;
  total_tracks : nat;
  updated_tracks : nat;
  title_updates : nat;
  artist_updates : nat;
  album_updates : nat
}.

(** What the session has done so far: its counters, the change log the
    per-artist runs share, and the writes those runs sent. *)
Record Session : Type := {
  stats : Stats;
  clean_logger : CleanLogger.t;
  edits : list Plex.EditCall
}.

(** [artists_tracks[artist].append(track)] on a [defaultdict(list)]; the
    keys are [None] or [str], kept in insertion order. *)
Fixpoint group_append (artists_tracks : list (pystr * list Plex.Track))
    (artist : pystr) (track : Plex.Track) : list (pystr * list Plex.Track) :=
  match artists_tracks with
  | [] => [(artist, [track])]
  | (key, tracks) :: rest =>
      if bool_decide (key = artist) then (key, tracks ++ [track]) :: rest
      else (key, tracks) :: group_append rest artist track
  end.

(** Group tracks by artist. *)
Definition group_by_artist (plex_tracks : list Plex.Track)
  : list (pystr * list Plex.Track) :=
  fold_left (fun artists_tracks track =>
               group_append artists_tracks (Orchestrator.track_artist track)
                 track)
    plex_tracks [].

(** Strings in ascending order of their code points, which is the order
    of their UTF-8 bytes. *)
Fixpoint insert_sorted (name : string) (names : list string) : list string :=
  match names with
  | [] => [name]
  | other :: rest =>
      if String.leb name other then name :: names
      else other :: insert_sorted name rest
  end.

Definition sort_strings (names : list string) : list string :=
  foldr insert_sorted [] names.

Fixpoint all_strings (keys : list pystr) : option (list string) :=
  match keys with
  | [] => Some []
  | Some name :: rest =>
      match all_strings rest with
      | Some names => Some (name :: names)
      | None => None
      end
  | None :: _ => None
  end.

(** [sorted(artists_tracks.keys())].  The keys are pairwise distinct, so
    their ascending order is unique.  Ordering [None] against a string
    raises [TypeError]; a list of at most one key is returned without a
    comparison. *)
Definition sorted (keys : list pystr) : exn (list pystr) :=
  match keys with
  | [] => Return keys
  | [_] => Return keys
  | _ =>
      match all_strings keys with
      | Some names => Return (Some <$> sort_strings names)
      | None => Raise
      end
  end.

Inductive Choice : Type :=
| Yes
| No
| Exit.

(** The three tests on [choice = input(..).lower()]. *)
Definition choice_of (rt : Runtime) (line : string) : option Choice :=
  let choice := lower rt line in
  if String.eqb choice "y" || String.eqb choice "yes" then Some Yes
  else if String.eqb choice "n" || String.eqb choice "no" then Some No
  else if String.eqb choice "e" || String.eqb choice "exit" then Some Exit
  else None.

(** The [while True] loop that prompts for an action: it reads lines of
    the input until one is a choice.  [input] raises [EOFError] at the end
    of the input.  The result is the choice and the input left. *)
Fixpoint prompt (rt : Runtime) (answers : list string)
  : exn (Choice * list string) :=
  match answers with
  | [] => Raise
  | line :: answers =>
      match choice_of rt line with
      | Some choice => Return (choice, answers)
      | None => prompt rt answers
      end
  end.

(** Update overall statistics. *)
Definition add_artist_stats (session : Session) (run : Orchestrator.Run)
  : Session :=
  let artist_stats := Orchestrator.stats run in
  {| stats :=
       {| total_artists := total_artists (stats session);
          processed_artists := S (processed_artists (stats session));
          skipped_artists := skipped_artists (stats session);
          total_tracks := total_tracks (stats session);
          updated_tracks :=
            updated_tracks (stats session)
            + Orchestrator.updated_tracks artist_stats;
          title_updates :=
            title_updates (stats session)
            + Orchestrator.title_updates artist_stats;
          artist_updates :=
            artist_updates (stats session)
            + Orchestrator.artist_updates artist_stats;
          album_updates :=
            album_updates (stats session)
            + Orchestrator.album_updates artist_stats |};
     clean_logger := Orchestrator.clean_logger run;
     edits := edits session ++ Orchestrator.edits run |}.

(** Skip this artist. *)
Definition skip_artist (session : Session) : Session :=
  {| stats :=
       {| total_artists := total_artists (stats session);
          processed_artists := processed_artists (stats session);
          skipped_artists := S (skipped_artists (stats session));
          total_tracks := total_tracks (stats session);
          updated_tracks := updated_tracks (stats session);
          title_updates := title_updates (stats session);
          artist_updates := artist_updates (stats session);
          album_updates := album_updates (stats session) |};
     clean_logger := clean_logger session;
     edits := edits session |}.

(** The loop over the sorted artists.  [clean_artist_tracks artist_name
    logger] is the call [clean_artist_tracks(plex_client,
    apple_music_client, clean_logger, artist_name)] on the change log as
    it is then; an exception of it leaves the function. *)
Fixpoint process_artists (rt : Runtime)
    (clean_artist_tracks : pystr -> CleanLogger.t -> exn Orchestrator.Run)
    (sorted_artists : list pystr) (session : Session)
    (answers : list string) : exn Session :=
  match sorted_artists with
  | [] => Return session
  | artist_name :: sorted_artists =>
      match prompt rt answers with
      | Raise => Raise
      | Return (Yes, answers) =>
          match clean_artist_tracks artist_name (clean_logger session) with
          | Raise => Raise
          | Return run =>
              process_artists rt clean_artist_tracks sorted_artists
                (add_artist_stats session run) answers
          end
      | Return (No, answers) =>
          process_artists rt clean_artist_tracks sorted_artists
            (skip_artist session) answers
      | Return (Exit, _) => Return session
      end
  end.

(** [answers] are the lines the user types. *)
Definition interactive_clean_all (rt : Runtime)
    (clean_artist_tracks : pystr -> CleanLogger.t -> exn Orchestrator.Run)
    (plex_client : Plex.Server) (clean_logger : CleanLogger.t)
    (answers : list string) : exn Session :=
  (* Get all tracks from Plex *)
  let plex_tracks := Plex.get_all_tracks plex_client in
  (* Group tracks by artist *)
  let artists_tracks := group_by_artist plex_tracks in
  (* Sort artists alphabetically *)
  match sorted (artists_tracks.*1) with
  | Raise => Raise
  | Return sorted_artists =>
      process_artists rt clean_artist_tracks sorted_artists
        {| stats :=
             {| total_artists := length sorted_artists;
                processed_artists := 0;
                skipped_artists := 0;
                total_tracks := length plex_tracks;
                updated_tracks := 0;
                title_updates := 0;
                artist_updates := 0;
                album_updates := 0 |};
           clean_logger := clean_logger;
           edits := [] |}
        answers
  end.

(** The call the loop makes when every client is given: the per-artist
    clean of the orchestrator on an artist name.  What the clients do
    with the artist [None] is not fixed by this module; [on_none] stands
    for it. *)
Definition clean_artist_call (rt : Runtime) (plex_client : Plex.Server)
    (apple_music_client : AppleMusic.Source)
    (on_none : CleanLogger.t -> exn Orchestrator.Run)
    (artist_name : pystr) (clean_logger : CleanLogger.t)
  : exn Orchestrator.Run :=
  match artist_name with
  | Some name =>
      Orchestrator.clean_artist_tracks rt plex_client apple_music_client
        clean_logger name
  | None => on_none clean_logger
  end.

End Interactive.

(** ** The end-to-end scenarios of the specification *)

Module Scenario.
Import AppleMusic Orchestrator.

Definition export_track (name : string) : AppleMusicXMLClient.TrackData :=
  {| AppleMusicXMLClient.Location := Some ("file:///music/" +:+ name +:+ ".mp3");
     AppleMusicXMLClient.Name := Some "X";
     AppleMusicXMLClient.Artist := Some "Y";
     AppleMusicXMLClient.Album := Some "Z" |}.

(** A plist export with three tracks and the playlist "Road Trip" that
    lists them in the order a, b, c. *)
Definition library : AppleMusicXMLClient.t :=
  AppleMusicXMLClient._process_playlists
    (AppleMusicXMLClient._process_tracks "posix" AppleMusicXMLClient.empty
       [("1", export_track "a"); ("2", export_track "b");
        ("3", export_track "c")])
    [{| AppleMusicXMLClient.Master := false;
        AppleMusicXMLClient.Distinguished_Kind := None;
        AppleMusicXMLClient.Playlist_Name := Some "Road Trip";
        AppleMusicXMLClient.Playlist_Items := ["1"; "2"; "3"] |}].

(** Scenario 1: the source catalog
    [{"/music/a.mp3": {title: "X", artist: "Y", album: "Z"}}]. *)
Definition source_catalog : dict Metadata :=
  [("/music/a.mp3",
    {| title := Some "X"; artist := Some "Y"; album := Some "Z" |})].

Definition source : Source :=
  {| all_tracks := source_catalog;
     tracks_by_artist := fun _ => Return source_catalog;
     playlist_tracks :=
       AppleMusicXMLClient.get_playlist_tracks Posix.runtime library |}.

(** The managed record of scenario 1: raw path [/mnt/music/a.mp3], title
    "Old", artist and album as in the source. *)
Definition managed (key : Plex.RatingKey) (name title_ : string)
  : Plex.Track :=
  {| Plex.ratingKey := key;
     Plex.title := Some title_;
     Plex.originalTitle := None;
     Plex.grandparentTitle := Some "Y";
     Plex.parentTitle := Some "Z";
     Plex.media := Return [[Some ("/mnt/music/" +:+ name +:+ ".mp3")]] |}.

Definition track_a : Plex.Track := managed (Plex.StrKey "101") "a" "Old".
Definition track_c : Plex.Track := managed (Plex.StrKey "103") "c" "Old".

(** The managed record of scenario 1 with the integer key 101. *)
Definition track_n : Plex.Track := managed (Plex.IntKey 101) "a" "Old".

(** A server that holds [track_a] only, and takes writes or not. *)
Definition server (accepts : bool) : Plex.Server :=
  {| Plex.searchTracks := fun _ => Return [track_a];
     Plex.search := fun _ => Return [];
     Plex.edit := fun _ _ => accepts |}.

(** A server that holds [track_n] only, and takes writes. *)
Definition integer_server : Plex.Server :=
  {| Plex.searchTracks := fun _ => Return [track_n];
     Plex.search := fun _ => Return [];
     Plex.edit := fun _ _ => true |}.

(** Scenario 2: a server on which the files a and c are found by title
    and b is not. *)
Definition playlist_server : Plex.Server :=
  {| Plex.searchTracks := fun _ => Return [track_a; track_c];
     Plex.search := fun title_ =>
       if String.eqb title_ "a" then Return [track_a]
       else if String.eqb title_ "c" then Return [track_c]
       else Return [];
     Plex.edit := fun _ _ => true |}.

(** A server that finds nothing. *)
Definition empty_server : Plex.Server :=
  {| Plex.searchTracks := fun _ => Return [];
     Plex.search := fun _ => Return [];
     Plex.edit := fun _ _ => true |}.

End Scenario.

(** * Properties *)

(** ** Strings *)

Section StringFacts.

Lemma startswith_cut (s prefix : string) :
  startswith s prefix = true ->
  s = prefix +:+ str_drop (String.length prefix) s.
Proof.
  revert s. induction prefix as [|c prefix IH]; intros s H; [done|].
  destruct s as [|d s]; [done|]. simpl in H |- *.
  destruct (Ascii.eqb_spec c d) as [->|]; [|done].
  f_equal. by apply IH.
Qed.

Lemma startswith_app (prefix s : string) :
  startswith (prefix +:+ s) prefix = true.
Proof.
  induction prefix as [|c prefix IH]; [done|].
  simpl. by rewrite Ascii.eqb_refl, IH.
Qed.

Lemma str_drop_app (prefix s : string) :
  str_drop (String.length prefix) (prefix +:+ s) = s.
Proof. induction prefix as [|c prefix IH]; [done|]. by simpl. Qed.

Lemma str_in_cons_false (c d : ascii) (s : string) :
  str_in (String c "") (String d s) = false ->
  Ascii.eqb c d = false /\ str_in (String c "") s = false.
Proof.
  simpl. destruct (Ascii.eqb c d); simpl; [done|].
  intros H. split; [done|]. by destruct s.
Qed.

End StringFacts.

(** ** Percent-decoding *)

Section UrllibFacts.
Import Urllib PathNormalizer.

Lemma unquote_to_bytes_plain (s : string) :
  str_in "%" s = false -> unquote_to_bytes s = s.
Proof.
  induction s as [|c s IH]; [done|]. intros H.
  apply str_in_cons_false in H as [Hc Hs].
  simpl. rewrite Ascii.eqb_sym, Hc. f_equal. by apply IH.
Qed.

(** An octet is either kept, and is not ['%'], or written as ['%'] and
    the two digits that [unquote_to_bytes] reads back as that octet. *)
Lemma quote_octet_cases (c : ascii) :
  (quote_octet c = String c "" /\ Ascii.eqb c "%" = false)
  \/ (exists a b,
        quote_octet c = String "%" (String a (String b ""))
        /\ is_hexdig a && is_hexdig b = true /\ hextobyte a b = c).
Proof.
  destruct c as [[] [] [] [] [] [] [] []];
    first [ left; split; reflexivity
          | right; eexists _, _; repeat split; reflexivity ].
Qed.

Lemma unquote_to_bytes_quote (p : string) :
  unquote_to_bytes (quote p) = p.
Proof.
  induction p as [|c p IH]; [done|].
  cbn [quote].
  destruct (quote_octet_cases c) as [[-> Hc] | (a & b & -> & Hab & Hc)].
  - cbn. rewrite Hc. by rewrite IH.
  - cbn [String.append unquote_to_bytes]. rewrite Ascii.eqb_refl, Hab.
    by rewrite IH, Hc.
Qed.

Lemma utf8_replace_valid_bounded (n : nat) (s : string) :
  String.length s <= n -> utf8_valid s = true -> utf8_replace s = s.
Proof.
  revert s. induction n as [|n IH]; intros [|b0 t] Hlen Hv;
    cbn [String.length] in Hlen; try done; [lia|].
  cbn [utf8_valid] in Hv. cbn [utf8_replace].
  destruct (seq_len b0) as [|[|[|[|[|k]]]]]; try done.
  - f_equal. apply IH; [lia | done].
  - destruct t as [|b1 t1]; [done|].
    apply andb_prop in Hv as [-> Hv]. cbn [String.length] in Hlen.
    do 2 f_equal. apply IH; [lia | done].
  - destruct t as [|b1 [|b2 t2]]; try done.
    apply andb_prop in Hv as [Hv Hv2]. apply andb_prop in Hv as [-> ->].
    cbn [String.length] in Hlen.
    do 3 f_equal. apply IH; [lia | done].
  - destruct t as [|b1 [|b2 [|b3 t3]]]; try done.
    apply andb_prop in Hv as [Hv Hv3]. apply andb_prop in Hv as [Hv ->].
    apply andb_prop in Hv as [-> ->].
    cbn [String.length] in Hlen.
    do 4 f_equal. apply IH; [lia | done].
Qed.

Lemma utf8_replace_valid (s : string) :
  utf8_valid s = true -> utf8_replace s = s.
Proof. by apply (utf8_replace_valid_bounded (String.length s)). Qed.

(** Percent-decoding undoes percent-encoding on every text. *)
Lemma unquote_quote (p : string) :
  utf8_valid p = true -> unquote (quote p) = p.
Proof.
  intros Hp. unfold unquote.
  destruct (str_in "%" (quote p)) eqn:Hpct.
  - by rewrite unquote_to_bytes_quote, utf8_replace_valid.
  - by rewrite <- (unquote_to_bytes_plain _ Hpct), unquote_to_bytes_quote.
Qed.

End UrllibFacts.

(** ** Path Normalizer *)

Section PathNormalizerFacts.
Import Urllib PathNormalizer.

Lemma startswith_volumes_root (path : string) :
  startswith path "/Volumes/" = true -> startswith path "/" = true.
Proof.
  intros H. apply startswith_cut in H. rewrite H. reflexivity.
Qed.

(** [path.split('/', 3)] on a path under [/Volumes/]: the two leading
    parts are fixed, the others come from the first separator after the
    volume name. *)
Lemma split_volumes (path : string) :
  startswith path "/Volumes/" = true ->
  split_max "/" 3 path =
    "" :: "Volumes" ::
      match break_at "/" (str_drop 9 path) with
      | Some (name, rest) => [name; rest]
      | None => [str_drop 9 path]
      end.
Proof.
  intros H. apply startswith_cut in H.
  set (q := str_drop 9 path). change (str_drop _ path) with q in H.
  rewrite H. cbn. by destruct (break_at "/" q) as [[name rest]|].
Qed.

(** The rewrite both decoders apply under [os.name == 'nt']. *)
Lemma windows_rewrite (path : string) :
  (if startswith path "/" then
     if startswith path "/Volumes/" then
       let parts := split_max "/" 3 path in
       if (4 <=? length parts)%nat
       then nth 2 parts "" +:+ ":/" +:+ nth 3 parts ""
       else path
     else str_drop 1 path
   else path)
  = match volume_form path with
    | Some (name, rest) => name +:+ ":/" +:+ rest
    | None =>
        if startswith path "/Volumes/" then path
        else if startswith path "/" then str_drop 1 path
        else path
    end.
Proof.
  unfold volume_form.
  destruct (startswith path "/Volumes/") eqn:Hv.
  - rewrite (startswith_volumes_root _ Hv), (split_volumes _ Hv).
    by destruct (break_at "/" (str_drop 9 path)) as [[name rest]|].
  - done.
Qed.

Lemma decode_file_url_guarded (os_name : string) (location : pystr) :
  _decode_file_url os_name location
  = decode_reference_guarded os_name location.
Proof.
  destruct location as [file_url|]; [|done].
  unfold _decode_file_url, decode_reference_guarded, try_except.
  destruct (startswith file_url "file://"); [|done].
  set (path := unquote (str_drop 7 file_url)).
  destruct (String.eqb os_name "nt").
  - cbn [andb]. cbv zeta. pose proof (windows_rewrite path) as Hw.
    cbv zeta in Hw. rewrite Hw.
    destruct (volume_form path) as [[name rest]|]; [done|].
    by destruct (startswith path "/Volumes/"), (startswith path "/").
  - done.
Qed.

Lemma decode_apple_file_path_as_url (os_name : string) (location : pystr) :
  _decode_apple_file_path os_name location
  = _decode_file_url os_name location.
Proof. by destruct location as [[|c s]|]. Qed.

(** The decoder undoes the encoder wherever the Windows rewrite does not
    apply. *)
Lemma decode_file_url_encode (os_name p : string) :
  utf8_valid p = true ->
  os_name <> "nt" \/ startswith p "/" = false ->
  _decode_file_url os_name (Some (encode p)) = Some p.
Proof.
  intros Hp Hos. unfold _decode_file_url, encode, try_except.
  rewrite startswith_app.
  change 7 with (String.length "file://"). rewrite str_drop_app.
  cbv zeta. rewrite (unquote_quote _ Hp).
  destruct Hos as [Hos | ->].
  - apply String.eqb_neq in Hos. by rewrite Hos.
  - by rewrite andb_false_r.
Qed.

End PathNormalizerFacts.

(** C5, as amended.  For every location, [None] or a string, the decoder of
    the plist adapter and the decoder of the database adapter both equal
    the guarded reference definition: a location that is not a string
    beginning with [file://] is undecodable; otherwise the scheme is
    stripped and the remainder percent-decoded; under [os.name == 'nt'] a
    decoded path [/Volumes/<name>/<rest>] becomes [<name>:/<rest>], a
    decoded path under [/Volumes/] with nothing after the volume name
    stays as it is, and any other decoded path that begins with ['/']
    loses exactly that one separator.  Nothing is raised. *)
Theorem decoders_equal_guarded_reference (os_name : string) (location : pystr) :
  PathNormalizer._decode_file_url os_name location
    = PathNormalizer.decode_reference_guarded os_name location
  /\ PathNormalizer._decode_apple_file_path os_name location
    = PathNormalizer.decode_reference_guarded os_name location.
Proof.
  split.
  - apply decode_file_url_guarded.
  - rewrite decode_apple_file_path_as_url. apply decode_file_url_guarded.
Qed.

(** C5 as stated fails: under the Windows convention a volume path with
    nothing after the volume name keeps its leading separator, where the
    reference of the claim removes it. *)
Lemma decoders_differ_from_reference_on_bare_volume :
  PathNormalizer._decode_file_url "nt" (Some "file:///Volumes/X")
    = Some "/Volumes/X"
  /\ PathNormalizer._decode_apple_file_path "nt" (Some "file:///Volumes/X")
    = Some "/Volumes/X"
  /\ PathNormalizer.decode_reference "nt" (Some "file:///Volumes/X")
    = Some "Volumes/X"
  /\ PathNormalizer._decode_file_url "nt" (Some "file:///Volumes/X")
    <> PathNormalizer.decode_reference "nt" (Some "file:///Volumes/X").
Proof. repeat split; try reflexivity. vm_compute. discriminate. Qed.

(** C6, as amended.  For every text [p] (every well-formed UTF-8 string),
    when the local convention is not the Windows one, or [p] does not begin
    with ['/'], decoding the encoded form of [p] returns [p]. *)
Theorem decode_encode_roundtrip (os_name p : string) :
  Urllib.utf8_valid p = true ->
  os_name <> "nt" \/ startswith p "/" = false ->
  PathNormalizer._decode_file_url os_name (Some (PathNormalizer.encode p))
    = Some p
  /\ PathNormalizer._decode_apple_file_path os_name
       (Some (PathNormalizer.encode p)) = Some p.
Proof.
  intros Hp Hos. rewrite decode_apple_file_path_as_url.
  split; by apply decode_file_url_encode.
Qed.

Lemma decode_encode_roundtrip_witness :
  PathNormalizer.encode "/Music/Björk/100% é.mp3"
    = "file:///Music/Bj%C3%B6rk/100%25%20%C3%A9.mp3"
  /\ PathNormalizer._decode_file_url "posix"
       (Some (PathNormalizer.encode "/Music/Björk/100% é.mp3"))
     = Some "/Music/Björk/100% é.mp3"
  /\ PathNormalizer._decode_apple_file_path "posix"
       (Some (PathNormalizer.encode "/Music/Björk/100% é.mp3"))
     = Some "/Music/Björk/100% é.mp3".
Proof.
  split; [reflexivity|].
  apply (decode_encode_roundtrip "posix" "/Music/Björk/100% é.mp3").
  - reflexivity.
  - left. discriminate.
Defined.

(** C6 as stated fails: under the Windows convention a path that begins
    with ['/'] does not come back. *)
Lemma decode_encode_not_identity_on_windows :
  Urllib.utf8_valid "/music/a.mp3" = true
  /\ PathNormalizer._decode_file_url "nt"
       (Some (PathNormalizer.encode "/music/a.mp3")) = Some "music/a.mp3"
  /\ PathNormalizer._decode_file_url "nt"
       (Some (PathNormalizer.encode "/music/a.mp3")) <> Some "/music/a.mp3".
Proof. repeat split; try reflexivity. vm_compute. discriminate. Qed.

(** ** Lists and dictionaries *)

Section DictFacts.
Context {A V : Type}.

Lemma find_first_where (test : A -> bool) (l : list A) (x : A) :
  first_where test l x -> find test l = Some x.
Proof.
  intros (before & after & -> & Hx & Hbefore).
  induction Hbefore as [|y before Hy _ IH]; simpl.
  - by rewrite Hx.
  - by rewrite Hy.
Qed.

Lemma find_nowhere (test : A -> bool) (l : list A) :
  Forall (fun y => test y = false) l -> find test l = None.
Proof. induction 1 as [|y l Hy _ IH]; simpl; [done|]. by rewrite Hy. Qed.

Lemma find_somewhere (test : A -> bool) (l : list A) (x : A) :
  find test l = Some x -> x ∈ l /\ test x = true.
Proof.
  intros H. apply find_some in H as [Hin Hx].
  split; [by apply list_elem_of_In | done].
Qed.

Lemma find_none_everywhere (test : A -> bool) (l : list A) :
  find test l = None -> Forall (fun y => test y = false) l.
Proof.
  intros H. apply Forall_forall. intros y Hy.
  apply (find_none _ _ H). by apply list_elem_of_In.
Qed.

Lemma dict_get_absent (d : dict V) (k : string) :
  k ∉ d.*1 -> dict_get d k = None.
Proof.
  induction d as [|[k' v] d IH]; [done|]. intros Hk.
  apply not_elem_of_cons in Hk as [Hne Hk]. simpl.
  destruct (String.eqb_spec k' k) as [->|]; [done|]. by apply IH.
Qed.

Lemma dict_get_none_absent (d : dict V) (k : string) :
  dict_get d k = None -> k ∉ d.*1.
Proof.
  induction d as [|[k' v] d IH]; csimpl.
  - intros _. apply not_elem_of_nil.
  - destruct (String.eqb_spec k' k) as [->|Hne]; [done|].
    intros H. apply not_elem_of_cons. split; [done | by apply IH].
Qed.

Lemma dict_get_present (d : dict V) (k : string) (v : V) :
  dict_wf d -> (k, v) ∈ d -> dict_get d k = Some v.
Proof.
  unfold dict_wf. induction d as [|[k' v'] d IH]; intros Hwf Hin.
  - by apply elem_of_nil in Hin.
  - apply NoDup_cons in Hwf as [Hfresh Hwf]. simpl.
    apply elem_of_cons in Hin as [Heq | Hin].
    + injection Heq as <- <-. by rewrite String.eqb_refl.
    + destruct (String.eqb_spec k' k) as [->|]; [|by apply IH].
      exfalso. apply Hfresh.
      apply list_elem_of_fmap. by exists (k, v).
Qed.

Lemma dict_get_elem_of (d : dict V) (k : string) (v : V) :
  dict_get d k = Some v -> (k, v) ∈ d.
Proof.
  induction d as [|[k' v'] d IH]; [done|]. simpl.
  destruct (String.eqb_spec k' k) as [->|].
  - intros [= ->]. apply elem_of_cons. by left.
  - intros H. apply elem_of_cons. right. by apply IH.
Qed.

Lemma dict_set_keys (d : dict V) (k : string) (v : V) :
  (dict_set d k v).*1 = if bool_decide (k ∈ d.*1) then d.*1 else d.*1 ++ [k].
Proof.
  induction d as [|[k' v'] d IH]; [done|]. csimpl.
  destruct (String.eqb_spec k' k) as [->|Hne].
  - rewrite bool_decide_eq_true_2; [done|]. apply elem_of_cons. by left.
  - csimpl. rewrite IH. destruct (bool_decide (k ∈ d.*1)) eqn:Hk.
    + apply bool_decide_eq_true_1 in Hk.
      rewrite bool_decide_eq_true_2; [done|]. apply elem_of_cons. by right.
    + apply bool_decide_eq_false_1 in Hk.
      rewrite bool_decide_eq_false_2; [done|].
      intros Hin. apply elem_of_cons in Hin as [->|Hin]; done.
Qed.

Lemma dict_set_wf (d : dict V) (k : string) (v : V) :
  dict_wf d -> dict_wf (dict_set d k v).
Proof.
  unfold dict_wf. intros Hwf. rewrite dict_set_keys.
  destruct (bool_decide (k ∈ d.*1)) eqn:Hk; [done|].
  apply bool_decide_eq_false_1 in Hk.
  apply NoDup_app. split_and!; [done| |apply NoDup_singleton].
  intros x Hx Hx'. apply list_elem_of_singleton in Hx' as ->. done.
Qed.

Lemma dict_set_values (P : V -> Prop) (d : dict V) (k : string) (v : V) :
  Forall (fun item => P item.2) d -> P v ->
  Forall (fun item => P item.2) (dict_set d k v).
Proof.
  intros Hd Hv. induction Hd as [|[k' v'] d Hitem Hd IH]; simpl.
  - by constructor.
  - destruct (String.eqb k' k); constructor; done.
Qed.

End DictFacts.

(** ** The plist adapter *)

Section XmlFacts.
Import AppleMusicXMLClient.

Lemma process_playlist_stored_ok (self : t) (playlist : PlaylistData) :
  stored_ok self -> stored_ok (_process_playlist self playlist).
Proof.
  intros [Hwf Hne]. unfold _process_playlist.
  destruct (Master playlist || _); [done|].
  destruct (get_or_empty (Playlist_Name playlist)) as [|c name]; [done|].
  destruct (playlist_paths _ _) as [|path paths] eqn:Hpaths; [done|].
  split; simpl.
  - by apply dict_set_wf.
  - by apply (dict_set_values (fun tracks => tracks <> [])).
Qed.

Lemma process_playlists_stored_ok (self : t) (l : list PlaylistData) :
  stored_ok self -> stored_ok (_process_playlists self l).
Proof.
  unfold _process_playlists. revert self.
  induction l as [|playlist l IH]; intros self Hok; [done|].
  simpl. apply IH. by apply process_playlist_stored_ok.
Qed.

Lemma process_track_playlists (os_name : string) (self : t)
    (entry : string * TrackData) :
  playlists (_process_track os_name self entry) = playlists self.
Proof.
  destruct entry as [track_id track_data]. unfold _process_track.
  destruct (Location track_data) as [location|]; [|done].
  by destruct (PathNormalizer._decode_file_url _ _) as [[|c path]|].
Qed.

Lemma process_tracks_playlists (os_name : string) (self : t)
    (l : list (string * TrackData)) :
  playlists (_process_tracks os_name self l) = playlists self.
Proof.
  unfold _process_tracks. revert self.
  induction l as [|entry l IH]; intros self; [done|].
  simpl. by rewrite IH, process_track_playlists.
Qed.

(** Every library loaded from an export satisfies [stored_ok]. *)
Lemma load_library_stored_ok (os_name : string)
    (tracks_dict : list (string * TrackData))
    (playlists_list : list PlaylistData) :
  stored_ok
    (_process_playlists (_process_tracks os_name empty tracks_dict)
       playlists_list).
Proof.
  apply process_playlists_stored_ok. unfold stored_ok.
  rewrite process_tracks_playlists. split; [apply NoDup_nil_2 | done].
Qed.

End XmlFacts.

(** ** Playlist sync *)

Section SyncFacts.
Import Orchestrator.

Lemma resolved_unresolved_length (rt : Runtime) (server : Plex.Server)
    (paths : list string) :
  length (resolved rt server paths) + length (unresolved rt server paths)
  = length paths.
Proof.
  unfold resolved, unresolved.
  induction paths as [|p paths IH]; [done|].
  rewrite filter_cons. csimpl.
  destruct (Plex.find_track_by_filename rt server p) as [track|] eqn:Hp.
  - rewrite decide_False by done. simpl. lia.
  - rewrite decide_True by done. simpl. lia.
Qed.

Lemma resolve_paths_fold (rt : Runtime) (server : Plex.Server)
    (paths : list string) (st : Resolution) :
  fold_left (resolve_path rt server) paths st
  = {| res_stats :=
         {| sync_total_tracks := sync_total_tracks (res_stats st);
            sync_matched_tracks :=
              sync_matched_tracks (res_stats st)
              + length (resolved rt server paths);
            missing_tracks :=
              missing_tracks (res_stats st)
              + length (unresolved rt server paths) |};
       plex_tracks := plex_tracks st ++ resolved rt server paths;
       missing := missing st ++ unresolved rt server paths |}.
Proof.
  unfold resolved, unresolved. revert st.
  induction paths as [|p paths IH]; intros [[total matched lost] found gone].
  - simpl. by rewrite !Nat.add_0_r, !app_nil_r.
  - cbn [fold_left]. rewrite IH. unfold resolve_path.
    rewrite filter_cons. csimpl.
    destruct (Plex.find_track_by_filename rt server p) as [track|] eqn:Hp.
    + rewrite decide_False by done. simpl.
      rewrite <- app_assoc. do 3 f_equal. lia.
    + rewrite decide_True by done. simpl.
      rewrite <- app_assoc. do 2 f_equal. f_equal. lia.
Qed.

End SyncFacts.

Section SyncPlaylistFacts.
Import Orchestrator.
Context (rt : Runtime) (server : Plex.Server) (faults : Plex.Faults)
        (existing : Plex.Playlists) (apple : AppleMusic.Source)
        (playlist_name : string).

Lemma sync_playlist_stats :
  sync_stats (sync_playlist rt server faults existing apple playlist_name)
  = {| sync_total_tracks :=
         length (AppleMusic.playlist_tracks apple playlist_name);
       sync_matched_tracks :=
         length (resolved rt server
                   (AppleMusic.playlist_tracks apple playlist_name));
       missing_tracks :=
         length (unresolved rt server
                   (AppleMusic.playlist_tracks apple playlist_name)) |}.
Proof.
  unfold sync_playlist. rewrite resolve_paths_fold. cbn.
  destruct (resolved rt server _) as [|track found]; [done|].
  by destruct (Plex.create_playlist _ _ _ _ _).
Qed.

Lemma sync_playlist_warnings :
  warnings (sync_playlist rt server faults existing apple playlist_name)
  = missing_warnings rt
      (unresolved rt server (AppleMusic.playlist_tracks apple playlist_name)).
Proof.
  unfold sync_playlist. rewrite resolve_paths_fold. cbn.
  destruct (resolved rt server _) as [|track found]; [done|].
  by destruct (Plex.create_playlist _ _ _ _ _).
Qed.

Lemma sync_playlist_nothing_found :
  resolved rt server (AppleMusic.playlist_tracks apple playlist_name) = [] ->
  created (sync_playlist rt server faults existing apple playlist_name) = None
  /\ plex_playlists
       (sync_playlist rt server faults existing apple playlist_name)
     = existing.
Proof.
  intros H. unfold sync_playlist. rewrite resolve_paths_fold. cbn.
  by rewrite H.
Qed.

Lemma sync_playlist_found :
  resolved rt server (AppleMusic.playlist_tracks apple playlist_name) <> [] ->
  created (sync_playlist rt server faults existing apple playlist_name)
  = Some ((Plex.create_playlist rt faults existing playlist_name
             (resolved rt server
                (AppleMusic.playlist_tracks apple playlist_name))).1,
          resolved rt server (AppleMusic.playlist_tracks apple playlist_name))
  /\ plex_playlists
       (sync_playlist rt server faults existing apple playlist_name)
     = (Plex.create_playlist rt faults existing playlist_name
          (resolved rt server
             (AppleMusic.playlist_tracks apple playlist_name))).2.
Proof.
  intros H. unfold sync_playlist. rewrite resolve_paths_fold. cbn.
  destruct (resolved rt server _) as [|track found]; [done|].
  by destruct (Plex.create_playlist _ _ _ _ _).
Qed.

End SyncPlaylistFacts.

Section CreatePlaylistFacts.
Context (rt : Runtime).

Lemma delete_first_where (name : string) (before after : Plex.Playlists)
    (old : string * list Plex.Track) :
  Plex.same_title rt name old = true ->
  Forall (fun item => Plex.same_title rt name item = false) before ->
  Plex.delete_first rt name (before ++ old :: after) = Some (before ++ after).
Proof.
  intros Hold Hbefore.
  induction Hbefore as [|item before Hitem _ IH]; simpl.
  - by rewrite Hold.
  - by rewrite Hitem, IH.
Qed.

Lemma delete_first_nowhere (name : string) (existing : Plex.Playlists) :
  Forall (fun item => Plex.same_title rt name item = false) existing ->
  Plex.delete_first rt name existing = None.
Proof.
  induction 1 as [|item existing Hitem _ IH]; simpl; [done|].
  by rewrite Hitem, IH.
Qed.

End CreatePlaylistFacts.

(** ** Identity Resolver *)

(** C1.  For every managed file path and every source catalog: when the
    catalog has a record under that very path, resolution returns it; when
    it has none, resolution returns the record of the first key, in catalog
    order, whose base name equals the base name of the path; when no key
    has that base name either, resolution reports no match, whatever the
    titles and artists in the catalog are, and the track passes through
    the run without any effect. *)
Theorem match_track_tiers (rt : Runtime)
    (apple_tracks : dict AppleMusic.Metadata) (file_path : string) :
  dict_wf apple_tracks ->
  (forall record,
      (file_path, record) ∈ apple_tracks ->
      Orchestrator.match_track rt apple_tracks file_path = Some record)
  /\ (file_path ∉ apple_tracks.*1 ->
      (forall item,
          first_where (Orchestrator.same_basename rt (basename rt file_path))
            apple_tracks item ->
          Orchestrator.match_track rt apple_tracks file_path = Some item.2)
      /\ (Forall (fun item : string * AppleMusic.Metadata =>
                    basename rt item.1 <> basename rt file_path) apple_tracks ->
          Orchestrator.match_track rt apple_tracks file_path = None
          /\ forall server cleaned_tracks run track medias,
               Plex.ratingKey track ∉ cleaned_tracks ->
               Plex.media track = Return medias ->
               Orchestrator.first_file medias None = Some file_path ->
               Orchestrator.clean_track rt server apple_tracks cleaned_tracks
                 run track = run)).
Proof.
  intros Hwf. split.
  - intros record Hin. unfold Orchestrator.match_track.
    by rewrite (dict_get_present _ _ _ Hwf Hin).
  - intros Habsent. unfold Orchestrator.match_track.
    rewrite (dict_get_absent _ _ Habsent). split.
    + intros [apple_path record] Hfirst.
      by rewrite (find_first_where _ _ _ Hfirst).
    + intros Hnone.
      assert (find (Orchestrator.same_basename rt (basename rt file_path))
                apple_tracks = None) as Hfind.
      { apply find_nowhere. eapply Forall_impl; [exact Hnone|].
        intros item Hitem. by apply String.eqb_neq. }
      rewrite Hfind. split; [done|].
      intros server cleaned_tracks run track medias Hkey Hmedia Hfile.
      unfold Orchestrator.clean_track, Orchestrator.match_track.
      rewrite bool_decide_eq_false_2 by done.
      rewrite Hmedia, Hfile, (dict_get_absent _ _ Habsent), Hfind.
      by destruct file_path.
Qed.

Lemma match_track_tiers_witness :
  Orchestrator.match_track Posix.runtime Scenario.source_catalog
    "/mnt/music/a.mp3"
  = Some {| AppleMusic.title := Some "X"; AppleMusic.artist := Some "Y";
            AppleMusic.album := Some "Z" |}.
Proof.
  assert (dict_wf Scenario.source_catalog) as Hwf.
  { apply NoDup_singleton. }
  destruct (match_track_tiers Posix.runtime Scenario.source_catalog
              "/mnt/music/a.mp3" Hwf) as [_ Hbase].
  assert ("/mnt/music/a.mp3" ∉ (Scenario.source_catalog).*1) as Habsent.
  { intros Hin. apply list_elem_of_singleton in Hin. discriminate. }
  destruct (Hbase Habsent) as [Hfirst _].
  apply (Hfirst ("/music/a.mp3", _)).
  exists [], []. repeat split. constructor.
Defined.

(** ** The plist adapter's playlist lookup *)

(** C10.  For every playlist-name query on a loaded library: a playlist
    stored under exactly that name is returned; failing that, the first
    stored playlist whose lower-cased name equals the lower-cased query;
    failing that, the first stored playlist whose lower-cased name contains
    the lower-cased query; the empty list is returned only when none of
    the three applies.  Playlist sync then works on the list so found. *)
Theorem get_playlist_tracks_three_tiers (rt : Runtime)
    (self : AppleMusicXMLClient.t) (playlist_name : string) :
  AppleMusicXMLClient.stored_ok self ->
  (forall tracks,
      (playlist_name, tracks) ∈ AppleMusicXMLClient.playlists self ->
      AppleMusicXMLClient.get_playlist_tracks rt self playlist_name = tracks)
  /\ (playlist_name ∉ (AppleMusicXMLClient.playlists self).*1 ->
      (forall item,
          first_where
            (AppleMusicXMLClient.same_name rt (lower rt playlist_name))
            (AppleMusicXMLClient.playlists self) item ->
          AppleMusicXMLClient.get_playlist_tracks rt self playlist_name
          = item.2)
      /\ (Forall (fun item =>
                    AppleMusicXMLClient.same_name rt (lower rt playlist_name)
                      item = false)
            (AppleMusicXMLClient.playlists self) ->
          (forall item,
              first_where
                (AppleMusicXMLClient.name_contains rt (lower rt playlist_name))
                (AppleMusicXMLClient.playlists self) item ->
              AppleMusicXMLClient.get_playlist_tracks rt self playlist_name
              = item.2)
          /\ (Forall (fun item =>
                        AppleMusicXMLClient.name_contains rt
                          (lower rt playlist_name) item = false)
                (AppleMusicXMLClient.playlists self) ->
              AppleMusicXMLClient.get_playlist_tracks rt self playlist_name
              = [])))
  /\ (AppleMusicXMLClient.get_playlist_tracks rt self playlist_name = [] ->
      (playlist_name ∉ ((AppleMusicXMLClient.playlists self).*1))
      /\ Forall (fun item =>
                   AppleMusicXMLClient.same_name rt (lower rt playlist_name)
                     item = false)
           (AppleMusicXMLClient.playlists self)
      /\ Forall (fun item =>
                   AppleMusicXMLClient.name_contains rt
                     (lower rt playlist_name) item = false)
           (AppleMusicXMLClient.playlists self))
  /\ (forall server faults existing,
        Orchestrator.sync_total_tracks
          (Orchestrator.sync_stats
             (Orchestrator.sync_playlist rt server faults existing
                (AppleMusicXMLClient.source rt self) playlist_name))
        = length
            (AppleMusicXMLClient.get_playlist_tracks rt self playlist_name)).
Proof.
  intros [Hwf Hne]. unfold AppleMusicXMLClient.get_playlist_tracks.
  split; [|split; [|split]].
  - intros tracks Hin. by rewrite (dict_get_present _ _ _ Hwf Hin).
  - intros Habsent. rewrite (dict_get_absent _ _ Habsent). split.
    + intros [name tracks] Hfirst. by rewrite (find_first_where _ _ _ Hfirst).
    + intros Hnone. rewrite (find_nowhere _ _ Hnone). split.
      * intros [name tracks] Hfirst.
        by rewrite (find_first_where _ _ _ Hfirst).
      * intros Hnone'. by rewrite (find_nowhere _ _ Hnone').
  - rewrite Forall_forall in Hne.
    destruct (dict_get _ playlist_name) as [tracks|] eqn:Hexact.
    { intros ->. apply dict_get_elem_of in Hexact.
      by apply Hne in Hexact. }
    destruct (find (AppleMusicXMLClient.same_name _ _) _)
      as [[name tracks]|] eqn:Hsame.
    { intros ->. apply find_somewhere in Hsame as [Hin _].
      by apply Hne in Hin. }
    destruct (find (AppleMusicXMLClient.name_contains _ _) _)
      as [[name tracks]|] eqn:Hpart.
    { intros ->. apply find_somewhere in Hpart as [Hin _].
      by apply Hne in Hin. }
    intros _. split_and!.
    + by apply dict_get_none_absent.
    + by apply find_none_everywhere.
    + by apply find_none_everywhere.
  - intros server faults existing. by rewrite sync_playlist_stats.
Qed.

(** The query "road" finds the playlist "Road Trip" by containment. *)
Lemma get_playlist_tracks_three_tiers_witness :
  AppleMusicXMLClient.get_playlist_tracks Posix.runtime Scenario.library "road"
  = ["/music/a.mp3"; "/music/b.mp3"; "/music/c.mp3"].
Proof.
  destruct (get_playlist_tracks_three_tiers Posix.runtime Scenario.library
              "road" (load_library_stored_ok _ _ _))
    as (_ & Hlater & _).
  assert ("road" ∉ (AppleMusicXMLClient.playlists Scenario.library).*1)
    as Habsent.
  { intros Hin. apply list_elem_of_singleton in Hin. discriminate. }
  destruct (Hlater Habsent) as [_ Hlast].
  assert (Forall (fun item =>
                    AppleMusicXMLClient.same_name Posix.runtime
                      (lower Posix.runtime "road") item = false)
            (AppleMusicXMLClient.playlists Scenario.library)) as Hnone.
  { repeat constructor. }
  destruct (Hlast Hnone) as [Hpart _].
  apply (Hpart ("Road Trip", _)).
  exists [], []. repeat split. constructor.
Defined.

(** ** Playlist sync *)

(** C7, as amended.  For every playlist sync whose source playlist
    resolves to n ordered paths of which k resolve to managed tracks:
    [matched_tracks] is k and [missing_tracks] is n - k.  When k is not 0,
    [create_playlist] is given exactly the k resolved tracks in source
    order, and on a server that takes the requests the playlists afterwards
    are the earlier ones, less the first whose title equals the name up to
    case, followed by the playlist of that name with exactly those members.
    When k is 0 no playlist is created or replaced.  The missing paths are
    reported as their number, the base names of the first ten and, beyond
    ten, the number of the others.  With n = 3 and k = 2 the member list has
    2 tracks and [missing_tracks] is 1. *)
Theorem sync_playlist_members (rt : Runtime) (server : Plex.Server)
    (faults : Plex.Faults) (existing : Plex.Playlists)
    (apple : AppleMusic.Source) (playlist_name : string) :
  Orchestrator.sync_stats
    (Orchestrator.sync_playlist rt server faults existing apple playlist_name)
  = {| Orchestrator.sync_total_tracks :=
         length (AppleMusic.playlist_tracks apple playlist_name);
       Orchestrator.sync_matched_tracks :=
         length (Orchestrator.resolved rt server
                   (AppleMusic.playlist_tracks apple playlist_name));
       Orchestrator.missing_tracks :=
         length (AppleMusic.playlist_tracks apple playlist_name)
         - length (Orchestrator.resolved rt server
                     (AppleMusic.playlist_tracks apple playlist_name)) |}
  /\ (Orchestrator.resolved rt server
        (AppleMusic.playlist_tracks apple playlist_name) <> [] ->
      (exists success,
          Orchestrator.created
            (Orchestrator.sync_playlist rt server faults existing apple
               playlist_name)
          = Some (success,
                  Orchestrator.resolved rt server
                    (AppleMusic.playlist_tracks apple playlist_name)))
      /\ (faults = Plex.no_faults ->
          (forall before old after,
              existing = before ++ old :: after ->
              Plex.same_title rt playlist_name old = true ->
              Forall (fun item => Plex.same_title rt playlist_name item = false)
                before ->
              Orchestrator.plex_playlists
                (Orchestrator.sync_playlist rt server faults existing apple
                   playlist_name)
              = (before ++ after)
                ++ [(playlist_name,
                     Orchestrator.resolved rt server
                       (AppleMusic.playlist_tracks apple playlist_name))])
          /\ (Forall (fun item => Plex.same_title rt playlist_name item = false)
                existing ->
              Orchestrator.plex_playlists
                (Orchestrator.sync_playlist rt server faults existing apple
                   playlist_name)
              = existing
                ++ [(playlist_name,
                     Orchestrator.resolved rt server
                       (AppleMusic.playlist_tracks apple playlist_name))])))
  /\ (Orchestrator.resolved rt server
        (AppleMusic.playlist_tracks apple playlist_name) = [] ->
      Orchestrator.created
        (Orchestrator.sync_playlist rt server faults existing apple
           playlist_name) = None
      /\ Orchestrator.plex_playlists
           (Orchestrator.sync_playlist rt server faults existing apple
              playlist_name) = existing)
  /\ Orchestrator.warnings
       (Orchestrator.sync_playlist rt server faults existing apple
          playlist_name)
     = match Orchestrator.unresolved rt server
               (AppleMusic.playlist_tracks apple playlist_name) with
       | [] => []
       | lost =>
           Orchestrator.CouldNotFind (length lost)
           :: (Orchestrator.MissingFile <$> (basename rt <$> take 10 lost))
           ++ (if (10 <? length lost)%nat
               then [Orchestrator.AndMore (length lost - 10)] else [])
       end
  /\ (length (AppleMusic.playlist_tracks apple playlist_name) = 3 ->
      length (Orchestrator.resolved rt server
                (AppleMusic.playlist_tracks apple playlist_name)) = 2 ->
      Orchestrator.missing_tracks
        (Orchestrator.sync_stats
           (Orchestrator.sync_playlist rt server faults existing apple
              playlist_name)) = 1
      /\ exists success members,
           Orchestrator.created
             (Orchestrator.sync_playlist rt server faults existing apple
                playlist_name) = Some (success, members)
           /\ length members = 2).
Proof.
  pose proof (resolved_unresolved_length rt server
                (AppleMusic.playlist_tracks apple playlist_name)) as Hlen.
  pose proof (sync_playlist_stats rt server faults existing apple
                playlist_name) as Hstats.
  split_and!.
  - rewrite Hstats. f_equal. lia.
  - intros Hfound.
    destruct (sync_playlist_found rt server faults existing apple
                playlist_name Hfound) as [Hcreated Hlists].
    split; [by eexists|].
    intros ->. rewrite Hlists. unfold Plex.create_playlist. simpl. split.
    + intros before old after -> Hold Hbefore.
      by rewrite (delete_first_where rt _ _ _ _ Hold Hbefore).
    + intros Hnone. by rewrite (delete_first_nowhere rt _ _ Hnone).
  - apply sync_playlist_nothing_found.
  - rewrite sync_playlist_warnings. unfold Orchestrator.missing_warnings.
    by destruct (Orchestrator.unresolved rt server _).
  - intros Hn Hk. rewrite Hstats. simpl. split; [lia|].
    assert (Orchestrator.resolved rt server
              (AppleMusic.playlist_tracks apple playlist_name) <> [])
      as Hfound.
    { intros Hnil. by rewrite Hnil in Hk. }
    destruct (sync_playlist_found rt server faults existing apple
                playlist_name Hfound) as [Hcreated _].
    by eexists _, _.
Qed.

(** Scenario 2: three source paths of which a and c resolve. *)
Lemma sync_playlist_members_witness :
  Orchestrator.missing_tracks
    (Orchestrator.sync_stats
       (Orchestrator.sync_playlist Posix.runtime Scenario.playlist_server
          Plex.no_faults [] Scenario.source "Road Trip")) = 1
  /\ exists success members,
       Orchestrator.created
         (Orchestrator.sync_playlist Posix.runtime Scenario.playlist_server
            Plex.no_faults [] Scenario.source "Road Trip")
       = Some (success, members)
       /\ length members = 2.
Proof.
  apply (sync_playlist_members Posix.runtime Scenario.playlist_server
           Plex.no_faults [] Scenario.source "Road Trip");
    reflexivity.
Defined.

Lemma sync_playlist_scenario_2 :
  Orchestrator.sync_playlist Posix.runtime Scenario.playlist_server
    Plex.no_faults [] Scenario.source "Road Trip"
  = {| Orchestrator.sync_stats :=
         {| Orchestrator.sync_total_tracks := 3;
            Orchestrator.sync_matched_tracks := 2;
            Orchestrator.missing_tracks := 1 |};
       Orchestrator.plex_playlists :=
         [("Road Trip", [Scenario.track_a; Scenario.track_c])];
       Orchestrator.created :=
         Some (true, [Scenario.track_a; Scenario.track_c]);
       Orchestrator.warnings :=
         [Orchestrator.CouldNotFind 1; Orchestrator.MissingFile "b.mp3"] |}.
Proof. reflexivity. Qed.

(** C7 as stated fails when nothing resolves: the playlist of that name is
    neither created nor replaced by the empty member list; the earlier one
    stays with its member. *)
Lemma sync_playlist_keeps_playlist_when_nothing_resolves :
  Orchestrator.resolved Posix.runtime Scenario.empty_server
    (AppleMusic.playlist_tracks Scenario.source "Road Trip") = []
  /\ Orchestrator.created
       (Orchestrator.sync_playlist Posix.runtime Scenario.empty_server
          Plex.no_faults [("Road Trip", [Scenario.track_a])] Scenario.source
          "Road Trip") = None
  /\ Orchestrator.plex_playlists
       (Orchestrator.sync_playlist Posix.runtime Scenario.empty_server
          Plex.no_faults [("Road Trip", [Scenario.track_a])] Scenario.source
          "Road Trip")
     = [("Road Trip", [Scenario.track_a])].
Proof. repeat split. Qed.

(** ** Change log *)

Section CleanLoggerFacts.
Import CleanLogger.
Context (rt : Runtime).

Lemma record_change_open (self : t) (rating_key field_ : string)
    (old new : pystr) :
  conn_open self = true ->
  record_change rt self rating_key field_ old new
  = {| conn_open := true;
       cleaned :=
         cleaned self
         ++ [entry rt (S (length (cleaned self))) rating_key field_ old new] |}.
Proof. intros H. unfold record_change. by rewrite H. Qed.

Lemma record_change_closed (self : t) (rating_key field_ : string)
    (old new : pystr) :
  conn_open self = false ->
  record_change rt self rating_key field_ old new = self.
Proof. intros H. unfold record_change. by rewrite H. Qed.

Lemma record_change_conn (self : t) (rating_key field_ : string)
    (old new : pystr) :
  conn_open (record_change rt self rating_key field_ old new)
  = conn_open self.
Proof.
  destruct (conn_open self) eqn:H.
  - by rewrite record_change_open.
  - by rewrite record_change_closed.
Qed.

Lemma count_where_app (rows rows' : list Row) (rating_key field_ : string) :
  count_where (rows ++ rows') rating_key field_
  = count_where rows rating_key field_ + count_where rows' rating_key field_.
Proof. unfold count_where. by rewrite filter_app, length_app. Qed.

Lemma count_where_entries (rating_key field_ : string) (old new : pystr)
    (ids : list nat) :
  count_where
    ((fun id => entry rt id rating_key field_ old new) <$> ids)
    rating_key field_
  = length ids.
Proof.
  unfold count_where. induction ids as [|id ids IH]; [done|].
  csimpl. rewrite filter_cons_True by done. simpl. by rewrite IH.
Qed.

(** [n] calls with the same arguments add [n] rows, numbered on from the
    rows already there. *)
Lemma record_change_iter (self : t) (rating_key field_ : string)
    (old new : pystr) (n : nat) :
  conn_open self = true ->
  Nat.iter n (fun log => record_change rt log rating_key field_ old new) self
  = {| conn_open := true;
       cleaned :=
         cleaned self
         ++ ((fun id => entry rt id rating_key field_ old new)
               <$> seq (S (length (cleaned self))) n) |}.
Proof.
  intros Hopen. induction n as [|n IH].
  - simpl. rewrite app_nil_r. destruct self. simpl in *. by subst.
  - rewrite Nat.iter_succ, IH. rewrite record_change_open by done.
    cbn [cleaned]. rewrite seq_S, fmap_app, app_assoc.
    do 3 f_equal. rewrite length_app, length_fmap, length_seq. csimpl.
    do 2 f_equal.
Qed.

End CleanLoggerFacts.

(** C3.  On an open change log, for every identity, field, old value and
    new value ([None] included): after [record_change] the field counts as
    cleaned for that identity; and [n] calls with the same arguments leave
    the earlier rows as they were and add exactly [n] rows, each holding
    those arguments under a key of its own. *)
Theorem record_change_then_cleaned (rt : Runtime) (self : CleanLogger.t)
    (rating_key field : string) (old new : pystr) :
  CleanLogger.conn_open self = true ->
  CleanLogger.is_track_cleaned
    (CleanLogger.record_change rt self rating_key field old new)
    rating_key field = true
  /\ forall n,
       CleanLogger.cleaned
         (Nat.iter n
            (fun log =>
               CleanLogger.record_change rt log rating_key field old new)
            self)
       = CleanLogger.cleaned self
         ++ ((fun id => CleanLogger.entry rt id rating_key field old new)
               <$> seq (S (length (CleanLogger.cleaned self))) n)
       /\ CleanLogger.count_where
            (CleanLogger.cleaned
               (Nat.iter n
                  (fun log =>
                     CleanLogger.record_change rt log rating_key field old new)
                  self))
            rating_key field
          = CleanLogger.count_where (CleanLogger.cleaned self) rating_key field
            + n.
Proof.
  intros Hopen. split.
  - rewrite record_change_open by done.
    unfold CleanLogger.is_track_cleaned, try_except.
    cbn [CleanLogger.conn_open CleanLogger.cleaned].
    rewrite count_where_app.
    pose proof (count_where_entries rt rating_key field old new
                  [S (length (CleanLogger.cleaned self))]) as Hone.
    csimpl in Hone. rewrite Hone.
    apply Nat.ltb_lt. lia.
  - intros n. rewrite record_change_iter by done.
    cbn [CleanLogger.cleaned]. split; [done|].
    by rewrite count_where_app, count_where_entries, length_seq.
Qed.

Lemma record_change_then_cleaned_witness :
  CleanLogger.is_track_cleaned
    (CleanLogger.record_change Posix.runtime CleanLogger.fresh
       "101" "title" None (Some "X"))
    "101" "title" = true
  /\ forall n,
       CleanLogger.cleaned
         (Nat.iter n
            (fun log =>
               CleanLogger.record_change Posix.runtime log
                 "101" "title" None (Some "X"))
            CleanLogger.fresh)
       = CleanLogger.cleaned CleanLogger.fresh
         ++ ((fun id =>
                CleanLogger.entry Posix.runtime id "101" "title" None (Some "X"))
               <$> seq (S (length (CleanLogger.cleaned CleanLogger.fresh))) n)
       /\ CleanLogger.count_where
            (CleanLogger.cleaned
               (Nat.iter n
                  (fun log =>
                     CleanLogger.record_change Posix.runtime log
                       "101" "title" None (Some "X"))
                  CleanLogger.fresh))
            "101" "title"
          = CleanLogger.count_where (CleanLogger.cleaned CleanLogger.fresh)
              "101" "title"
            + n.
Proof.
  apply (record_change_then_cleaned Posix.runtime CleanLogger.fresh
           "101" "title" None (Some "X")).
  reflexivity.
Defined.

(** ** Clean runs *)

Section RunFacts.
Import Orchestrator.
Context (rt : Runtime).

Lemma py_ne_false (a b : pystr) : py_ne a b = false <-> a = b.
Proof.
  unfold py_ne. rewrite negb_false_iff. apply bool_decide_eq_true.
Qed.

Lemma py_ne_true (a b : pystr) : py_ne a b = true <-> a <> b.
Proof.
  unfold py_ne. rewrite negb_true_iff. apply bool_decide_eq_false.
Qed.

(** A key that passes the test [key in cleaned_tracks] is a string of
    the set; an integer never passes. *)
Lemma key_in_text (key : Plex.RatingKey) (cleaned_tracks : gset string) :
  key ∈ cleaned_tracks -> Plex.key_text key ∈ cleaned_tracks.
Proof. by destruct key. Qed.

Lemma key_in_str (s : string) (cleaned_tracks : gset string) :
  Plex.StrKey s ∈ cleaned_tracks <-> s ∈ cleaned_tracks.
Proof. done. Qed.

Lemma key_in_int (n : Z) (cleaned_tracks : gset string) :
  Plex.IntKey n ∉ cleaned_tracks.
Proof. by intros []. Qed.

Lemma continues_refl (keys : Plex.RatingKey -> Prop) (run : Run) :
  continues keys run run.
Proof.
  split_and!; [exists [] | exists [] | done];
    by rewrite app_nil_r.
Qed.

Lemma continues_trans (keys : Plex.RatingKey -> Prop) (run1 run2 run3 : Run) :
  continues keys run1 run2 -> continues keys run2 run3 ->
  continues keys run1 run3.
Proof.
  intros ((rows & Hrows & Hkeys) & (calls & Hcalls & Htargets) & Hconn)
         ((rows' & Hrows' & Hkeys') & (calls' & Hcalls' & Htargets') & Hconn').
  split_and!.
  - exists (rows ++ rows'). rewrite Hrows', Hrows, app_assoc.
    split; [done | by apply Forall_app].
  - exists (calls ++ calls'). rewrite Hcalls', Hcalls, app_assoc.
    split; [done | by apply Forall_app].
  - by rewrite Hconn'.
Qed.

Lemma count_continues (keys : Plex.RatingKey -> Prop) (key : string) (run : Run) :
  continues keys run (count key run).
Proof.
  unfold continues, count. cbn [clean_logger edits].
  split_and!; [exists [] | exists [] | done]; by rewrite app_nil_r.
Qed.

Lemma log_change_continues (keys : Plex.RatingKey -> Prop) (run : Run)
    (rating_key : Plex.RatingKey) (field_ : string) (old new : pystr) :
  keys rating_key ->
  continues keys run (log_change rt run rating_key field_ old new).
Proof.
  intros Hkey. unfold continues, log_change. cbn [clean_logger edits].
  rewrite record_change_conn. split_and!; [|exists []; by rewrite app_nil_r|done].
  destruct (CleanLogger.conn_open (clean_logger run)) eqn:Hopen.
  - rewrite record_change_open by done. eexists. split; [done|].
    constructor; [by exists rating_key | constructor].
  - rewrite record_change_closed by done. exists []. by rewrite app_nil_r.
Qed.

Lemma update_track_metadata_targets (server : Plex.Server)
    (track : Plex.Track) (title_ artist album : pystr) :
  Forall (fun call => Plex.target call = Plex.ratingKey track)
    (Plex.update_track_metadata server track title_ artist album).2.
Proof.
  unfold Plex.update_track_metadata.
  match goal with |- context [match ?fields with [] => _ | _ => _ end] =>
    destruct fields end; by repeat constructor.
Qed.

Lemma update_track_metadata_requests (server server' : Plex.Server)
    (track : Plex.Track) (title_ artist album : pystr) :
  request <$> (Plex.update_track_metadata server track title_ artist album).2
  = request
      <$> (Plex.update_track_metadata server' track title_ artist album).2.
Proof.
  unfold Plex.update_track_metadata.
  match goal with |- context [match ?fields with [] => _ | _ => _ end] =>
    destruct fields end; done.
Qed.

(** A write the server rejects is reported as [False], not raised. *)
Lemma update_track_metadata_rejected (server : Plex.Server)
    (track : Plex.Track) (title_ artist album : pystr) :
  (forall fields, Plex.edit server track fields = false) ->
  (Plex.update_track_metadata server track title_ artist album).1 = false.
Proof.
  intros Hreject. unfold Plex.update_track_metadata.
  match goal with |- context [match ?fields with [] => _ | _ => _ end] =>
    destruct fields end; [done|]. apply Hreject.
Qed.

End RunFacts.

(** The eight outcomes of the three comparisons. *)
Ltac cases track apple_track :=
  unfold Orchestrator.compare_and_update;
  destruct (py_ne (Plex.title track) (AppleMusic.title apple_track));
  destruct (py_ne (Orchestrator.track_artist track)
              (AppleMusic.artist apple_track));
  destruct (py_ne (Plex.parentTitle track) (AppleMusic.album apple_track));
  cbv beta iota zeta.

Section CompareFacts.
Import Orchestrator.
Context (rt : Runtime).

(** The last step of [compare_and_update]: the write and its count. *)
Lemma write_continues (keys : Plex.RatingKey -> Prop) (server : Plex.Server)
    (run : Run) (track : Plex.Track) (title_ artist album : pystr) :
  keys (Plex.ratingKey track) ->
  continues keys run
    (let '(_, calls) :=
       Plex.update_track_metadata server track title_ artist album in
     count "updated_tracks"
       {| stats := stats run; clean_logger := clean_logger run;
          edits := edits run ++ calls |}).
Proof.
  intros Hkey.
  pose proof (update_track_metadata_targets server track title_ artist album)
    as Htargets.
  destruct (Plex.update_track_metadata _ _ _ _ _) as [ok calls].
  unfold continues, count. cbn [clean_logger edits].
  split_and!; [exists []; by rewrite app_nil_r | | done].
  exists calls. split; [done|].
  eapply Forall_impl; [exact Htargets|]. by intros call ->.
Qed.

Ltac chain :=
  repeat first
    [ apply continues_refl
    | eapply continues_trans; [|by apply write_continues]
    | eapply continues_trans; [|apply count_continues]
    | eapply continues_trans; [|by apply log_change_continues] ].

Lemma compare_and_update_continues (keys : Plex.RatingKey -> Prop)
    (server : Plex.Server) (run : Run) (track : Plex.Track)
    (apple_track : AppleMusic.Metadata) :
  keys (Plex.ratingKey track) ->
  continues keys run (compare_and_update rt server run track apple_track).
Proof. intros Hkey. cases track apple_track; chain. Qed.

Lemma compare_and_update_skipped (server : Plex.Server) (run : Run)
    (track : Plex.Track) (apple_track : AppleMusic.Metadata) :
  skipped_tracks (stats (compare_and_update rt server run track apple_track))
  = skipped_tracks (stats run).
Proof.
  cases track apple_track;
    try destruct (Plex.update_track_metadata _ _ _ _ _) as [ok calls];
    reflexivity.
Qed.

Lemma compare_and_update_answers (server server' : Plex.Server)
    (run run' : Run) (track : Plex.Track)
    (apple_track : AppleMusic.Metadata) :
  same_but_answers run run' ->
  same_but_answers
    (compare_and_update rt server run track apple_track)
    (compare_and_update rt server' run' track apple_track).
Proof.
  destruct run as [stats_ logger_ edits_], run' as [stats_' logger_' edits_'].
  intros (Hstats & Hlogger & Hedits). simpl in Hstats, Hlogger, Hedits.
  subst stats_' logger_'.
  pose proof (update_track_metadata_requests server server' track
                (AppleMusic.title apple_track) (AppleMusic.artist apple_track)
                (AppleMusic.album apple_track)) as Hreq.
  cases track apple_track;
    try (destruct (Plex.update_track_metadata server _ _ _ _) as [ok calls],
                  (Plex.update_track_metadata server' _ _ _ _)
                    as [ok' calls']);
    unfold same_but_answers; cbn; rewrite ?fmap_app.
  all: split_and!; try done.
  all: simpl in Hreq; by rewrite Hedits, Hreq.
Qed.

End CompareFacts.

Section DifferFacts.
Import Orchestrator.
Context (rt : Runtime) (server : Plex.Server).

(** On an open change log [compare_and_update] adds the rows of the
    differ, and nothing else. *)
Lemma compare_and_update_rows (run : Run) (track : Plex.Track)
    (apple_track : AppleMusic.Metadata) :
  CleanLogger.conn_open (clean_logger run) = true ->
  CleanLogger.cleaned
    (clean_logger (compare_and_update rt server run track apple_track))
  = CleanLogger.cleaned (clean_logger run)
    ++ change_entries rt (length (CleanLogger.cleaned (clean_logger run)))
         track apple_track.
Proof.
  intros Hopen. unfold change_entries. cases track apple_track;
    try destruct (Plex.update_track_metadata _ _ _ _ _) as [ok calls];
    unfold count, log_change; cbn [clean_logger stats edits];
    repeat (rewrite record_change_open
              by (rewrite ?record_change_conn; exact Hopen);
            cbn [CleanLogger.cleaned]);
    rewrite <- ?app_assoc, ?app_nil_r, ?length_app; cbn [length app];
    rewrite ?Nat.add_0_r, ?Nat.add_1_r; try reflexivity.
  all: repeat f_equal; lia.
Qed.

End DifferFacts.

Section CounterFacts.
Import Orchestrator.
Context (rt : Runtime).

Lemma incr_title (s : Stats) :
  incr "title_updates" s
  = {| total_tracks := total_tracks s; matched_tracks := matched_tracks s;
       updated_tracks := updated_tracks s;
       title_updates := S (title_updates s);
       artist_updates := artist_updates s; album_updates := album_updates s;
       skipped_tracks := skipped_tracks s |}.
Proof. reflexivity. Qed.

Lemma incr_artist (s : Stats) :
  incr "artist_updates" s
  = {| total_tracks := total_tracks s; matched_tracks := matched_tracks s;
       updated_tracks := updated_tracks s; title_updates := title_updates s;
       artist_updates := S (artist_updates s);
       album_updates := album_updates s;
       skipped_tracks := skipped_tracks s |}.
Proof. reflexivity. Qed.

Lemma incr_album (s : Stats) :
  incr "album_updates" s
  = {| total_tracks := total_tracks s; matched_tracks := matched_tracks s;
       updated_tracks := updated_tracks s; title_updates := title_updates s;
       artist_updates := artist_updates s;
       album_updates := S (album_updates s);
       skipped_tracks := skipped_tracks s |}.
Proof. reflexivity. Qed.

Lemma incr_updated (s : Stats) :
  incr "updated_tracks" s
  = {| total_tracks := total_tracks s; matched_tracks := matched_tracks s;
       updated_tracks := S (updated_tracks s);
       title_updates := title_updates s; artist_updates := artist_updates s;
       album_updates := album_updates s;
       skipped_tracks := skipped_tracks s |}.
Proof. reflexivity. Qed.

Lemma incr_matched (s : Stats) :
  incr "matched_tracks" s
  = {| total_tracks := total_tracks s;
       matched_tracks := S (matched_tracks s);
       updated_tracks := updated_tracks s;
       title_updates := title_updates s; artist_updates := artist_updates s;
       album_updates := album_updates s;
       skipped_tracks := skipped_tracks s |}.
Proof. reflexivity. Qed.

Lemma incr_skipped (s : Stats) :
  incr "skipped_tracks" s
  = {| total_tracks := total_tracks s; matched_tracks := matched_tracks s;
       updated_tracks := updated_tracks s;
       title_updates := title_updates s; artist_updates := artist_updates s;
       album_updates := album_updates s;
       skipped_tracks := S (skipped_tracks s) |}.
Proof. reflexivity. Qed.

Lemma compare_and_update_stats (server : Plex.Server) (run : Run)
    (track : Plex.Track) (apple_track : AppleMusic.Metadata) :
  stats (compare_and_update rt server run track apple_track)
  = {| total_tracks := total_tracks (stats run);
       matched_tracks := matched_tracks (stats run);
       updated_tracks :=
         updated_tracks (stats run)
         + Nat.min 1
             (differs (Plex.title track) (AppleMusic.title apple_track)
              + differs (track_artist track) (AppleMusic.artist apple_track)
              + differs (Plex.parentTitle track)
                  (AppleMusic.album apple_track));
       title_updates :=
         title_updates (stats run)
         + differs (Plex.title track) (AppleMusic.title apple_track);
       artist_updates :=
         artist_updates (stats run)
         + differs (track_artist track) (AppleMusic.artist apple_track);
       album_updates :=
         album_updates (stats run)
         + differs (Plex.parentTitle track) (AppleMusic.album apple_track);
       skipped_tracks := skipped_tracks (stats run) |}.
Proof.
  destruct run as [[total matched updated titles artists albums skipped]
                     logger calls].
  unfold differs. cases track apple_track;
    try destruct (Plex.update_track_metadata _ _ _ _ _) as [ok sent];
    unfold count, log_change; cbn [stats clean_logger edits];
    rewrite ?incr_updated, ?incr_album, ?incr_artist, ?incr_title;
    cbn [total_tracks matched_tracks updated_tracks title_updates
         artist_updates album_updates skipped_tracks];
    f_equal; cbn [Nat.add Nat.min]; lia.
Qed.

Lemma update_track_metadata_at_most_one (server : Plex.Server)
    (track : Plex.Track) (title_ artist album : pystr) :
  length (Plex.update_track_metadata server track title_ artist album).2 <= 1.
Proof.
  unfold Plex.update_track_metadata.
  match goal with |- context [match ?fields with [] => _ | _ => _ end] =>
    destruct fields end; simpl; lia.
Qed.

Lemma compare_and_update_edits (server : Plex.Server) (run : Run)
    (track : Plex.Track) (apple_track : AppleMusic.Metadata) :
  length (edits (compare_and_update rt server run track apple_track))
  <= length (edits run)
     + Nat.min 1
         (differs (Plex.title track) (AppleMusic.title apple_track)
          + differs (track_artist track) (AppleMusic.artist apple_track)
          + differs (Plex.parentTitle track) (AppleMusic.album apple_track)).
Proof.
  pose proof (update_track_metadata_at_most_one server track
                (AppleMusic.title apple_track) (AppleMusic.artist apple_track)
                (AppleMusic.album apple_track)) as Hone.
  unfold differs. cases track apple_track;
    try destruct (Plex.update_track_metadata _ _ _ _ _) as [ok sent];
    unfold count, log_change; cbn [edits stats clean_logger];
    rewrite ?length_app; simpl in *; lia.
Qed.

Lemma change_entries_by_field (n : nat) (track : Plex.Track)
    (apple_track : AppleMusic.Metadata) :
  length (filter (fun row => CleanLogger.field row = "title")
            (change_entries rt n track apple_track))
  = differs (Plex.title track) (AppleMusic.title apple_track)
  /\ length (filter (fun row => CleanLogger.field row = "artist")
               (change_entries rt n track apple_track))
     = differs (track_artist track) (AppleMusic.artist apple_track)
  /\ length (filter (fun row => CleanLogger.field row = "album")
               (change_entries rt n track apple_track))
     = differs (Plex.parentTitle track) (AppleMusic.album apple_track)
  /\ length (change_entries rt n track apple_track)
     = differs (Plex.title track) (AppleMusic.title apple_track)
       + differs (track_artist track) (AppleMusic.artist apple_track)
       + differs (Plex.parentTitle track) (AppleMusic.album apple_track)
  /\ Forall (fun row =>
               CleanLogger.plex_rating_key row = Plex.key_text (Plex.ratingKey track)
               /\ CleanLogger.field row ∈ ["title"; "artist"; "album"])
       (change_entries rt n track apple_track).
Proof.
  unfold change_entries, differs.
  destruct (py_ne (Plex.title track) (AppleMusic.title apple_track)),
           (py_ne (track_artist track) (AppleMusic.artist apple_track)),
           (py_ne (Plex.parentTitle track) (AppleMusic.album apple_track));
    cbn; split_and!; try done; repeat constructor; set_solver.
Qed.

End CounterFacts.

(** ** Metadata Differ *)

(** C2.  For every matched pair on an open change log the rows added are
    those of the differ.  When title, artist and album are all equal, as
    values and with no folding of case or blanks, there is no Change Entry
    (and nothing else happens either); when exactly one of the three
    differs there is exactly one, for that field, with the managed value as
    its old value and the source value as its new one. *)
Theorem differ_entries (rt : Runtime) (server : Plex.Server)
    (run : Orchestrator.Run) (track : Plex.Track)
    (apple_track : AppleMusic.Metadata) :
  CleanLogger.conn_open (Orchestrator.clean_logger run) = true ->
  CleanLogger.cleaned
    (Orchestrator.clean_logger
       (Orchestrator.compare_and_update rt server run track apple_track))
  = CleanLogger.cleaned (Orchestrator.clean_logger run)
    ++ Orchestrator.change_entries rt
         (length (CleanLogger.cleaned (Orchestrator.clean_logger run)))
         track apple_track
  /\ (Plex.title track = AppleMusic.title apple_track ->
      Orchestrator.track_artist track = AppleMusic.artist apple_track ->
      Plex.parentTitle track = AppleMusic.album apple_track ->
      Orchestrator.compare_and_update rt server run track apple_track = run
      /\ forall n, Orchestrator.change_entries rt n track apple_track = [])
  /\ (Plex.title track <> AppleMusic.title apple_track ->
      Orchestrator.track_artist track = AppleMusic.artist apple_track ->
      Plex.parentTitle track = AppleMusic.album apple_track ->
      forall n,
        Orchestrator.change_entries rt n track apple_track
        = [CleanLogger.entry rt (S n)
             (Plex.key_text (Plex.ratingKey track)) "title"
             (Plex.title track) (AppleMusic.title apple_track)])
  /\ (Plex.title track = AppleMusic.title apple_track ->
      Orchestrator.track_artist track <> AppleMusic.artist apple_track ->
      Plex.parentTitle track = AppleMusic.album apple_track ->
      forall n,
        Orchestrator.change_entries rt n track apple_track
        = [CleanLogger.entry rt (S n)
             (Plex.key_text (Plex.ratingKey track)) "artist"
             (Orchestrator.track_artist track)
             (AppleMusic.artist apple_track)])
  /\ (Plex.title track = AppleMusic.title apple_track ->
      Orchestrator.track_artist track = AppleMusic.artist apple_track ->
      Plex.parentTitle track <> AppleMusic.album apple_track ->
      forall n,
        Orchestrator.change_entries rt n track apple_track
        = [CleanLogger.entry rt (S n)
             (Plex.key_text (Plex.ratingKey track)) "album"
             (Plex.parentTitle track) (AppleMusic.album apple_track)]).
Proof.
  intros Hopen. split; [by apply compare_and_update_rows|].
  unfold Orchestrator.change_entries, Orchestrator.compare_and_update.
  split_and!; intros Htitle Hartist Halbum.
  - apply py_ne_false in Htitle, Hartist, Halbum.
    by rewrite Htitle, Hartist, Halbum.
  - apply py_ne_true in Htitle. apply py_ne_false in Hartist, Halbum.
    by rewrite Htitle, Hartist, Halbum.
  - apply py_ne_true in Hartist. apply py_ne_false in Htitle, Halbum.
    intros n. rewrite Htitle, Hartist, Halbum. cbn. by rewrite Nat.add_0_r.
  - apply py_ne_true in Halbum. apply py_ne_false in Htitle, Hartist.
    intros n. rewrite Htitle, Hartist, Halbum. cbn. by rewrite !Nat.add_0_r.
Qed.

(** Scenario 1: only the title differs, so the run logs one title entry. *)
Lemma differ_entries_witness :
  CleanLogger.cleaned
    (Orchestrator.clean_logger
       (Orchestrator.compare_and_update Posix.runtime (Scenario.server true)
          {| Orchestrator.stats := Orchestrator.initial_stats 1;
             Orchestrator.clean_logger := CleanLogger.fresh;
             Orchestrator.edits := [] |}
          Scenario.track_a
          {| AppleMusic.title := Some "X"; AppleMusic.artist := Some "Y";
             AppleMusic.album := Some "Z" |}))
  = [CleanLogger.entry Posix.runtime 1 "101" "title" (Some "Old") (Some "X")].
Proof.
  destruct (differ_entries Posix.runtime (Scenario.server true)
              {| Orchestrator.stats := Orchestrator.initial_stats 1;
                 Orchestrator.clean_logger := CleanLogger.fresh;
                 Orchestrator.edits := [] |}
              Scenario.track_a
              {| AppleMusic.title := Some "X"; AppleMusic.artist := Some "Y";
                 AppleMusic.album := Some "Z" |} eq_refl)
    as (Hrows & _ & Htitle & _).
  rewrite Hrows. apply (Htitle ltac:(discriminate) eq_refl eq_refl 0).
Defined.

(** C8.  For every managed track the artist the differ compares with the
    source artist, and records as the old value, is the per-track override
    [originalTitle] when that is a non-empty string, and the album artist
    [grandparentTitle] otherwise: [compare_and_update] counts an artist
    update, and on an open log adds an artist row, exactly when that value
    differs from the source artist, and the row holds it as the old
    value; the full clean and the artist clean go through this same
    comparison. *)
Theorem current_artist_override_else_album_artist (rt : Runtime)
    (server : Plex.Server) (run : Orchestrator.Run) (track : Plex.Track)
    (apple_track : AppleMusic.Metadata) :
  (forall override,
      Plex.originalTitle track = Some override -> override <> "" ->
      Orchestrator.track_artist track = Some override)
  /\ (Plex.originalTitle track = None \/ Plex.originalTitle track = Some "" ->
      Orchestrator.track_artist track = Plex.grandparentTitle track)
  /\ Orchestrator.artist_updates
       (Orchestrator.stats
          (Orchestrator.compare_and_update rt server run track apple_track))
     = Orchestrator.artist_updates (Orchestrator.stats run)
       + (if bool_decide
               (Orchestrator.track_artist track
                = AppleMusic.artist apple_track)
          then 0 else 1)
  /\ (CleanLogger.conn_open (Orchestrator.clean_logger run) = true ->
      exists rows,
        CleanLogger.cleaned
          (Orchestrator.clean_logger
             (Orchestrator.compare_and_update rt server run track
                apple_track))
        = CleanLogger.cleaned (Orchestrator.clean_logger run) ++ rows
        /\ filter (fun row => CleanLogger.field row = "artist") rows
           = (if bool_decide
                   (Orchestrator.track_artist track
                    = AppleMusic.artist apple_track)
              then []
              else [CleanLogger.entry rt
                      (S (length
                            (CleanLogger.cleaned
                               (Orchestrator.clean_logger run))
                          + length
                              (filter
                                 (fun row => CleanLogger.field row = "title")
                                 rows)))
                      (Plex.key_text (Plex.ratingKey track)) "artist"
                      (Orchestrator.track_artist track)
                      (AppleMusic.artist apple_track)]))
  /\ (forall apple_tracks cleaned_tracks medias file_path,
        Plex.ratingKey track ∉ cleaned_tracks ->
        Plex.media track = Return medias ->
        Orchestrator.first_file medias None = Some file_path ->
        file_path <> "" ->
        Orchestrator.match_track rt apple_tracks file_path
        = Some apple_track ->
        Orchestrator.clean_track rt server apple_tracks cleaned_tracks
          run track
        = Orchestrator.compare_and_update rt server
            (Orchestrator.count "matched_tracks" run) track apple_track)
  /\ (forall apple clean_logger artist_name,
        Orchestrator.clean_all_tracks rt server apple clean_logger
        = Orchestrator.clean_tracks rt server (Plex.get_all_tracks server)
            (AppleMusic.all_tracks apple) clean_logger
        /\ forall apple_tracks,
             AppleMusic.tracks_by_artist apple artist_name
             = Return apple_tracks ->
             Orchestrator.clean_artist_tracks rt server apple clean_logger
               artist_name
             = Return
                 (Orchestrator.clean_tracks rt server
                    (Plex.get_tracks_by_artist server artist_name)
                    apple_tracks clean_logger)).
Proof.
  split_and!.
  - intros override Hover Hne. unfold Orchestrator.track_artist, py_or.
    rewrite Hover. by destruct override.
  - unfold Orchestrator.track_artist, py_or. by intros [-> | ->].
  - rewrite compare_and_update_stats.
    cbn [Orchestrator.artist_updates]. unfold Orchestrator.differs, py_ne.
    by destruct (bool_decide (Orchestrator.track_artist track
                              = AppleMusic.artist apple_track)).
  - intros Hopen.
    exists (Orchestrator.change_entries rt
              (length (CleanLogger.cleaned (Orchestrator.clean_logger run)))
              track apple_track).
    split; [by apply compare_and_update_rows|].
    unfold Orchestrator.change_entries, py_ne.
    destruct (bool_decide (Plex.title track = AppleMusic.title apple_track)),
             (bool_decide (Orchestrator.track_artist track
                           = AppleMusic.artist apple_track)),
             (bool_decide (Plex.parentTitle track
                           = AppleMusic.album apple_track));
      cbn; rewrite ?Nat.add_0_r; reflexivity.
  - intros apple_tracks cleaned_tracks medias file_path
      Hkey Hmedia Hfile Hne Hmatch.
    unfold Orchestrator.clean_track.
    rewrite bool_decide_eq_false_2 by done.
    rewrite Hmedia, Hfile, Hmatch. by destruct file_path.
  - intros apple clean_logger artist_name. split; [done|].
    intros apple_tracks Hsource. unfold Orchestrator.clean_artist_tracks.
    by rewrite Hsource.
Qed.

(** An override that is the empty string counts as absent: the album
    artist is the current artist, and since it is the source artist no
    artist row is added, though the override differs from it. *)
Lemma current_artist_override_else_album_artist_witness :
  exists rows,
    CleanLogger.cleaned
      (Orchestrator.clean_logger
         (Orchestrator.compare_and_update Posix.runtime (Scenario.server true)
            {| Orchestrator.stats := Orchestrator.initial_stats 1;
               Orchestrator.clean_logger := CleanLogger.fresh;
               Orchestrator.edits := [] |}
            {| Plex.ratingKey := Plex.IntKey 7; Plex.title := Some "T";
               Plex.originalTitle := Some "";
               Plex.grandparentTitle := Some "Band";
               Plex.parentTitle := Some "LP"; Plex.media := Return [] |}
            {| AppleMusic.title := Some "T"; AppleMusic.artist := Some "Band";
               AppleMusic.album := Some "Other" |}))
    = CleanLogger.cleaned CleanLogger.fresh ++ rows
    /\ filter (fun row => CleanLogger.field row = "artist") rows = [].
Proof.
  destruct (current_artist_override_else_album_artist Posix.runtime
              (Scenario.server true)
              {| Orchestrator.stats := Orchestrator.initial_stats 1;
                 Orchestrator.clean_logger := CleanLogger.fresh;
                 Orchestrator.edits := [] |}
              {| Plex.ratingKey := Plex.IntKey 7; Plex.title := Some "T";
                 Plex.originalTitle := Some "";
                 Plex.grandparentTitle := Some "Band";
                 Plex.parentTitle := Some "LP"; Plex.media := Return [] |}
              {| AppleMusic.title := Some "T"; AppleMusic.artist := Some "Band";
                 AppleMusic.album := Some "Other" |})
    as (_ & _ & _ & Hrows & _).
  destruct (Hrows eq_refl) as (rows & Hlog & Hartist).
  exists rows. split; [exact Hlog | exact Hartist].
Defined.

(** ** The loop over the managed tracks *)

Section LoopFacts.
Import Orchestrator.
Context (rt : Runtime) (apple_tracks : dict AppleMusic.Metadata)
        (cleaned_tracks : gset string).

Lemma clean_track_continues (server : Plex.Server) (run : Run)
    (track : Plex.Track) :
  continues (fun key => key ∉ cleaned_tracks) run
    (clean_track rt server apple_tracks cleaned_tracks run track).
Proof.
  unfold clean_track.
  destruct (bool_decide (Plex.ratingKey track ∈ cleaned_tracks)) eqn:Hkey.
  { apply count_continues. }
  apply bool_decide_eq_false_1 in Hkey.
  destruct (Plex.media track) as [medias|]; [|apply continues_refl].
  destruct (first_file medias None) as [[|c file_path]|];
    try apply continues_refl.
  destruct (match_track rt apple_tracks _) as [apple_track|];
    [|apply continues_refl].
  eapply continues_trans; [apply count_continues|].
  by apply compare_and_update_continues.
Qed.

Lemma clean_track_skipped (server : Plex.Server) (run : Run)
    (track : Plex.Track) :
  skipped_tracks
    (stats (clean_track rt server apple_tracks cleaned_tracks run track))
  = skipped_tracks (stats run)
    + (if bool_decide (Plex.ratingKey track ∈ cleaned_tracks) then 1 else 0).
Proof.
  unfold clean_track.
  destruct (bool_decide (Plex.ratingKey track ∈ cleaned_tracks)).
  { simpl. lia. }
  rewrite Nat.add_0_r.
  destruct (Plex.media track) as [medias|]; [|done].
  destruct (first_file medias None) as [[|c file_path]|]; try done.
  destruct (match_track rt apple_tracks _) as [apple_track|]; [|done].
  by rewrite compare_and_update_skipped.
Qed.

Lemma clean_track_answers (server server' : Plex.Server) (run run' : Run)
    (track : Plex.Track) :
  same_but_answers run run' ->
  same_but_answers
    (clean_track rt server apple_tracks cleaned_tracks run track)
    (clean_track rt server' apple_tracks cleaned_tracks run' track).
Proof.
  intros Hsame. unfold clean_track.
  assert (forall key, same_but_answers (count key run) (count key run'))
    as Hcount.
  { intros key. destruct Hsame as (Hstats & Hlogger & Hedits).
    unfold same_but_answers, count. cbn. by rewrite Hstats. }
  destruct (bool_decide (Plex.ratingKey track ∈ cleaned_tracks)); [done|].
  destruct (Plex.media track) as [medias|]; [|done].
  destruct (first_file medias None) as [[|c file_path]|]; try done.
  destruct (match_track rt apple_tracks _) as [apple_track|]; [|done].
  by apply compare_and_update_answers.
Qed.

Lemma clean_loop_continues (server : Plex.Server)
    (plex_tracks : list Plex.Track) (run : Run) :
  continues (fun key => key ∉ cleaned_tracks) run
    (fold_left (clean_track rt server apple_tracks cleaned_tracks)
       plex_tracks run).
Proof.
  revert run. induction plex_tracks as [|track plex_tracks IH]; intros run.
  - apply continues_refl.
  - simpl. eapply continues_trans; [apply clean_track_continues | apply IH].
Qed.

Lemma clean_loop_skipped (server : Plex.Server)
    (plex_tracks : list Plex.Track) (run : Run) :
  skipped_tracks
    (stats (fold_left (clean_track rt server apple_tracks cleaned_tracks)
              plex_tracks run))
  = skipped_tracks (stats run)
    + length (filter (fun track => Plex.ratingKey track ∈ cleaned_tracks)
                plex_tracks).
Proof.
  revert run. induction plex_tracks as [|track plex_tracks IH]; intros run.
  - simpl. lia.
  - simpl. rewrite IH, clean_track_skipped, filter_cons.
    destruct (decide (Plex.ratingKey track ∈ cleaned_tracks)) as [Hin|Hout].
    + rewrite bool_decide_eq_true_2 by done. simpl. lia.
    + rewrite bool_decide_eq_false_2 by done. lia.
Qed.

Lemma clean_loop_answers (server server' : Plex.Server)
    (plex_tracks : list Plex.Track) (run run' : Run) :
  same_but_answers run run' ->
  same_but_answers
    (fold_left (clean_track rt server apple_tracks cleaned_tracks)
       plex_tracks run)
    (fold_left (clean_track rt server' apple_tracks cleaned_tracks)
       plex_tracks run').
Proof.
  revert run run'.
  induction plex_tracks as [|track plex_tracks IH]; intros run run' Hsame;
    [done|].
  simpl. apply IH. by apply clean_track_answers.
Qed.

End LoopFacts.

Section CleanRunFacts.
Import Orchestrator.
Context (rt : Runtime) (server : Plex.Server)
        (plex_tracks : list Plex.Track)
        (apple_tracks : dict AppleMusic.Metadata)
        (clean_logger : CleanLogger.t).

Lemma clean_tracks_skipped :
  skipped_tracks
    (stats (clean_tracks rt server plex_tracks apple_tracks clean_logger))
  = length
      (filter (fun track =>
                 Plex.ratingKey track
                 ∈ CleanLogger.get_cleaned_tracks clean_logger)
         plex_tracks).
Proof. unfold clean_tracks. by rewrite clean_loop_skipped. Qed.

Lemma clean_tracks_rows :
  exists rows,
    CleanLogger.cleaned
      (Orchestrator.clean_logger
         (clean_tracks rt server plex_tracks apple_tracks clean_logger))
    = CleanLogger.cleaned clean_logger ++ rows
    /\ Forall (fun row =>
                 exists key : Plex.RatingKey,
                   key ∉ CleanLogger.get_cleaned_tracks clean_logger
                   /\ CleanLogger.plex_rating_key row = Plex.key_text key)
         rows.
Proof.
  unfold clean_tracks.
  match goal with |- context [fold_left ?f ?l ?run] =>
    destruct (clean_loop_continues rt apple_tracks
                (CleanLogger.get_cleaned_tracks clean_logger)
                server l run) as (Hrows & _ & _) end.
  exact Hrows.
Qed.

Lemma clean_tracks_edits :
  Forall (fun call =>
            Plex.target call ∉ CleanLogger.get_cleaned_tracks clean_logger)
    (edits (clean_tracks rt server plex_tracks apple_tracks clean_logger)).
Proof.
  unfold clean_tracks.
  match goal with |- context [fold_left ?f ?l ?run] =>
    destruct (clean_loop_continues rt apple_tracks
                (CleanLogger.get_cleaned_tracks clean_logger)
                server l run) as (_ & (calls & Hcalls & Htargets) & _) end.
  by rewrite Hcalls.
Qed.

End CleanRunFacts.

(** ** Full clean *)

(** C4.  The skip of cleaned tracks misses the tracks whose key is an
    integer.  The full clean of scenario 1 on the track with the key 101
    logs the title change under the text ["101"], which
    [get_cleaned_tracks()] then holds; run again on the same inputs and
    on that log, the full clean does not skip the track: it gives
    [skipped_tracks = 0] and [updated_tracks = 1], logs the change a
    second time and sends the write again. *)
Theorem integer_key_is_not_skipped :
  Orchestrator.clean_all_tracks Posix.runtime Scenario.integer_server
    Scenario.source CleanLogger.fresh
  = {| Orchestrator.stats :=
         {| Orchestrator.total_tracks := 1;
            Orchestrator.matched_tracks := 1;
            Orchestrator.updated_tracks := 1;
            Orchestrator.title_updates := 1;
            Orchestrator.artist_updates := 0;
            Orchestrator.album_updates := 0;
            Orchestrator.skipped_tracks := 0 |};
       Orchestrator.clean_logger :=
         {| CleanLogger.conn_open := true;
            CleanLogger.cleaned :=
              [CleanLogger.entry Posix.runtime 1 "101" "title"
                 (Some "Old") (Some "X")] |};
       Orchestrator.edits :=
         [{| Plex.target := Plex.IntKey 101;
             Plex.update_fields := [("title", "X"); ("originalTitle", "Y")];
             Plex.accepted := true |}] |}
  /\ "101"
     ∈ CleanLogger.get_cleaned_tracks
         (Orchestrator.clean_logger
            (Orchestrator.clean_all_tracks Posix.runtime
               Scenario.integer_server Scenario.source CleanLogger.fresh))
  /\ Orchestrator.clean_all_tracks Posix.runtime Scenario.integer_server
       Scenario.source
       (Orchestrator.clean_logger
          (Orchestrator.clean_all_tracks Posix.runtime
             Scenario.integer_server Scenario.source CleanLogger.fresh))
     = {| Orchestrator.stats :=
            {| Orchestrator.total_tracks := 1;
               Orchestrator.matched_tracks := 1;
               Orchestrator.updated_tracks := 1;
               Orchestrator.title_updates := 1;
               Orchestrator.artist_updates := 0;
               Orchestrator.album_updates := 0;
               Orchestrator.skipped_tracks := 0 |};
          Orchestrator.clean_logger :=
            {| CleanLogger.conn_open := true;
               CleanLogger.cleaned :=
                 [CleanLogger.entry Posix.runtime 1 "101" "title"
                    (Some "Old") (Some "X");
                  CleanLogger.entry Posix.runtime 2 "101" "title"
                    (Some "Old") (Some "X")] |};
          Orchestrator.edits :=
            [{| Plex.target := Plex.IntKey 101;
                Plex.update_fields :=
                  [("title", "X"); ("originalTitle", "Y")];
                Plex.accepted := true |}] |}.
Proof.
  split_and!.
  - by vm_compute.
  - apply (bool_decide_unpack _). by vm_compute.
  - by vm_compute.
Qed.

(** Scenario 1, and the state of the change log it leaves. *)
Lemma full_clean_scenario_1 :
  Orchestrator.clean_all_tracks Posix.runtime (Scenario.server true)
    Scenario.source CleanLogger.fresh
  = {| Orchestrator.stats :=
         {| Orchestrator.total_tracks := 1;
            Orchestrator.matched_tracks := 1;
            Orchestrator.updated_tracks := 1;
            Orchestrator.title_updates := 1;
            Orchestrator.artist_updates := 0;
            Orchestrator.album_updates := 0;
            Orchestrator.skipped_tracks := 0 |};
       Orchestrator.clean_logger :=
         {| CleanLogger.conn_open := true;
            CleanLogger.cleaned :=
              [CleanLogger.entry Posix.runtime 1 "101" "title"
                 (Some "Old") (Some "X")] |};
       Orchestrator.edits :=
         [{| Plex.target := Plex.StrKey "101";
             Plex.update_fields := [("title", "X"); ("originalTitle", "Y")];
             Plex.accepted := true |}] |}.
Proof. by vm_compute. Qed.

(** ** Rejected writes *)

(** C9, as amended.  For every track in a clean run whose metadata write
    the managed library rejects: the rejection is caught inside
    [update_track_metadata], which reports [False]; the run does not abort
    and goes on with the next record, and apart from the answers of the
    server everything the run does (its counters, its change log, the
    writes it asks for) is what it would be on a server that takes the
    writes.  The run keeps no count of rejected writes: [skipped_tracks]
    counts the tracks already cleaned, and no write is about one of
    those. *)
Theorem rejected_write_does_not_abort (rt : Runtime)
    (server server' : Plex.Server) (plex_tracks : list Plex.Track)
    (apple_tracks : dict AppleMusic.Metadata) (clean_logger : CleanLogger.t) :
  (forall track title artist album,
      (forall fields, Plex.edit server track fields = false) ->
      (Plex.update_track_metadata server track title artist album).1 = false)
  /\ Orchestrator.same_but_answers
       (Orchestrator.clean_tracks rt server plex_tracks apple_tracks
          clean_logger)
       (Orchestrator.clean_tracks rt server' plex_tracks apple_tracks
          clean_logger)
  /\ Orchestrator.skipped_tracks
       (Orchestrator.stats
          (Orchestrator.clean_tracks rt server plex_tracks apple_tracks
             clean_logger))
     = length
         (filter (fun track =>
                    Plex.ratingKey track
                    ∈ CleanLogger.get_cleaned_tracks clean_logger)
            plex_tracks)
  /\ Forall (fun call =>
               Plex.target call ∉ CleanLogger.get_cleaned_tracks clean_logger)
       (Orchestrator.edits
          (Orchestrator.clean_tracks rt server plex_tracks apple_tracks
             clean_logger))
  /\ (forall apple,
        Orchestrator.clean_all_tracks rt server apple clean_logger
        = Orchestrator.clean_tracks rt server (Plex.get_all_tracks server)
            (AppleMusic.all_tracks apple) clean_logger).
Proof.
  split_and!.
  - intros track title artist album. apply update_track_metadata_rejected.
  - unfold Orchestrator.clean_tracks. by apply clean_loop_answers.
  - apply clean_tracks_skipped.
  - apply clean_tracks_edits.
  - done.
Qed.

(** C9 as stated fails: on a server that rejects the write of scenario 1
    the track is not skipped but counted as updated, with its change
    logged. *)
Lemma rejected_write_is_counted_as_updated :
  Orchestrator.clean_all_tracks Posix.runtime (Scenario.server false)
    Scenario.source CleanLogger.fresh
  = {| Orchestrator.stats :=
         {| Orchestrator.total_tracks := 1;
            Orchestrator.matched_tracks := 1;
            Orchestrator.updated_tracks := 1;
            Orchestrator.title_updates := 1;
            Orchestrator.artist_updates := 0;
            Orchestrator.album_updates := 0;
            Orchestrator.skipped_tracks := 0 |};
       Orchestrator.clean_logger :=
         {| CleanLogger.conn_open := true;
            CleanLogger.cleaned :=
              [CleanLogger.entry Posix.runtime 1 "101" "title"
                 (Some "Old") (Some "X")] |};
       Orchestrator.edits :=
         [{| Plex.target := Plex.StrKey "101";
             Plex.update_fields := [("title", "X"); ("originalTitle", "Y")];
             Plex.accepted := false |}] |}.
Proof. by vm_compute. Qed.

Lemma rejected_write_does_not_abort_witness :
  (Plex.update_track_metadata (Scenario.server false) Scenario.track_a
     (Some "X") (Some "Y") (Some "Z")).1 = false.
Proof.
  apply (rejected_write_does_not_abort Posix.runtime (Scenario.server false)
           (Scenario.server true) [Scenario.track_a] Scenario.source_catalog
           CleanLogger.fresh).
  reflexivity.
Defined.

(** * Further properties of the code *)

(** ** Identity Resolver: what a match is *)

(** X1.  A match is always a record of the catalog whose key has the base name
    of the managed file, and it is the record under the managed path itself
    whenever that path is a key; there is no match exactly when no key of
    the catalog has that base name. *)
Theorem match_track_sound_and_complete (rt : Runtime)
    (apple_tracks : dict AppleMusic.Metadata) (file_path : string) :
  (forall record,
      Orchestrator.match_track rt apple_tracks file_path = Some record ->
      exists apple_path,
        (apple_path, record) ∈ apple_tracks
        /\ basename rt apple_path = basename rt file_path
        /\ (file_path ∈ apple_tracks.*1 -> apple_path = file_path))
  /\ (Orchestrator.match_track rt apple_tracks file_path = None
      <-> Forall (fun item : string * AppleMusic.Metadata =>
                    basename rt item.1 <> basename rt file_path)
            apple_tracks).
Proof.
  unfold Orchestrator.match_track. split.
  - intros record.
    destruct (dict_get apple_tracks file_path) as [exact|] eqn:Hexact.
    + intros [= <-]. exists file_path. split_and!; [|done|done].
      by apply dict_get_elem_of.
    + destruct (find _ apple_tracks) as [[apple_path metadata]|] eqn:Hfind;
        [|done].
      intros [= <-]. apply find_somewhere in Hfind as [Hin Hbase].
      exists apple_path. split_and!; [done | by apply String.eqb_eq |].
      intros Hkey. by apply dict_get_none_absent in Hexact.
  - split.
    + destruct (dict_get apple_tracks file_path) as [exact|] eqn:Hexact;
        [done|].
      destruct (find _ apple_tracks) as [[apple_path metadata]|] eqn:Hfind;
        [done|].
      intros _. apply find_none_everywhere in Hfind.
      eapply Forall_impl; [exact Hfind|].
      intros item Hitem. by apply String.eqb_neq.
    + intros Hnone.
      assert (file_path ∉ apple_tracks.*1) as Habsent.
      { intros Hin. apply list_elem_of_fmap in Hin as ([key record] & -> & Hin).
        rewrite Forall_forall in Hnone. by apply Hnone in Hin. }
      rewrite (dict_get_absent _ _ Habsent).
      rewrite find_nowhere; [done|].
      eapply Forall_impl; [exact Hnone|].
      intros item Hitem. by apply String.eqb_neq.
Qed.

Lemma match_track_sound_and_complete_witness :
  exists apple_path,
    (apple_path,
     {| AppleMusic.title := Some "X"; AppleMusic.artist := Some "Y";
        AppleMusic.album := Some "Z" |}) ∈ Scenario.source_catalog
    /\ Posix.basename apple_path = Posix.basename "/mnt/music/a.mp3"
    /\ ("/mnt/music/a.mp3" ∈ (Scenario.source_catalog).*1 ->
        apple_path = "/mnt/music/a.mp3").
Proof.
  apply (match_track_sound_and_complete Posix.runtime Scenario.source_catalog
           "/mnt/music/a.mp3").
  reflexivity.
Defined.

(** ** The plist adapter: what a loaded library holds *)

Section DictSetFacts.
Context {V : Type}.

Lemma dict_set_key_kept (d : dict V) (k k' : string) (v : V) :
  k' ∈ d.*1 -> k' ∈ (dict_set d k v).*1.
Proof.
  intros Hin. rewrite dict_set_keys.
  destruct (bool_decide (k ∈ d.*1)); [done|].
  apply elem_of_app. by left.
Qed.

Lemma dict_set_key_new (d : dict V) (k : string) (v : V) :
  k ∈ (dict_set d k v).*1.
Proof.
  rewrite dict_set_keys.
  destruct (bool_decide (k ∈ d.*1)) eqn:Hk.
  - by apply bool_decide_eq_true_1 in Hk.
  - apply elem_of_app. right. by apply list_elem_of_singleton.
Qed.

Lemma dict_set_Forall (P : string * V -> Prop) (d : dict V) (k : string)
    (v : V) :
  Forall P d -> P (k, v) -> Forall P (dict_set d k v).
Proof.
  intros Hd Hv. induction Hd as [|[k' v'] d Hitem Hd IH]; simpl.
  - by constructor.
  - destruct (String.eqb_spec k' k) as [->|]; constructor; done.
Qed.

Lemma dict_set_elem_of (d : dict V) (k : string) (v : V) (item : string * V) :
  item ∈ dict_set d k v -> item = (k, v) \/ item ∈ d.
Proof.
  induction d as [|[k' v'] d IH]; simpl.
  - intros Hin. apply list_elem_of_singleton in Hin. by left.
  - destruct (String.eqb_spec k' k) as [->|].
    + intros Hin. apply elem_of_cons in Hin as [->|Hin]; [by left|].
      right. apply elem_of_cons. by right.
    + intros Hin. apply elem_of_cons in Hin as [->|Hin].
      * right. apply elem_of_cons. by left.
      * destruct (IH Hin) as [->|Hd]; [by left|].
        right. apply elem_of_cons. by right.
Qed.

Lemma dict_get_set_same (d : dict V) (k : string) (v : V) :
  dict_get (dict_set d k v) k = Some v.
Proof.
  induction d as [|[k' v'] d IH]; simpl.
  - by rewrite String.eqb_refl.
  - destruct (String.eqb_spec k' k) as [->|Hne]; simpl.
    + by rewrite String.eqb_refl.
    + apply String.eqb_neq in Hne. by rewrite Hne.
Qed.

Lemma dict_get_set_other (d : dict V) (k k' : string) (v : V) :
  k <> k' -> dict_get (dict_set d k v) k' = dict_get d k'.
Proof.
  intros Hne. induction d as [|[k0 v0] d IH]; simpl.
  - apply String.eqb_neq in Hne. by rewrite Hne.
  - destruct (String.eqb_spec k0 k) as [->|Hne0]; simpl.
    + apply String.eqb_neq in Hne. by rewrite Hne.
    + by rewrite IH.
Qed.

End DictSetFacts.

Section LoadedLibraryFacts.
Import AppleMusic AppleMusicXMLClient.
Context (os_name : string).

Lemma process_track_stored (self : t) (track_id : string)
    (track_data : TrackData) :
  _process_track os_name self (track_id, track_data)
  = match stored_path os_name track_data with
    | Some path =>
        {| track_map := dict_set (track_map self) path (metadata_of track_data);
           id_map := dict_set (id_map self) track_id path;
           playlists := playlists self |}
    | None => self
    end.
Proof.
  unfold _process_track, stored_path.
  destruct (Location track_data) as [location|]; [|done].
  by destruct (PathNormalizer._decode_file_url _ _) as [[|c path]|].
Qed.

Lemma stored_path_nonempty (track_data : TrackData) (path : string) :
  stored_path os_name track_data = Some path -> path <> "".
Proof.
  unfold stored_path. destruct (Location track_data) as [location|]; [|done].
  destruct (PathNormalizer._decode_file_url _ _) as [[|c decoded]|]; try done.
  by intros [= <-].
Qed.

Lemma maps_ok_more (tracks_dict : list (string * TrackData))
    (entry : string * TrackData) (self : t) :
  maps_ok os_name tracks_dict self -> maps_ok os_name (tracks_dict ++ [entry]) self.
Proof.
  intros (Hwf & Hids & Hvalues & Hsound). split_and!; try done.
  eapply Forall_impl; [exact Hsound|].
  intros item (track_id & track_data & Hin & Hpath & Hmeta).
  exists track_id, track_data. split_and!; try done.
  apply elem_of_app. by left.
Qed.

Lemma process_track_maps_ok (tracks_dict : list (string * TrackData))
    (entry : string * TrackData) (self : t) :
  maps_ok os_name tracks_dict self ->
  maps_ok os_name (tracks_dict ++ [entry]) (_process_track os_name self entry).
Proof.
  intros Hok. destruct entry as [track_id track_data].
  rewrite process_track_stored.
  destruct (stored_path os_name track_data) as [path|] eqn:Hpath;
    [|by apply maps_ok_more].
  apply (maps_ok_more _ (track_id, track_data)) in Hok
    as (Hwf & Hids & Hvalues & Hsound).
  split_and!; cbn [track_map id_map].
  - by apply dict_set_wf.
  - by apply dict_set_wf.
  - apply dict_set_Forall.
    + eapply Forall_impl; [exact Hvalues|].
      intros item Hitem. by apply dict_set_key_kept.
    + apply dict_set_key_new.
  - apply dict_set_Forall; [done|].
    exists track_id, track_data. split_and!; try done.
    apply elem_of_app. right. by apply list_elem_of_singleton.
Qed.

Lemma process_tracks_maps_ok (done_ tracks_dict : list (string * TrackData))
    (self : t) :
  maps_ok os_name done_ self ->
  maps_ok os_name (done_ ++ tracks_dict) (_process_tracks os_name self tracks_dict).
Proof.
  unfold _process_tracks. revert done_ self.
  induction tracks_dict as [|entry tracks_dict IH]; intros done_ self Hok.
  - by rewrite app_nil_r.
  - simpl.
    replace (done_ ++ entry :: tracks_dict)
      with ((done_ ++ [entry]) ++ tracks_dict) by (by rewrite <- app_assoc).
    apply IH. by apply process_track_maps_ok.
Qed.

Lemma process_playlist_maps (self : t) (playlist : PlaylistData) :
  track_map (_process_playlist self playlist) = track_map self
  /\ id_map (_process_playlist self playlist) = id_map self.
Proof.
  unfold _process_playlist.
  destruct (Master playlist || _); [done|].
  destruct (get_or_empty (Playlist_Name playlist)) as [|c name]; [done|].
  by destruct (playlist_paths _ _).
Qed.

Lemma process_playlists_maps (self : t) (playlists_list : list PlaylistData) :
  track_map (_process_playlists self playlists_list) = track_map self
  /\ id_map (_process_playlists self playlists_list) = id_map self.
Proof.
  unfold _process_playlists. revert self.
  induction playlists_list as [|playlist l IH]; intros self; [done|].
  simpl. destruct (IH (_process_playlist self playlist)) as [-> ->].
  apply process_playlist_maps.
Qed.

Lemma playlist_paths_values (ids : dict string) (items : list string) :
  Forall (fun path => exists track_id, (track_id, path) ∈ ids)
    (playlist_paths ids items).
Proof.
  induction items as [|track_id items IH]; simpl; [done|].
  destruct (dict_get ids track_id) as [path|] eqn:Hget; [|done].
  constructor; [|done]. exists track_id. by apply dict_get_elem_of.
Qed.

End LoadedLibraryFacts.

Section LoadedLibraryMore.
Import AppleMusic AppleMusicXMLClient.
Context (os_name : string).

Lemma process_tracks_keys_kept (self : t)
    (tracks_dict : list (string * TrackData)) (path track_id : string) :
  (path ∈ (track_map self).*1 ->
   path ∈ (track_map (_process_tracks os_name self tracks_dict)).*1)
  /\ (track_id ∈ (id_map self).*1 ->
      track_id ∈ (id_map (_process_tracks os_name self tracks_dict)).*1).
Proof.
  unfold _process_tracks. revert self.
  induction tracks_dict as [|[id data] l IH]; intros self; [done|].
  cbn [fold_left].
  destruct (IH (_process_track os_name self (id, data))) as [IHp IHi].
  rewrite process_track_stored in IHp, IHi |- *.
  destruct (stored_path os_name data) as [stored|]; [|done].
  cbn [track_map id_map] in IHp, IHi.
  split; intros Hin; [apply IHp | apply IHi]; by apply dict_set_key_kept.
Qed.

Lemma process_tracks_complete (self : t)
    (tracks_dict : list (string * TrackData)) (track_id path : string)
    (track_data : TrackData) :
  (track_id, track_data) ∈ tracks_dict ->
  stored_path os_name track_data = Some path ->
  path ∈ (track_map (_process_tracks os_name self tracks_dict)).*1
  /\ track_id ∈ (id_map (_process_tracks os_name self tracks_dict)).*1.
Proof.
  revert self. induction tracks_dict as [|[id data] l IH]; intros self Hin Hpath.
  - by apply elem_of_nil in Hin.
  - apply elem_of_cons in Hin as [[= <- <-]|Hin]; [|by apply IH].
    change (_process_tracks os_name self ((track_id, track_data) :: l))
      with (_process_tracks os_name
              (_process_track os_name self (track_id, track_data)) l).
    rewrite process_track_stored, Hpath.
    match goal with |- context [_process_tracks os_name ?st l] =>
      destruct (process_tracks_keys_kept st l path track_id) as [Hp Hi] end.
    split; [apply Hp | apply Hi]; cbn [track_map id_map];
      apply dict_set_key_new.
Qed.

(** Entries that are not stored under [path] leave what is stored under
    [path] as it is. *)
Lemma process_tracks_other_paths (self : t)
    (tracks_dict : list (string * TrackData)) (path : string) :
  Forall (fun entry : string * TrackData =>
            stored_path os_name entry.2 <> Some path) tracks_dict ->
  dict_get (track_map (_process_tracks os_name self tracks_dict)) path
  = dict_get (track_map self) path.
Proof.
  unfold _process_tracks. intros Hother. revert self.
  induction Hother as [|[id data] l Hne _ IH]; intros self; [done|].
  cbn [fold_left]. rewrite IH, process_track_stored. simpl in Hne.
  destruct (stored_path os_name data) as [stored|]; [|done].
  cbn [track_map]. apply dict_get_set_other. by intros ->.
Qed.

Lemma process_playlist_sound (ids : dict string) (done_ : list PlaylistData)
    (playlist : PlaylistData) (self : t) :
  id_map self = ids ->
  Forall (fun item : string * list string =>
            item.1 <> ""
            /\ exists source,
                 source ∈ done_
                 /\ Master source = false
                 /\ Distinguished_Kind source = None
                 /\ Playlist_Name source = Some item.1
                 /\ item.2 = playlist_paths ids (Playlist_Items source))
    (playlists self) ->
  Forall (fun item : string * list string =>
            item.1 <> ""
            /\ exists source,
                 source ∈ done_ ++ [playlist]
                 /\ Master source = false
                 /\ Distinguished_Kind source = None
                 /\ Playlist_Name source = Some item.1
                 /\ item.2 = playlist_paths ids (Playlist_Items source))
    (playlists (_process_playlist self playlist)).
Proof.
  intros Hids Hsound.
  assert (Forall (fun item : string * list string =>
            item.1 <> ""
            /\ exists source,
                 source ∈ done_ ++ [playlist]
                 /\ Master source = false
                 /\ Distinguished_Kind source = None
                 /\ Playlist_Name source = Some item.1
                 /\ item.2 = playlist_paths ids (Playlist_Items source))
            (playlists self)) as Hmore.
  { eapply Forall_impl; [exact Hsound|].
    intros item (Hname & source & Hin & Hrest). split; [done|].
    exists source. split; [|done]. apply elem_of_app. by left. }
  unfold _process_playlist.
  destruct (Master playlist) eqn:Hmaster; [done|].
  destruct (Distinguished_Kind playlist) as [kind|] eqn:Hkind; [done|].
  cbn [orb bool_decide]. rewrite bool_decide_eq_false_2 by (by intros H).
  destruct (Playlist_Name playlist) as [name|] eqn:Hname; [|done].
  cbn [get_or_empty default]. destruct name as [|c name]; [done|].
  destruct (playlist_paths (id_map self) (Playlist_Items playlist))
    as [|path paths] eqn:Hpaths; [done|].
  cbn [playlists]. apply dict_set_Forall; [done|].
  split; [done|]. exists playlist. split_and!; try done.
  - apply elem_of_app. right. by apply list_elem_of_singleton.
  - by rewrite <- Hids, Hpaths.
Qed.

Lemma process_playlists_sound (ids : dict string)
    (done_ playlists_list : list PlaylistData) (self : t) :
  id_map self = ids ->
  Forall (fun item : string * list string =>
            item.1 <> ""
            /\ exists source,
                 source ∈ done_
                 /\ Master source = false
                 /\ Distinguished_Kind source = None
                 /\ Playlist_Name source = Some item.1
                 /\ item.2 = playlist_paths ids (Playlist_Items source))
    (playlists self) ->
  Forall (fun item : string * list string =>
            item.1 <> ""
            /\ exists source,
                 source ∈ done_ ++ playlists_list
                 /\ Master source = false
                 /\ Distinguished_Kind source = None
                 /\ Playlist_Name source = Some item.1
                 /\ item.2 = playlist_paths ids (Playlist_Items source))
    (playlists (_process_playlists self playlists_list)).
Proof.
  unfold _process_playlists. revert done_ self.
  induction playlists_list as [|playlist l IH]; intros done_ self Hids Hsound.
  - by rewrite app_nil_r.
  - cbn [fold_left].
    replace (done_ ++ playlist :: l) with ((done_ ++ [playlist]) ++ l)
      by (by rewrite <- app_assoc).
    apply IH.
    + by rewrite (proj2 (process_playlist_maps self playlist)).
    + by apply process_playlist_sound.
Qed.

Lemma filter_by_artist_strings (rt : Runtime) (artist_name_lower : string)
    (items : list (string * Metadata)) :
  Forall (fun item : string * Metadata => is_Some (artist item.2)) items ->
  filter_by_artist rt artist_name_lower items
  = Return (filter (fun item => artist_contains rt artist_name_lower item = true)
              items).
Proof.
  induction 1 as [|[path metadata] items [a Ha] _ IH]; [done|].
  simpl in Ha. rewrite filter_cons. cbn [filter_by_artist]. rewrite Ha, IH.
  assert (artist_contains rt artist_name_lower (path, metadata)
          = str_in artist_name_lower (lower rt a)) as Hcontains.
  { unfold artist_contains. simpl. by rewrite Ha. }
  destruct (str_in artist_name_lower (lower rt a)).
  - by rewrite decide_True.
  - rewrite decide_False; [done|]. by rewrite Hcontains.
Qed.

End LoadedLibraryMore.

Section LoadLibraryFacts.
Import AppleMusic AppleMusicXMLClient.

Lemma load_library_unfold (os_name : string)
    (Tracks : option (list (string * TrackData)))
    (Playlists : option (list PlaylistData)) :
  _load_library os_name Tracks Playlists
  = _process_playlists
      (_process_tracks os_name empty (default [] Tracks))
      (default [] Playlists).
Proof. by destruct Tracks, Playlists. Qed.

Lemma load_library_maps_ok (os_name : string)
    (Tracks : option (list (string * TrackData)))
    (Playlists : option (list PlaylistData)) :
  maps_ok os_name (default [] Tracks)
    (_load_library os_name Tracks Playlists).
Proof.
  rewrite load_library_unfold.
  assert (maps_ok os_name ([] ++ default [] Tracks)
            (_process_tracks os_name empty (default [] Tracks))) as Hok.
  { apply process_tracks_maps_ok. unfold maps_ok, dict_wf. cbn.
    split_and!; try done; apply NoDup_nil_2. }
  destruct (process_playlists_maps
              (_process_tracks os_name empty (default [] Tracks))
              (default [] Playlists)) as [Htracks Hids].
  unfold maps_ok in Hok |- *. by rewrite Htracks, Hids.
Qed.

End LoadLibraryFacts.

(** X2.  Every library loaded from an export has a consistent catalog: the
    paths of [track_map] and the ids of [id_map] are distinct, every id
    leads to a path of the catalog, every catalog entry is the stored form
    (decoded non-empty location, string metadata) of an entry of the
    export, and every entry of the export with such a location is in the
    catalog under it. *)
Theorem loaded_library_catalog (os_name : string)
    (Tracks : option (list (string * AppleMusicXMLClient.TrackData)))
    (Playlists : option (list AppleMusicXMLClient.PlaylistData)) :
  dict_wf (AppleMusicXMLClient.track_map
             (AppleMusicXMLClient._load_library os_name Tracks Playlists))
  /\ dict_wf (AppleMusicXMLClient.id_map
                (AppleMusicXMLClient._load_library os_name Tracks Playlists))
  /\ (forall track_id path,
        (track_id, path)
        ∈ AppleMusicXMLClient.id_map
            (AppleMusicXMLClient._load_library os_name Tracks Playlists) ->
        path ∈ (AppleMusicXMLClient.track_map
                  (AppleMusicXMLClient._load_library os_name Tracks
                     Playlists)).*1)
  /\ (forall path metadata,
        (path, metadata)
        ∈ AppleMusicXMLClient.track_map
            (AppleMusicXMLClient._load_library os_name Tracks Playlists) ->
        path <> ""
        /\ exists track_id track_data location,
             (track_id, track_data) ∈ default [] Tracks
             /\ AppleMusicXMLClient.Location track_data = Some location
             /\ PathNormalizer._decode_file_url os_name (Some location)
                = Some path
             /\ metadata
                = {| AppleMusic.title :=
                       Some (default ""
                               (AppleMusicXMLClient.Name track_data));
                     AppleMusic.artist :=
                       Some (default ""
                               (AppleMusicXMLClient.Artist track_data));
                     AppleMusic.album :=
                       Some (default ""
                               (AppleMusicXMLClient.Album track_data)) |})
  /\ (forall track_id track_data location path,
        (track_id, track_data) ∈ default [] Tracks ->
        AppleMusicXMLClient.Location track_data = Some location ->
        PathNormalizer._decode_file_url os_name (Some location) = Some path ->
        path <> "" ->
        path ∈ (AppleMusicXMLClient.track_map
                  (AppleMusicXMLClient._load_library os_name Tracks
                     Playlists)).*1
        /\ track_id
           ∈ (AppleMusicXMLClient.id_map
                (AppleMusicXMLClient._load_library os_name Tracks
                   Playlists)).*1).
Proof.
  destruct (load_library_maps_ok os_name Tracks Playlists)
    as (Hwf & Hids & Hvalues & Hsound).
  split_and!; try done.
  - intros track_id path Hin. rewrite Forall_forall in Hvalues.
    by apply Hvalues in Hin.
  - intros path metadata Hin. rewrite Forall_forall in Hsound.
    apply Hsound in Hin as (track_id & track_data & Hin & Hpath & Hmeta).
    simpl in Hpath, Hmeta. split; [by eapply stored_path_nonempty|].
    unfold AppleMusicXMLClient.stored_path in Hpath.
    destruct (AppleMusicXMLClient.Location track_data) as [location|] eqn:Hloc;
      [|done].
    exists track_id, track_data, location. split_and!; try done.
    by destruct (PathNormalizer._decode_file_url os_name (Some location))
      as [[|c decoded]|].
  - intros track_id track_data location path Hin Hloc Hdecode Hne.
    rewrite load_library_unfold.
    destruct (process_playlists_maps
                (AppleMusicXMLClient._process_tracks os_name
                   AppleMusicXMLClient.empty (default [] Tracks))
                (default [] Playlists)) as [-> ->].
    apply (process_tracks_complete os_name _ _ _ _ track_data); [done|].
    unfold AppleMusicXMLClient.stored_path. rewrite Hloc, Hdecode.
    by destruct path.
Qed.

(** X3.  Every playlist stored by a loaded library has a non-empty name and at
    least one path, each path being a key of the catalog; it comes from a
    playlist of the export that is neither the master playlist nor a
    distinguished one, carries that name, and whose items are listed in
    order with the items of unknown tracks left out. *)
Theorem loaded_library_playlists (os_name : string)
    (Tracks : option (list (string * AppleMusicXMLClient.TrackData)))
    (Playlists : option (list AppleMusicXMLClient.PlaylistData))
    (name : string) (tracks : list string) :
  (name, tracks)
  ∈ AppleMusicXMLClient.playlists
      (AppleMusicXMLClient._load_library os_name Tracks Playlists) ->
  name <> "" /\ tracks <> []
  /\ Forall (fun path =>
               path ∈ (AppleMusicXMLClient.track_map
                         (AppleMusicXMLClient._load_library os_name Tracks
                            Playlists)).*1) tracks
  /\ exists source,
       source ∈ default [] Playlists
       /\ AppleMusicXMLClient.Master source = false
       /\ AppleMusicXMLClient.Distinguished_Kind source = None
       /\ AppleMusicXMLClient.Playlist_Name source = Some name
       /\ tracks
          = AppleMusicXMLClient.playlist_paths
              (AppleMusicXMLClient.id_map
                 (AppleMusicXMLClient._load_library os_name Tracks Playlists))
              (AppleMusicXMLClient.Playlist_Items source).
Proof.
  intros Hin.
  destruct (load_library_maps_ok os_name Tracks Playlists)
    as (_ & _ & Hvalues & _).
  pose proof (load_library_stored_ok os_name (default [] Tracks)
                (default [] Playlists)) as [_ Hnonempty].
  rewrite <- load_library_unfold in Hnonempty.
  rewrite Forall_forall in Hnonempty. pose proof (Hnonempty _ Hin) as Hne.
  set (lib := AppleMusicXMLClient._load_library os_name Tracks Playlists)
    in *.
  pose proof (process_playlists_sound (AppleMusicXMLClient.id_map lib) []
                (default [] Playlists)
                (AppleMusicXMLClient._process_tracks os_name
                   AppleMusicXMLClient.empty (default [] Tracks))) as Hsound.
  rewrite <- load_library_unfold in Hsound. fold lib in Hsound.
  assert (AppleMusicXMLClient.id_map
            (AppleMusicXMLClient._process_tracks os_name
               AppleMusicXMLClient.empty (default [] Tracks))
          = AppleMusicXMLClient.id_map lib) as Hids.
  { unfold lib. rewrite load_library_unfold.
    by rewrite (proj2 (process_playlists_maps _ _)). }
  specialize (Hsound Hids).
  rewrite process_tracks_playlists in Hsound.
  specialize (Hsound (Forall_nil_2 _)).
  rewrite Forall_forall in Hsound.
  destruct (Hsound _ Hin) as (Hname & source & Hsource & Hrest).
  simpl in Hname, Hrest. split_and!; try done.
  - destruct Hrest as (_ & _ & _ & ->).
    eapply Forall_impl; [apply playlist_paths_values|].
    intros path [track_id Hpath]. rewrite Forall_forall in Hvalues.
    by apply Hvalues in Hpath.
  - by exists source.
Qed.

Lemma loaded_library_playlists_witness :
  "Road Trip" <> ""
  /\ ["/music/a.mp3"; "/music/b.mp3"; "/music/c.mp3"] <> []
  /\ Forall (fun path =>
               path ∈ (AppleMusicXMLClient.track_map
                         (AppleMusicXMLClient._load_library "posix"
                            (Some [("1", Scenario.export_track "a");
                                   ("2", Scenario.export_track "b");
                                   ("3", Scenario.export_track "c")])
                            (Some [{| AppleMusicXMLClient.Master := false;
                                      AppleMusicXMLClient.Distinguished_Kind
                                        := None;
                                      AppleMusicXMLClient.Playlist_Name
                                        := Some "Road Trip";
                                      AppleMusicXMLClient.Playlist_Items
                                        := ["1"; "9"; "2"; "3"] |}]))).*1)
       ["/music/a.mp3"; "/music/b.mp3"; "/music/c.mp3"]
  /\ exists source,
       source ∈ default []
                  (Some [{| AppleMusicXMLClient.Master := false;
                            AppleMusicXMLClient.Distinguished_Kind := None;
                            AppleMusicXMLClient.Playlist_Name
                              := Some "Road Trip";
                            AppleMusicXMLClient.Playlist_Items
                              := ["1"; "9"; "2"; "3"] |}])
       /\ AppleMusicXMLClient.Master source = false
       /\ AppleMusicXMLClient.Distinguished_Kind source = None
       /\ AppleMusicXMLClient.Playlist_Name source = Some "Road Trip"
       /\ ["/music/a.mp3"; "/music/b.mp3"; "/music/c.mp3"]
          = AppleMusicXMLClient.playlist_paths
              (AppleMusicXMLClient.id_map
                 (AppleMusicXMLClient._load_library "posix"
                    (Some [("1", Scenario.export_track "a");
                           ("2", Scenario.export_track "b");
                           ("3", Scenario.export_track "c")])
                    (Some [{| AppleMusicXMLClient.Master := false;
                              AppleMusicXMLClient.Distinguished_Kind := None;
                              AppleMusicXMLClient.Playlist_Name
                                := Some "Road Trip";
                              AppleMusicXMLClient.Playlist_Items
                                := ["1"; "9"; "2"; "3"] |}])))
              (AppleMusicXMLClient.Playlist_Items source).
Proof.
  apply (loaded_library_playlists "posix"
           (Some [("1", Scenario.export_track "a");
                  ("2", Scenario.export_track "b");
                  ("3", Scenario.export_track "c")])
           (Some [{| AppleMusicXMLClient.Master := false;
                     AppleMusicXMLClient.Distinguished_Kind := None;
                     AppleMusicXMLClient.Playlist_Name := Some "Road Trip";
                     AppleMusicXMLClient.Playlist_Items
                       := ["1"; "9"; "2"; "3"] |}])).
  vm_compute. apply list_elem_of_singleton. reflexivity.
Defined.

(** X4.  When several entries of the export are stored under one path, the
    catalog holds the metadata of the last of them. *)
Theorem later_entry_wins (os_name : string)
    (before after : list (string * AppleMusicXMLClient.TrackData))
    (track_id path : string) (track_data : AppleMusicXMLClient.TrackData)
    (Playlists : option (list AppleMusicXMLClient.PlaylistData)) :
  AppleMusicXMLClient.stored_path os_name track_data = Some path ->
  Forall (fun entry : string * AppleMusicXMLClient.TrackData =>
            AppleMusicXMLClient.stored_path os_name entry.2 <> Some path)
    after ->
  dict_get
    (AppleMusicXMLClient.get_all_tracks
       (AppleMusicXMLClient._load_library os_name
          (Some (before ++ (track_id, track_data) :: after)) Playlists))
    path
  = Some (AppleMusicXMLClient.metadata_of track_data).
Proof.
  intros Hpath Hafter. unfold AppleMusicXMLClient.get_all_tracks.
  rewrite load_library_unfold.
  rewrite (proj1 (process_playlists_maps _ _)). cbn [from_option id].
  unfold AppleMusicXMLClient._process_tracks.
  rewrite fold_left_app. cbn [fold_left].
  fold (AppleMusicXMLClient._process_tracks os_name
          AppleMusicXMLClient.empty before).
  match goal with |- context [fold_left _ after ?st] =>
    fold (AppleMusicXMLClient._process_tracks os_name st after) end.
  rewrite process_tracks_other_paths by done.
  rewrite process_track_stored, Hpath. cbn [AppleMusicXMLClient.track_map].
  apply dict_get_set_same.
Qed.

Lemma later_entry_wins_witness :
  dict_get
    (AppleMusicXMLClient.get_all_tracks
       (AppleMusicXMLClient._load_library "posix"
          (Some ([("1", Scenario.export_track "a")]
                 ++ ("2",
                     {| AppleMusicXMLClient.Location
                          := Some "file:///music/a.mp3";
                        AppleMusicXMLClient.Name := Some "Later";
                        AppleMusicXMLClient.Artist := None;
                        AppleMusicXMLClient.Album := None |})
                 :: [("3", Scenario.export_track "c")]))
          None))
    "/music/a.mp3"
  = Some {| AppleMusic.title := Some "Later"; AppleMusic.artist := Some "";
            AppleMusic.album := Some "" |}.
Proof.
  apply (later_entry_wins "posix" [("1", Scenario.export_track "a")]
           [("3", Scenario.export_track "c")] "2" "/music/a.mp3"
           {| AppleMusicXMLClient.Location := Some "file:///music/a.mp3";
              AppleMusicXMLClient.Name := Some "Later";
              AppleMusicXMLClient.Artist := None;
              AppleMusicXMLClient.Album := None |} None).
  - reflexivity.
  - repeat constructor. vm_compute. discriminate.
Defined.

(** X5.  On a loaded library [get_tracks_by_artist] never raises: it returns, in
    catalog order and with distinct keys, exactly the entries whose artist
    contains the query once both are lower-cased; so the artist clean of
    the plist adapter always runs. *)
Theorem get_tracks_by_artist_on_loaded_library (rt : Runtime)
    (os_name : string)
    (Tracks : option (list (string * AppleMusicXMLClient.TrackData)))
    (Playlists : option (list AppleMusicXMLClient.PlaylistData))
    (artist_name : string) :
  AppleMusicXMLClient.get_tracks_by_artist rt
    (AppleMusicXMLClient._load_library os_name Tracks Playlists) artist_name
  = Return
      (filter (fun item =>
                 AppleMusicXMLClient.artist_contains rt (lower rt artist_name)
                   item = true)
         (AppleMusicXMLClient.track_map
            (AppleMusicXMLClient._load_library os_name Tracks Playlists)))
  /\ dict_wf
       (filter (fun item =>
                  AppleMusicXMLClient.artist_contains rt (lower rt artist_name)
                    item = true)
          (AppleMusicXMLClient.track_map
             (AppleMusicXMLClient._load_library os_name Tracks Playlists)))
  /\ forall server clean_logger,
       Orchestrator.clean_artist_tracks rt server
         (AppleMusicXMLClient.source rt
            (AppleMusicXMLClient._load_library os_name Tracks Playlists))
         clean_logger artist_name
       = Return
           (Orchestrator.clean_tracks rt server
              (Plex.get_tracks_by_artist server artist_name)
              (filter (fun item =>
                         AppleMusicXMLClient.artist_contains rt
                           (lower rt artist_name) item = true)
                 (AppleMusicXMLClient.track_map
                    (AppleMusicXMLClient._load_library os_name Tracks
                       Playlists)))
              clean_logger).
Proof.
  destruct (load_library_maps_ok os_name Tracks Playlists)
    as (Hwf & _ & _ & Hsound).
  assert (AppleMusicXMLClient.get_tracks_by_artist rt
            (AppleMusicXMLClient._load_library os_name Tracks Playlists)
            artist_name
          = Return
              (filter (fun item =>
                         AppleMusicXMLClient.artist_contains rt
                           (lower rt artist_name) item = true)
                 (AppleMusicXMLClient.track_map
                    (AppleMusicXMLClient._load_library os_name Tracks
                       Playlists)))) as Hreturn.
  { unfold AppleMusicXMLClient.get_tracks_by_artist.
    apply filter_by_artist_strings.
    eapply Forall_impl; [exact Hsound|].
    intros item (track_id & track_data & _ & _ & ->). by eexists. }
  split_and!; [done| |].
  - unfold dict_wf in *.
    eapply sublist_NoDup; [exact Hwf|].
    apply fmap_sublist, sublist_filter.
  - intros server clean_logger. unfold Orchestrator.clean_artist_tracks.
    cbn [AppleMusic.tracks_by_artist AppleMusicXMLClient.source].
    by rewrite Hreturn.
Qed.

(** ** The managed library client *)

Section PlexFacts.
Context (rt : Runtime).

Lemma some_part_named_readable (base_filename : string) (parts : list pystr) :
  Forall (fun part : pystr => is_Some part) parts ->
  Plex.some_part_named rt base_filename parts
  = Return
      (existsb (fun part : pystr =>
                  match part with
                  | Some file => String.eqb (basename rt file) base_filename
                  | None => false
                  end) parts).
Proof.
  induction 1 as [|part parts [file ->] _ IH]; [done|]. simpl.
  by destruct (String.eqb (basename rt file) base_filename).
Qed.

Lemma some_media_named_readable (base_filename : string)
    (medias : list (list pystr)) :
  Forall (Forall (fun part : pystr => is_Some part)) medias ->
  Plex.some_media_named rt base_filename medias
  = Return
      (existsb
         (existsb (fun part : pystr =>
                     match part with
                     | Some file => String.eqb (basename rt file) base_filename
                     | None => false
                     end))
         medias).
Proof.
  induction 1 as [|parts medias Hparts _ IH]; [done|]. simpl.
  rewrite (some_part_named_readable _ _ Hparts), IH.
  by destruct (existsb _ parts).
Qed.

Lemma first_exact_readable (base_filename : string)
    (results : list Plex.Track) :
  Forall Plex.readable results ->
  Plex.first_exact rt base_filename results
  = Return (find (Plex.has_part_named rt base_filename) results).
Proof.
  induction 1 as [|track results (medias & Hmedia & Hparts) _ IH]; [done|].
  simpl. unfold Plex.has_part_named at 1. rewrite Hmedia.
  rewrite (some_media_named_readable _ _ Hparts), IH.
  by destruct (existsb _ medias).
Qed.

Lemma first_exact_member (base_filename : string) (results : list Plex.Track)
    (track : Plex.Track) :
  Plex.first_exact rt base_filename results = Return (Some track) ->
  track ∈ results.
Proof.
  induction results as [|first results IH]; [done|]. simpl.
  destruct (Plex.media first) as [medias|]; [|done].
  destruct (Plex.some_media_named rt base_filename medias) as [[|]|];
    [| |done].
  - intros [= ->]. apply elem_of_cons. by left.
  - intros H. apply elem_of_cons. right. by apply IH.
Qed.

End PlexFacts.

(** X6.  [find_track_by_filename] never raises and only ever returns one of the
    tracks the title search gave; it returns nothing when the search raises
    or gives nothing.  When every result can be read, the first result that
    has a part with the file name wins, and when there is none the first
    result is taken as it is, whatever its file is called. *)
Theorem find_track_by_filename_result (rt : Runtime) (server : Plex.Server)
    (filename : string) :
  (forall track,
      Plex.find_track_by_filename rt server filename = Some track ->
      exists results,
        Plex.search server (splitext rt (basename rt filename)).1
        = Return results
        /\ track ∈ results)
  /\ (Plex.search server (splitext rt (basename rt filename)).1 = Raise
      \/ Plex.search server (splitext rt (basename rt filename)).1 = Return []
      -> Plex.find_track_by_filename rt server filename = None)
  /\ (forall results,
        Plex.search server (splitext rt (basename rt filename)).1
        = Return results ->
        Forall Plex.readable results ->
        Plex.find_track_by_filename rt server filename
        = match find (Plex.has_part_named rt (basename rt filename))
                  results with
          | Some track => Some track
          | None => head results
          end).
Proof.
  unfold Plex.find_track_by_filename, try_except. cbv zeta. split_and!.
  - intros track.
    destruct (Plex.search server _) as [results|]; [|done].
    destruct (Plex.first_exact rt _ results) as [[exact|]|] eqn:Hexact;
      [| |done].
    + intros [= ->]. exists results. split; [done|].
      by eapply first_exact_member.
    + destruct results as [|first results]; [done|].
      intros [= ->]. eexists. split; [done|]. apply elem_of_cons. by left.
  - by intros [-> | ->].
  - intros results -> Hreadable.
    rewrite (first_exact_readable rt _ _ Hreadable).
    destruct (find _ results); [done|]. by destruct results.
Qed.

Lemma find_track_by_filename_result_witness :
  exists results,
    Plex.search Scenario.playlist_server
      (splitext Posix.runtime (basename Posix.runtime "/music/a.mp3")).1
    = Return results
    /\ Scenario.track_a ∈ results.
Proof.
  apply (find_track_by_filename_result Posix.runtime Scenario.playlist_server
           "/music/a.mp3").
  reflexivity.
Defined.

(** X7.  [update_track_metadata] sends no write, and reports [False], exactly
    when no given value differs from the track's current one (the artist
    being compared with the override [originalTitle]).  Otherwise it sends
    one write, to that track, holding under [title], [originalTitle] and
    [parentTitle] exactly the given values that differ, and reports what
    the server answered. *)
Theorem update_track_metadata_writes (server : Plex.Server)
    (track : Plex.Track) (title_ artist album : pystr) :
  ((Plex.update_track_metadata server track title_ artist album).2 = []
   <-> Plex.changed (Plex.title track) title_ = None
       /\ Plex.changed (Plex.originalTitle track) artist = None
       /\ Plex.changed (Plex.parentTitle track) album = None)
  /\ ((Plex.update_track_metadata server track title_ artist album).2 = [] ->
      (Plex.update_track_metadata server track title_ artist album).1 = false)
  /\ (forall call,
        call ∈ (Plex.update_track_metadata server track title_ artist album).2
        ->
        (Plex.update_track_metadata server track title_ artist album).2
        = [call]
        /\ Plex.target call = Plex.ratingKey track
        /\ Plex.accepted call
           = Plex.edit server track (Plex.update_fields call)
        /\ (Plex.update_track_metadata server track title_ artist album).1
           = Plex.accepted call
        /\ dict_get (Plex.update_fields call) "title"
           = Plex.changed (Plex.title track) title_
        /\ dict_get (Plex.update_fields call) "originalTitle"
           = Plex.changed (Plex.originalTitle track) artist
        /\ dict_get (Plex.update_fields call) "parentTitle"
           = Plex.changed (Plex.parentTitle track) album
        /\ Forall (fun item : string * string =>
                     item.1 ∈ ["title"; "originalTitle"; "parentTitle"])
             (Plex.update_fields call)).
Proof.
  unfold Plex.update_track_metadata, Plex.changed, py_ne.
  destruct title_ as [t|], artist as [a|], album as [b|];
    repeat match goal with
           | |- context [bool_decide ?P] => destruct (bool_decide P)
           end;
    cbn; (split_and!; [ split; [try done | try done; by intros (? & ? & ?)]
                      | done
                      | intros call Hin;
                        try (by apply elem_of_nil in Hin);
                        apply list_elem_of_singleton in Hin as ->;
                        split_and!; try done;
                        repeat constructor; set_solver ]).
Qed.

Section DeleteFirstFacts.
Context (rt : Runtime).

Lemma delete_first_some (name : string) (existing rest : Plex.Playlists) :
  Plex.delete_first rt name existing = Some rest ->
  exists before old after,
    existing = before ++ old :: after
    /\ Plex.same_title rt name old = true
    /\ Forall (fun item => Plex.same_title rt name item = false) before
    /\ rest = before ++ after.
Proof.
  revert rest. induction existing as [|item existing IH]; intros rest; [done|].
  simpl. destruct (Plex.same_title rt name item) eqn:Hitem.
  - intros [= <-]. by exists [], item, existing.
  - destruct (Plex.delete_first rt name existing) as [rest'|]; [|done].
    intros [= <-].
    destruct (IH rest' eq_refl) as (before & old & after & -> & Hold & Hb & ->).
    exists (item :: before), old, after. split_and!; try done.
    by constructor.
Qed.

Lemma delete_first_none (name : string) (existing : Plex.Playlists) :
  Plex.delete_first rt name existing = None ->
  Forall (fun item => Plex.same_title rt name item = false) existing.
Proof.
  induction existing as [|item existing IH]; [done|]. simpl.
  destruct (Plex.same_title rt name item) eqn:Hitem; [done|].
  destruct (Plex.delete_first rt name existing); [done|].
  intros _. constructor; [done | by apply IH].
Qed.

Lemma same_title_own (name : string) (tracks : list Plex.Track) :
  Plex.same_title rt name (name, tracks) = true.
Proof. unfold Plex.same_title. apply String.eqb_refl. Qed.

Lemma delete_first_appended (name : string) (others : Plex.Playlists)
    (tracks : list Plex.Track) :
  Forall (fun item => Plex.same_title rt name item = false) others ->
  Plex.delete_first rt name (others ++ [(name, tracks)]) = Some others.
Proof.
  intros Hothers.
  rewrite (delete_first_where rt name others [] (name, tracks));
    [by rewrite app_nil_r | apply same_title_own | done].
Qed.

End DeleteFirstFacts.

(** X8.  On a server that takes the requests, and with at most one playlist of
    that title (up to case) to begin with, creating the same playlist a
    second time leaves the playlists exactly as the first time did. *)
Theorem create_playlist_twice (rt : Runtime)
    (existing : list (string * list Plex.Track))
    (name : string) (tracks : list Plex.Track) :
  length (filter (fun item => Plex.same_title rt name item = true) existing)
  <= 1 ->
  Plex.create_playlist rt Plex.no_faults
    (Plex.create_playlist rt Plex.no_faults existing name tracks).2
    name tracks
  = Plex.create_playlist rt Plex.no_faults existing name tracks.
Proof.
  intros Hcount. unfold Plex.create_playlist. cbn.
  destruct (Plex.delete_first rt name existing) as [rest|] eqn:Hdelete; cbn.
  - apply delete_first_some in Hdelete
      as (before & old & after & -> & Hold & Hbefore & ->).
    assert (Forall (fun item => Plex.same_title rt name item = false) after)
      as Hafter.
    { rewrite filter_app, filter_cons_True, length_app in Hcount by done.
      cbn in Hcount.
      assert (filter (fun item => Plex.same_title rt name item = true) after
              = []) as Hnil.
      { apply length_zero_iff_nil. lia. }
      apply Forall_forall. intros item Hin.
      destruct (Plex.same_title rt name item) eqn:Hitem; [|done].
      assert (item ∈ filter (fun item => Plex.same_title rt name item = true)
                       after) as Hitem'.
      { by apply list_elem_of_filter. }
      rewrite Hnil in Hitem'. by apply elem_of_nil in Hitem'. }
    rewrite delete_first_appended; [done|]. by apply Forall_app.
  - apply delete_first_none in Hdelete.
    by rewrite delete_first_appended.
Qed.

Lemma create_playlist_twice_witness :
  Plex.create_playlist Posix.runtime Plex.no_faults
    (Plex.create_playlist Posix.runtime Plex.no_faults
       [("Other", []); ("ROAD TRIP", [Scenario.track_c])]
       "Road Trip" [Scenario.track_a]).2
    "Road Trip" [Scenario.track_a]
  = (true, [("Other", []); ("Road Trip", [Scenario.track_a])]).
Proof.
  rewrite (create_playlist_twice Posix.runtime
             [("Other", []); ("ROAD TRIP", [Scenario.track_c])]
             "Road Trip" [Scenario.track_a]).
  - reflexivity.
  - vm_compute. lia.
Defined.

(** X9.  [create_playlist] reports success exactly when the listing and the
    creation go through and no deletion fails; the new playlist is then the
    last one.  When it reports failure the playlists are as they were,
    except when the earlier playlist of that title was deleted and the
    creation failed: then that playlist is gone and nothing replaces it. *)
Theorem create_playlist_outcomes (rt : Runtime) (faults : Plex.Faults)
    (existing : Plex.Playlists) (name : string) (tracks : list Plex.Track) :
  ((Plex.create_playlist rt faults existing name tracks).1 = true
   <-> Plex.listing_fails faults = false
       /\ Plex.create_fails faults = false
       /\ (Plex.delete_fails faults = false
           \/ Forall (fun item => Plex.same_title rt name item = false)
                existing))
  /\ ((Plex.create_playlist rt faults existing name tracks).1 = true ->
      last (Plex.create_playlist rt faults existing name tracks).2
      = Some (name, tracks))
  /\ ((Plex.create_playlist rt faults existing name tracks).1 = false ->
      (Plex.create_playlist rt faults existing name tracks).2 = existing
      \/ (Plex.listing_fails faults = false
          /\ Plex.delete_fails faults = false
          /\ Plex.create_fails faults = true
          /\ exists before old after,
               existing = before ++ old :: after
               /\ Plex.same_title rt name old = true
               /\ Forall (fun item => Plex.same_title rt name item = false)
                    before
               /\ (Plex.create_playlist rt faults existing name tracks).2
                  = before ++ after)).
Proof.
  unfold Plex.create_playlist.
  destruct faults as [[|] [|] [|]]; cbn;
    destruct (Plex.delete_first rt name existing) as [rest|] eqn:Hdelete;
    cbn; rewrite ?last_snoc;
    try (apply delete_first_none in Hdelete);
    (split_and!;
     [ split; [try done; intros _; split_and!; try done; auto
              | try done; try (by intros (? & ? & ?))]
     | try done
     | try done; intros _; try (by left) ]).
  all: try (intros (_ & _ & [Hd | Hnone]); [done|];
            apply delete_first_some in Hdelete
              as (before & old & after & -> & Hold & _ & _);
            apply Forall_app in Hnone as [_ Hnone];
            apply Forall_cons in Hnone as [Hnone _]; congruence).
  all: right; split_and!; try done;
    apply delete_first_some in Hdelete
      as (before & old & after & -> & Hold & Hbefore & ->);
    by exists before, old, after.
Qed.

(** ** The change log: reading it *)

Section LoggerReadFacts.
Import CleanLogger.

Lemma count_where_positive (rows : list Row) (rating_key field_ : string) :
  0 < count_where rows rating_key field_
  <-> exists row,
        row ∈ rows /\ plex_rating_key row = rating_key /\ field row = field_.
Proof.
  unfold count_where. split.
  - intros Hpos.
    destruct (filter _ rows) as [|row kept] eqn:Hfilter;
      [simpl in Hpos; lia|].
    assert (row ∈ filter (fun r => plex_rating_key r = rating_key
                                    /\ field r = field_) rows) as Hin.
    { rewrite Hfilter. apply elem_of_cons. by left. }
    apply list_elem_of_filter in Hin as [[Hkey Hfield] Hin]. by exists row.
  - intros (row & Hin & Hkey & Hfield).
    assert (row ∈ filter (fun r => plex_rating_key r = rating_key
                                    /\ field r = field_) rows) as Hin'.
    { by apply list_elem_of_filter. }
    destruct (filter _ rows); [by apply elem_of_nil in Hin'|]. simpl. lia.
Qed.

Lemma field_counts_lookup (rows : list Row) (field_ : string) :
  default 0 (field_counts rows !! field_)
  = length (filter (fun row => field row = field_) rows).
Proof.
  induction rows as [|row rows IH]; [done|].
  cbn [field_counts foldr]. fold (field_counts rows). rewrite filter_cons.
  destruct (decide (field row = field_)) as [<-|Hne].
  - rewrite lookup_insert_eq. cbn. by rewrite IH.
  - by rewrite lookup_insert_ne.
Qed.

Lemma field_counts_none (rows : list Row) (field_ : string) :
  Forall (fun row => field row <> field_) rows ->
  field_counts rows !! field_ = None.
Proof.
  induction 1 as [|row rows Hne _ IH]; [done|].
  cbn [field_counts foldr]. fold (field_counts rows).
  by rewrite lookup_insert_ne.
Qed.

Lemma distinct_keys_bound (rows : list Row) :
  size (list_to_set (plex_rating_key <$> rows) : gset string) <= length rows.
Proof.
  induction rows as [|row rows IH]; [done|]. csimpl.
  rewrite size_union_alt, size_singleton.
  assert (size (list_to_set (plex_rating_key <$> rows)
                ∖ {[plex_rating_key row]} : gset string)
          <= size (list_to_set (plex_rating_key <$> rows) : gset string))
    as Hless.
  { apply subseteq_size. set_solver. }
  lia.
Qed.

End LoggerReadFacts.

(** X10.  On an open change log a field counts as cleaned for an identity
    exactly when some row holds that identity and field, and an identity
    is in [get_cleaned_tracks()] exactly when some row holds it; so every
    field cleaned puts its track in that set.  Recording a change does not
    alter what is read for any other identity or field. *)
Theorem change_log_reads (rt : Runtime) (self : CleanLogger.t)
    (rating_key field : string) :
  CleanLogger.conn_open self = true ->
  (CleanLogger.is_track_cleaned self rating_key field = true
   <-> exists row,
         row ∈ CleanLogger.cleaned self
         /\ CleanLogger.plex_rating_key row = rating_key
         /\ CleanLogger.field row = field)
  /\ (rating_key ∈ CleanLogger.get_cleaned_tracks self
      <-> exists row,
            row ∈ CleanLogger.cleaned self
            /\ CleanLogger.plex_rating_key row = rating_key)
  /\ (CleanLogger.is_track_cleaned self rating_key field = true ->
      rating_key ∈ CleanLogger.get_cleaned_tracks self)
  /\ (forall other_key other_field old new,
        (other_key, other_field) <> (rating_key, field) ->
        CleanLogger.is_track_cleaned
          (CleanLogger.record_change rt self other_key other_field old new)
          rating_key field
        = CleanLogger.is_track_cleaned self rating_key field)
  /\ (forall other_key other_field old new,
        other_key <> rating_key ->
        (rating_key
         ∈ CleanLogger.get_cleaned_tracks
             (CleanLogger.record_change rt self other_key other_field old new)
         <-> rating_key ∈ CleanLogger.get_cleaned_tracks self)).
Proof.
  intros Hopen.
  assert (CleanLogger.is_track_cleaned self rating_key field = true
          <-> exists row,
                row ∈ CleanLogger.cleaned self
                /\ CleanLogger.plex_rating_key row = rating_key
                /\ CleanLogger.field row = field) as Hfield.
  { unfold CleanLogger.is_track_cleaned, try_except. rewrite Hopen.
    rewrite Nat.ltb_lt. apply count_where_positive. }
  assert (rating_key ∈ CleanLogger.get_cleaned_tracks self
          <-> exists row,
                row ∈ CleanLogger.cleaned self
                /\ CleanLogger.plex_rating_key row = rating_key) as Hkey.
  { unfold CleanLogger.get_cleaned_tracks, try_except. rewrite Hopen.
    rewrite elem_of_list_to_set, list_elem_of_fmap. naive_solver. }
  split_and!; try done.
  - rewrite Hfield, Hkey. naive_solver.
  - intros other_key other_field old new Hother.
    rewrite record_change_open by done.
    unfold CleanLogger.is_track_cleaned, try_except.
    cbn [CleanLogger.conn_open CleanLogger.cleaned]. rewrite Hopen.
    rewrite count_where_app. f_equal.
    unfold CleanLogger.count_where. rewrite filter_cons_False, filter_nil.
    + simpl. lia.
    + cbn. intros [<- <-]. done.
  - intros other_key other_field old new Hother.
    rewrite record_change_open by done.
    unfold CleanLogger.get_cleaned_tracks, try_except.
    cbn [CleanLogger.conn_open CleanLogger.cleaned]. rewrite Hopen.
    rewrite fmap_app, list_to_set_app. cbn. set_solver.
Qed.

Lemma change_log_reads_witness :
  CleanLogger.is_track_cleaned
    (CleanLogger.record_change Posix.runtime CleanLogger.fresh
       "101" "title" (Some "Old") (Some "X"))
    "101" "album"
  = CleanLogger.is_track_cleaned CleanLogger.fresh "101" "album".
Proof.
  apply (change_log_reads Posix.runtime CleanLogger.fresh "101" "album").
  - reflexivity.
  - discriminate.
Defined.

Section ClosedLogFacts.
Import Orchestrator.
Context (rt : Runtime).

Lemma compare_and_update_closed (server : Plex.Server) (run : Run)
    (track : Plex.Track) (apple_track : AppleMusic.Metadata) :
  CleanLogger.conn_open (clean_logger run) = false ->
  clean_logger (compare_and_update rt server run track apple_track)
  = clean_logger run.
Proof.
  intros Hclosed. cases track apple_track;
    try destruct (Plex.update_track_metadata _ _ _ _ _) as [ok calls];
    unfold count, log_change; cbn [clean_logger stats edits];
    repeat (rewrite record_change_closed
              by (rewrite ?record_change_conn; exact Hclosed));
    done.
Qed.

Lemma clean_loop_closed (server : Plex.Server)
    (apple_tracks : dict AppleMusic.Metadata) (cleaned_tracks : gset string)
    (plex_tracks : list Plex.Track) (run : Run) :
  CleanLogger.conn_open (clean_logger run) = false ->
  clean_logger
    (fold_left (clean_track rt server apple_tracks cleaned_tracks)
       plex_tracks run)
  = clean_logger run.
Proof.
  revert run. induction plex_tracks as [|track plex_tracks IH];
    intros run Hclosed; [done|].
  cbn [fold_left].
  assert (clean_logger
            (clean_track rt server apple_tracks cleaned_tracks run track)
          = clean_logger run) as Hstep.
  { unfold clean_track.
    destruct (bool_decide (Plex.ratingKey track ∈ cleaned_tracks)); [done|].
    destruct (Plex.media track) as [medias|]; [|done].
    destruct (first_file medias None) as [[|c file_path]|]; try done.
    destruct (match_track rt apple_tracks _) as [apple_track|]; [|done].
    by rewrite compare_and_update_closed. }
  rewrite IH; [done|]. by rewrite Hstep.
Qed.

End ClosedLogFacts.

(** X11.  After [close] the log reads as empty and takes nothing: no field is
    cleaned, no track is in [get_cleaned_tracks()], [get_stats] returns the
    error entry, and [record_change] leaves the log as it is, while the
    rows written before stay in the table.  A clean run on a closed log
    skips no track and records nothing. *)
Theorem closed_log_is_inert (rt : Runtime) (self : CleanLogger.t)
    (rating_key field : string) (old new : pystr) :
  CleanLogger.is_track_cleaned (CleanLogger.close self) rating_key field
  = false
  /\ CleanLogger.get_cleaned_tracks (CleanLogger.close self) = ∅
  /\ CleanLogger.get_stats (CleanLogger.close self)
     = CleanLogger.ErrorDict "Failed to retrieve statistics"
  /\ CleanLogger.record_change rt (CleanLogger.close self)
       rating_key field old new
     = CleanLogger.close self
  /\ CleanLogger.cleaned (CleanLogger.close self) = CleanLogger.cleaned self
  /\ (forall server plex_tracks apple_tracks,
        Orchestrator.clean_logger
          (Orchestrator.clean_tracks rt server plex_tracks apple_tracks
             (CleanLogger.close self))
        = CleanLogger.close self
        /\ Orchestrator.skipped_tracks
             (Orchestrator.stats
                (Orchestrator.clean_tracks rt server plex_tracks apple_tracks
                   (CleanLogger.close self))) = 0).
Proof.
  split_and!; try done.
  intros server plex_tracks apple_tracks. split.
  - unfold Orchestrator.clean_tracks. by rewrite clean_loop_closed.
  - rewrite clean_tracks_skipped.
    induction plex_tracks as [|track plex_tracks IH]; [done|].
    rewrite filter_cons_False; [done|]. cbn.
    intros Hin%key_in_text. by apply not_elem_of_empty in Hin.
Qed.

(** X12.  The statistics of an open change log whose fields are not called
    [total_changes] or [tracks_changed]: [total_changes] is the number of
    rows, [tracks_changed] the number of identities in
    [get_cleaned_tracks()], which is at most the number of rows, and every
    other key gives the number of rows of that field; when every field is
    title, artist or album, those three add up to [total_changes]. *)
Theorem get_stats_counts (self : CleanLogger.t) :
  CleanLogger.conn_open self = true ->
  Forall (fun row =>
            CleanLogger.field row <> "total_changes"
            /\ CleanLogger.field row <> "tracks_changed")
    (CleanLogger.cleaned self) ->
  CleanLogger.stat (CleanLogger.get_stats self) "total_changes"
  = length (CleanLogger.cleaned self)
  /\ CleanLogger.stat (CleanLogger.get_stats self) "tracks_changed"
     = size (CleanLogger.get_cleaned_tracks self)
  /\ CleanLogger.stat (CleanLogger.get_stats self) "tracks_changed"
     <= CleanLogger.stat (CleanLogger.get_stats self) "total_changes"
  /\ (forall field,
        field <> "total_changes" -> field <> "tracks_changed" ->
        CleanLogger.stat (CleanLogger.get_stats self) field
        = length (filter (fun row => CleanLogger.field row = field)
                    (CleanLogger.cleaned self)))
  /\ (Forall (fun row =>
                CleanLogger.field row ∈ ["title"; "artist"; "album"])
        (CleanLogger.cleaned self) ->
      CleanLogger.stat (CleanLogger.get_stats self) "title"
      + CleanLogger.stat (CleanLogger.get_stats self) "artist"
      + CleanLogger.stat (CleanLogger.get_stats self) "album"
      = CleanLogger.stat (CleanLogger.get_stats self) "total_changes").
Proof.
  intros Hopen Hnames.
  unfold CleanLogger.get_stats, CleanLogger.get_cleaned_tracks, try_except.
  rewrite Hopen. cbn [CleanLogger.stat].
  assert (forall key n m,
            CleanLogger.field_counts (CleanLogger.cleaned self) !! key = None ->
            (CleanLogger.field_counts (CleanLogger.cleaned self)
             ∪ <["total_changes" := n]> (<["tracks_changed" := m]> ∅)) !! key
            = (<["total_changes" := n]> (<["tracks_changed" := m]> ∅)
                 : gmap string nat) !! key) as Hright.
  { intros key n m Hnone. by rewrite lookup_union_r. }
  assert (forall key n m,
            key <> "total_changes" -> key <> "tracks_changed" ->
            (CleanLogger.field_counts (CleanLogger.cleaned self)
             ∪ <["total_changes" := n]> (<["tracks_changed" := m]> ∅)) !! key
            = CleanLogger.field_counts (CleanLogger.cleaned self) !! key)
    as Hleft.
  { intros key n m Hn Hm. rewrite lookup_union.
    rewrite lookup_insert_ne, lookup_insert_ne, lookup_empty by done.
    by destruct (CleanLogger.field_counts _ !! key). }
  assert (CleanLogger.field_counts (CleanLogger.cleaned self)
            !! "total_changes" = None) as Htotal.
  { apply field_counts_none. eapply Forall_impl; [exact Hnames|].
    by intros row [? ?]. }
  assert (CleanLogger.field_counts (CleanLogger.cleaned self)
            !! "tracks_changed" = None) as Htracks.
  { apply field_counts_none. eapply Forall_impl; [exact Hnames|].
    by intros row [? ?]. }
  rewrite !Hright by done.
  rewrite lookup_insert_eq, lookup_insert_ne, lookup_insert_eq by done.
  cbn [default from_option id].
  split_and!; try done.
  - apply distinct_keys_bound.
  - intros field Hn Hm. rewrite Hleft by done. apply field_counts_lookup.
  - intros Hfields. rewrite !Hleft by done. rewrite !field_counts_lookup.
    clear -Hfields. induction Hfields as [|row rows Hrow _ IH]; [done|].
    rewrite !filter_cons.
    apply elem_of_cons in Hrow as [->|Hrow];
      [|apply elem_of_cons in Hrow as [->|Hrow];
        [|apply list_elem_of_singleton in Hrow as ->]];
      repeat case_decide; try discriminate; try congruence;
      cbn [length]; lia.
Qed.

Lemma get_stats_counts_witness :
  CleanLogger.stat
    (CleanLogger.get_stats
       (Orchestrator.clean_logger
          (Orchestrator.clean_all_tracks Posix.runtime (Scenario.server true)
             Scenario.source CleanLogger.fresh)))
    "total_changes"
  = length
      (CleanLogger.cleaned
         (Orchestrator.clean_logger
            (Orchestrator.clean_all_tracks Posix.runtime
               (Scenario.server true) Scenario.source CleanLogger.fresh))).
Proof.
  assert (Forall (fun row =>
                    CleanLogger.field row <> "total_changes"
                    /\ CleanLogger.field row <> "tracks_changed")
            (CleanLogger.cleaned
               (Orchestrator.clean_logger
                  (Orchestrator.clean_all_tracks Posix.runtime
                     (Scenario.server true) Scenario.source
                     CleanLogger.fresh)))) as Hnames.
  { rewrite full_clean_scenario_1. cbn. repeat constructor; discriminate. }
  destruct (get_stats_counts
              (Orchestrator.clean_logger
                 (Orchestrator.clean_all_tracks Posix.runtime
                    (Scenario.server true) Scenario.source CleanLogger.fresh))
              eq_refl Hnames) as [Htotal _].
  exact Htotal.
Defined.

(** ** Clean runs: counters, change log and writes *)

Ltac counters :=
  unfold Orchestrator.count, Orchestrator.log_change in *;
  cbn [Orchestrator.stats Orchestrator.clean_logger Orchestrator.edits] in *;
  rewrite ?incr_updated, ?incr_album, ?incr_artist, ?incr_title,
    ?incr_matched, ?incr_skipped in *;
  cbn [Orchestrator.total_tracks Orchestrator.matched_tracks
       Orchestrator.updated_tracks Orchestrator.title_updates
       Orchestrator.artist_updates Orchestrator.album_updates
       Orchestrator.skipped_tracks] in *.

Section StepFacts.
Import Orchestrator.
Context (rt : Runtime) (server : Plex.Server)
        (apple_tracks : dict AppleMusic.Metadata)
        (cleaned_tracks : gset string).

Lemma differs_bound (current new : pystr) : differs current new <= 1.
Proof. unfold differs. destruct (py_ne current new); lia. Qed.

(** One turn of the loop keeps the counters consistent; [n] is the number
    of tracks seen so far. *)
Lemma clean_track_counters (n : nat) (run : Run) (track : Plex.Track) :
  matched_tracks (stats run) + skipped_tracks (stats run) <= n
  /\ updated_tracks (stats run) <= matched_tracks (stats run)
  /\ title_updates (stats run) <= updated_tracks (stats run)
  /\ artist_updates (stats run) <= updated_tracks (stats run)
  /\ album_updates (stats run) <= updated_tracks (stats run)
  /\ updated_tracks (stats run)
     <= title_updates (stats run) + artist_updates (stats run)
        + album_updates (stats run)
  /\ length (edits run) <= updated_tracks (stats run) ->
  total_tracks
    (stats (clean_track rt server apple_tracks cleaned_tracks run track))
  = total_tracks (stats run)
  /\ matched_tracks
       (stats (clean_track rt server apple_tracks cleaned_tracks run track))
     + skipped_tracks
         (stats (clean_track rt server apple_tracks cleaned_tracks run track))
     <= S n
  /\ updated_tracks
       (stats (clean_track rt server apple_tracks cleaned_tracks run track))
     <= matched_tracks
          (stats (clean_track rt server apple_tracks cleaned_tracks run track))
  /\ title_updates
       (stats (clean_track rt server apple_tracks cleaned_tracks run track))
     <= updated_tracks
          (stats (clean_track rt server apple_tracks cleaned_tracks run track))
  /\ artist_updates
       (stats (clean_track rt server apple_tracks cleaned_tracks run track))
     <= updated_tracks
          (stats (clean_track rt server apple_tracks cleaned_tracks run track))
  /\ album_updates
       (stats (clean_track rt server apple_tracks cleaned_tracks run track))
     <= updated_tracks
          (stats (clean_track rt server apple_tracks cleaned_tracks run track))
  /\ updated_tracks
       (stats (clean_track rt server apple_tracks cleaned_tracks run track))
     <= title_updates
          (stats (clean_track rt server apple_tracks cleaned_tracks run track))
        + artist_updates
            (stats (clean_track rt server apple_tracks cleaned_tracks run
                      track))
        + album_updates
            (stats (clean_track rt server apple_tracks cleaned_tracks run
                      track))
  /\ length
       (edits (clean_track rt server apple_tracks cleaned_tracks run track))
     <= updated_tracks
          (stats (clean_track rt server apple_tracks cleaned_tracks run track)).
Proof.
  intros Hinv. unfold clean_track.
  destruct (bool_decide (Plex.ratingKey track ∈ cleaned_tracks)).
  { counters. lia. }
  destruct (Plex.media track) as [medias|]; [|lia].
  destruct (first_file medias None) as [[|c file_path]|]; try lia.
  destruct (match_track rt apple_tracks _) as [apple_track|]; [|lia].
  pose proof (compare_and_update_edits rt server (count "matched_tracks" run)
                track apple_track) as Hedits.
  rewrite compare_and_update_stats.
  pose proof (differs_bound (Plex.title track) (AppleMusic.title apple_track)).
  pose proof (differs_bound (track_artist track)
                (AppleMusic.artist apple_track)).
  pose proof (differs_bound (Plex.parentTitle track)
                (AppleMusic.album apple_track)).
  counters. lia.
Qed.

(** One turn of the loop on an open change log: the rows it adds are about
    the track, with field title, artist or album, as many for each field
    as the counter of that field grows; it adds some exactly when the
    track is not skipped and needs a change. *)
Lemma clean_track_rows (run : Run) (track : Plex.Track) :
  CleanLogger.conn_open (clean_logger run) = true ->
  exists rows,
    CleanLogger.cleaned
      (clean_logger
         (clean_track rt server apple_tracks cleaned_tracks run track))
    = CleanLogger.cleaned (clean_logger run) ++ rows
    /\ CleanLogger.conn_open
         (clean_logger
            (clean_track rt server apple_tracks cleaned_tracks run track))
       = true
    /\ title_updates
         (stats (clean_track rt server apple_tracks cleaned_tracks run track))
       = title_updates (stats run)
         + length (filter (fun row => CleanLogger.field row = "title") rows)
    /\ artist_updates
         (stats (clean_track rt server apple_tracks cleaned_tracks run track))
       = artist_updates (stats run)
         + length (filter (fun row => CleanLogger.field row = "artist") rows)
    /\ album_updates
         (stats (clean_track rt server apple_tracks cleaned_tracks run track))
       = album_updates (stats run)
         + length (filter (fun row => CleanLogger.field row = "album") rows)
    /\ Forall (fun row =>
                 CleanLogger.plex_rating_key row = Plex.key_text (Plex.ratingKey track)
                 /\ CleanLogger.field row ∈ ["title"; "artist"; "album"])
         rows
    /\ (rows <> []
        <-> (Plex.ratingKey track ∉ cleaned_tracks)
            /\ needs_change rt apple_tracks track = true).
Proof.
  intros Hopen. unfold clean_track, needs_change.
  destruct (bool_decide (Plex.ratingKey track ∈ cleaned_tracks)) eqn:Hkey.
  { apply bool_decide_eq_true_1 in Hkey.
    exists []. rewrite app_nil_r. unfold count, incr. cbn.
    split_and!; try done; try lia. split; [done | by intros [? _]]. }
  apply bool_decide_eq_false_1 in Hkey.
  assert (forall b : bool,
             b = false ->
             exists rows : list CleanLogger.Row,
               CleanLogger.cleaned (clean_logger run)
               = CleanLogger.cleaned (clean_logger run) ++ rows
               /\ CleanLogger.conn_open (clean_logger run) = true
               /\ title_updates (stats run)
                  = title_updates (stats run)
                    + length (filter (fun row => CleanLogger.field row = "title")
                                rows)
               /\ artist_updates (stats run)
                  = artist_updates (stats run)
                    + length (filter
                                (fun row => CleanLogger.field row = "artist")
                                rows)
               /\ album_updates (stats run)
                  = album_updates (stats run)
                    + length (filter (fun row => CleanLogger.field row = "album")
                                rows)
               /\ Forall (fun row =>
                            CleanLogger.plex_rating_key row
                            = Plex.key_text (Plex.ratingKey track)
                            /\ CleanLogger.field row
                               ∈ ["title"; "artist"; "album"]) rows
               /\ (rows <> []
                   <-> (Plex.ratingKey track ∉ cleaned_tracks) /\ b = true))
    as Hnothing.
  { intros b ->. exists []. rewrite app_nil_r. cbn.
    split_and!; try done; try lia. split; [done | by intros [_ ?]]. }
  destruct (Plex.media track) as [medias|]; [|by apply Hnothing].
  destruct (first_file medias None) as [[|c file_path]|];
    try by apply Hnothing.
  destruct (match_track rt apple_tracks _) as [apple_track|];
    [|by apply Hnothing].
  clear Hnothing.
  exists (change_entries rt (length (CleanLogger.cleaned (clean_logger run)))
            track apple_track).
  destruct (change_entries_by_field rt
              (length (CleanLogger.cleaned (clean_logger run)))
              track apple_track) as (Ht & Ha & Hb & Hlen & Hrows).
  rewrite Ht, Ha, Hb.
  destruct (compare_and_update_continues rt (fun _ => True) server
              (count "matched_tracks" run) track apple_track I)
    as (_ & _ & Hconn).
  rewrite compare_and_update_stats.
  rewrite (compare_and_update_rows rt server (count "matched_tracks" run))
    by exact Hopen.
  split_and!; try done.
  - by rewrite Hconn.
  - split.
    + intros Hne. split; [done|].
      destruct (change_entries rt _ track apple_track) eqn:Hrows'; [done|].
      simpl in Hlen. unfold differs in Hlen.
      destruct (py_ne (Plex.title track) _), (py_ne (track_artist track) _),
        (py_ne (Plex.parentTitle track) _); try done; simpl in Hlen; lia.
    + intros [_ Hneeds] Hnil. rewrite Hnil in Hlen. simpl in Hlen.
      unfold differs in Hlen.
      destruct (py_ne (Plex.title track) _), (py_ne (track_artist track) _),
        (py_ne (Plex.parentTitle track) _); try done; simpl in Hlen; lia.
Qed.

End StepFacts.

Section FoldFacts.
Import Orchestrator.
Context (rt : Runtime) (server : Plex.Server)
        (apple_tracks : dict AppleMusic.Metadata)
        (cleaned_tracks : gset string).

Lemma clean_loop_counters (plex_tracks : list Plex.Track) (n : nat)
    (run : Run) :
  matched_tracks (stats run) + skipped_tracks (stats run) <= n
  /\ updated_tracks (stats run) <= matched_tracks (stats run)
  /\ title_updates (stats run) <= updated_tracks (stats run)
  /\ artist_updates (stats run) <= updated_tracks (stats run)
  /\ album_updates (stats run) <= updated_tracks (stats run)
  /\ updated_tracks (stats run)
     <= title_updates (stats run) + artist_updates (stats run)
        + album_updates (stats run)
  /\ length (edits run) <= updated_tracks (stats run) ->
  let final :=
    fold_left (clean_track rt server apple_tracks cleaned_tracks)
      plex_tracks run in
  total_tracks (stats final) = total_tracks (stats run)
  /\ matched_tracks (stats final) + skipped_tracks (stats final)
     <= n + length plex_tracks
  /\ updated_tracks (stats final) <= matched_tracks (stats final)
  /\ title_updates (stats final) <= updated_tracks (stats final)
  /\ artist_updates (stats final) <= updated_tracks (stats final)
  /\ album_updates (stats final) <= updated_tracks (stats final)
  /\ updated_tracks (stats final)
     <= title_updates (stats final) + artist_updates (stats final)
        + album_updates (stats final)
  /\ length (edits final) <= updated_tracks (stats final).
Proof.
  revert n run. induction plex_tracks as [|track plex_tracks IH];
    intros n run Hinv; cbn zeta.
  - cbn [fold_left length]. rewrite Nat.add_0_r. by split.
  - cbn [fold_left length].
    destruct (clean_track_counters rt server apple_tracks cleaned_tracks
                n run track Hinv) as (Htotal & Hstep).
    specialize (IH (S n) _ Hstep). cbn zeta in IH.
    rewrite Htotal in IH. by rewrite Nat.add_succ_r.
Qed.

Lemma clean_loop_rows (plex_tracks : list Plex.Track) (run : Run) :
  CleanLogger.conn_open (clean_logger run) = true ->
  let final :=
    fold_left (clean_track rt server apple_tracks cleaned_tracks)
      plex_tracks run in
  exists rows,
    CleanLogger.cleaned (clean_logger final)
    = CleanLogger.cleaned (clean_logger run) ++ rows
    /\ CleanLogger.conn_open (clean_logger final) = true
    /\ title_updates (stats final)
       = title_updates (stats run)
         + length (filter (fun row => CleanLogger.field row = "title") rows)
    /\ artist_updates (stats final)
       = artist_updates (stats run)
         + length (filter (fun row => CleanLogger.field row = "artist") rows)
    /\ album_updates (stats final)
       = album_updates (stats run)
         + length (filter (fun row => CleanLogger.field row = "album") rows)
    /\ Forall (fun row =>
                 (exists track,
                     track ∈ plex_tracks
                     /\ Plex.ratingKey track ∉ cleaned_tracks
                     /\ CleanLogger.plex_rating_key row
                        = Plex.key_text (Plex.ratingKey track))
                 /\ CleanLogger.field row ∈ ["title"; "artist"; "album"])
         rows
    /\ (forall track,
          track ∈ plex_tracks ->
          Plex.ratingKey track ∉ cleaned_tracks ->
          needs_change rt apple_tracks track = true ->
          Plex.key_text (Plex.ratingKey track)
          ∈ CleanLogger.plex_rating_key <$> rows).
Proof.
  revert run. induction plex_tracks as [|track plex_tracks IH];
    intros run Hopen; cbn zeta.
  - exists []. rewrite app_nil_r. cbn. split_and!; try done; try lia.
    intros track Hin. by apply elem_of_nil in Hin.
  - cbn [fold_left].
    destruct (clean_track_rows rt server apple_tracks cleaned_tracks run
                track Hopen)
      as (rows & Hrows & Hopen' & Ht & Ha & Hb & Hhere & Hsome).
    destruct (IH _ Hopen')
      as (rows' & Hrows' & Hopen'' & Ht' & Ha' & Hb' & Hthere & Hall).
    exists (rows ++ rows').
    rewrite !filter_app, !length_app.
    split_and!; try done.
    + by rewrite Hrows', Hrows, app_assoc.
    + lia.
    + lia.
    + lia.
    + apply Forall_app. split.
      * assert (rows <> [] -> Plex.ratingKey track ∉ cleaned_tracks)
          as Hfresh by (intros Hne; by apply Hsome in Hne as [? _]).
        apply Forall_forall. intros row Hin.
        rewrite Forall_forall in Hhere.
        destruct (Hhere row Hin) as [Hrow Hfield]. split; [|done].
        exists track. split_and!; [apply elem_of_cons; by left| |done].
        apply Hfresh. intros ->. by apply elem_of_nil in Hin.
      * eapply Forall_impl; [exact Hthere|].
        intros row [(other & Hin & Hkey & Hrow) Hfield]. split; [|done].
        exists other. split_and!; [apply elem_of_cons; by right|done|done].
    + intros other Hin Hkey Hneeds. rewrite fmap_app. apply elem_of_app.
      apply elem_of_cons in Hin as [->|Hin].
      * left.
        assert (rows <> []) as Hne by (by apply Hsome).
        destruct rows as [|row rows]; [done|].
        apply Forall_cons in Hhere as [[Hrow _] _].
        csimpl. rewrite Hrow. apply elem_of_cons. by left.
      * right. by apply Hall.
Qed.

End FoldFacts.

(** X13.  The counters of every clean run are consistent: [total_tracks] is the
    number of managed tracks; matched and skipped tracks together are at
    most that many; a track is counted as updated only if matched, and each
    of the three field counters is at most [updated_tracks], which is at
    most their sum; the run sends at most one write per updated track. *)
Theorem clean_run_counters (rt : Runtime) (server : Plex.Server)
    (plex_tracks : list Plex.Track) (apple_tracks : dict AppleMusic.Metadata)
    (clean_logger : CleanLogger.t) :
  Orchestrator.total_tracks
    (Orchestrator.stats
       (Orchestrator.clean_tracks rt server plex_tracks apple_tracks
          clean_logger))
  = length plex_tracks
  /\ Orchestrator.matched_tracks
       (Orchestrator.stats
          (Orchestrator.clean_tracks rt server plex_tracks apple_tracks
             clean_logger))
     + Orchestrator.skipped_tracks
         (Orchestrator.stats
            (Orchestrator.clean_tracks rt server plex_tracks apple_tracks
               clean_logger))
     <= length plex_tracks
  /\ Orchestrator.updated_tracks
       (Orchestrator.stats
          (Orchestrator.clean_tracks rt server plex_tracks apple_tracks
             clean_logger))
     <= Orchestrator.matched_tracks
          (Orchestrator.stats
             (Orchestrator.clean_tracks rt server plex_tracks apple_tracks
                clean_logger))
  /\ Orchestrator.title_updates
       (Orchestrator.stats
          (Orchestrator.clean_tracks rt server plex_tracks apple_tracks
             clean_logger))
     <= Orchestrator.updated_tracks
          (Orchestrator.stats
             (Orchestrator.clean_tracks rt server plex_tracks apple_tracks
                clean_logger))
  /\ Orchestrator.artist_updates
       (Orchestrator.stats
          (Orchestrator.clean_tracks rt server plex_tracks apple_tracks
             clean_logger))
     <= Orchestrator.updated_tracks
          (Orchestrator.stats
             (Orchestrator.clean_tracks rt server plex_tracks apple_tracks
                clean_logger))
  /\ Orchestrator.album_updates
       (Orchestrator.stats
          (Orchestrator.clean_tracks rt server plex_tracks apple_tracks
             clean_logger))
     <= Orchestrator.updated_tracks
          (Orchestrator.stats
             (Orchestrator.clean_tracks rt server plex_tracks apple_tracks
                clean_logger))
  /\ Orchestrator.updated_tracks
       (Orchestrator.stats
          (Orchestrator.clean_tracks rt server plex_tracks apple_tracks
             clean_logger))
     <= Orchestrator.title_updates
          (Orchestrator.stats
             (Orchestrator.clean_tracks rt server plex_tracks apple_tracks
                clean_logger))
        + Orchestrator.artist_updates
            (Orchestrator.stats
               (Orchestrator.clean_tracks rt server plex_tracks apple_tracks
                  clean_logger))
        + Orchestrator.album_updates
            (Orchestrator.stats
               (Orchestrator.clean_tracks rt server plex_tracks apple_tracks
                  clean_logger))
  /\ length
       (Orchestrator.edits
          (Orchestrator.clean_tracks rt server plex_tracks apple_tracks
             clean_logger))
     <= Orchestrator.updated_tracks
          (Orchestrator.stats
             (Orchestrator.clean_tracks rt server plex_tracks apple_tracks
                clean_logger)).
Proof.
  unfold Orchestrator.clean_tracks.
  match goal with |- context [fold_left ?f ?l ?run] =>
    pose proof (clean_loop_counters rt server apple_tracks
                  (CleanLogger.get_cleaned_tracks clean_logger) l 0 run)
      as Hloop end.
  cbn zeta in Hloop. apply Hloop. cbn. lia.
Qed.

(** X14.  On an open change log the counters of a clean run agree with
    the log: the run appends rows only, each under the text of the key of
    one of the managed tracks that the run did not skip (a track whose
    key the test [in get_cleaned_tracks()] did not find at the start),
    each with field title, artist or album, and as many rows of each
    field as the counter of that field shows; the log stays open. *)
Theorem clean_run_log_agrees (rt : Runtime) (server : Plex.Server)
    (plex_tracks : list Plex.Track) (apple_tracks : dict AppleMusic.Metadata)
    (clean_logger : CleanLogger.t) :
  CleanLogger.conn_open clean_logger = true ->
  exists rows,
    CleanLogger.cleaned
      (Orchestrator.clean_logger
         (Orchestrator.clean_tracks rt server plex_tracks apple_tracks
            clean_logger))
    = CleanLogger.cleaned clean_logger ++ rows
    /\ CleanLogger.conn_open
         (Orchestrator.clean_logger
            (Orchestrator.clean_tracks rt server plex_tracks apple_tracks
               clean_logger)) = true
    /\ length (filter (fun row => CleanLogger.field row = "title") rows)
       = Orchestrator.title_updates
           (Orchestrator.stats
              (Orchestrator.clean_tracks rt server plex_tracks apple_tracks
                 clean_logger))
    /\ length (filter (fun row => CleanLogger.field row = "artist") rows)
       = Orchestrator.artist_updates
           (Orchestrator.stats
              (Orchestrator.clean_tracks rt server plex_tracks apple_tracks
                 clean_logger))
    /\ length (filter (fun row => CleanLogger.field row = "album") rows)
       = Orchestrator.album_updates
           (Orchestrator.stats
              (Orchestrator.clean_tracks rt server plex_tracks apple_tracks
                 clean_logger))
    /\ Forall (fun row =>
                 (exists track,
                     track ∈ plex_tracks
                     /\ (Plex.ratingKey track
                         ∉ CleanLogger.get_cleaned_tracks clean_logger)
                     /\ CleanLogger.plex_rating_key row
                        = Plex.key_text (Plex.ratingKey track))
                 /\ CleanLogger.field row ∈ ["title"; "artist"; "album"])
         rows.
Proof.
  intros Hopen. unfold Orchestrator.clean_tracks.
  match goal with |- context [fold_left ?f ?l ?run] =>
    destruct (clean_loop_rows rt server apple_tracks
                (CleanLogger.get_cleaned_tracks clean_logger) l run Hopen)
      as (rows & Hrows & Hopen' & Ht & Ha & Hb & Hkeys & _) end.
  cbn [Orchestrator.clean_logger Orchestrator.stats] in Hrows, Ht, Ha, Hb.
  exists rows. by split_and!.
Qed.

Lemma clean_run_log_agrees_witness :
  exists rows,
    CleanLogger.cleaned
      (Orchestrator.clean_logger
         (Orchestrator.clean_tracks Posix.runtime (Scenario.server false)
            [Scenario.track_n; Scenario.track_a] Scenario.source_catalog
            CleanLogger.fresh))
    = CleanLogger.cleaned CleanLogger.fresh ++ rows
    /\ length (filter (fun row => CleanLogger.field row = "title") rows)
       = Orchestrator.title_updates
           (Orchestrator.stats
              (Orchestrator.clean_tracks Posix.runtime (Scenario.server false)
                 [Scenario.track_n; Scenario.track_a] Scenario.source_catalog
                 CleanLogger.fresh))
    /\ Forall (fun row =>
                 (exists track,
                     track ∈ [Scenario.track_n; Scenario.track_a]
                     /\ (Plex.ratingKey track
                         ∉ CleanLogger.get_cleaned_tracks CleanLogger.fresh)
                     /\ CleanLogger.plex_rating_key row
                        = Plex.key_text (Plex.ratingKey track))
                 /\ CleanLogger.field row ∈ ["title"; "artist"; "album"])
         rows.
Proof.
  destruct (clean_run_log_agrees Posix.runtime (Scenario.server false)
              [Scenario.track_n; Scenario.track_a] Scenario.source_catalog
              CleanLogger.fresh eq_refl)
    as (rows & Hrows & _ & Htitle & _ & _ & Hkeys).
  exists rows. split_and!; [exact Hrows | exact Htitle | exact Hkeys].
Defined.

Section RerunFacts.
Import Orchestrator.
Context (rt : Runtime) (server : Plex.Server)
        (apple_tracks : dict AppleMusic.Metadata)
        (cleaned_tracks : gset string).

Lemma clean_track_idle (run : Run) (track : Plex.Track) :
  Plex.ratingKey track ∈ cleaned_tracks
  \/ needs_change rt apple_tracks track = false ->
  clean_logger (clean_track rt server apple_tracks cleaned_tracks run track)
  = clean_logger run
  /\ edits (clean_track rt server apple_tracks cleaned_tracks run track)
     = edits run
  /\ updated_tracks
       (stats (clean_track rt server apple_tracks cleaned_tracks run track))
     = updated_tracks (stats run)
  /\ title_updates
       (stats (clean_track rt server apple_tracks cleaned_tracks run track))
     = title_updates (stats run)
  /\ artist_updates
       (stats (clean_track rt server apple_tracks cleaned_tracks run track))
     = artist_updates (stats run)
  /\ album_updates
       (stats (clean_track rt server apple_tracks cleaned_tracks run track))
     = album_updates (stats run).
Proof.
  intros Hidle. unfold clean_track.
  destruct (bool_decide (Plex.ratingKey track ∈ cleaned_tracks)) eqn:Hkey;
    [done|].
  apply bool_decide_eq_false_1 in Hkey.
  destruct Hidle as [Hin|Hsame]; [done|].
  unfold needs_change in Hsame.
  destruct (Plex.media track) as [medias|]; [|done].
  destruct (first_file medias None) as [[|c file_path]|]; try done.
  destruct (match_track rt apple_tracks _) as [apple_track|]; [|done].
  apply orb_false_elim in Hsame as [Hsame Halbum].
  apply orb_false_elim in Hsame as [Htitle Hartist].
  unfold compare_and_update. by rewrite Htitle, Hartist, Halbum.
Qed.

Lemma clean_loop_idle (plex_tracks : list Plex.Track) (run : Run) :
  Forall (fun track =>
            Plex.ratingKey track ∈ cleaned_tracks
            \/ needs_change rt apple_tracks track = false) plex_tracks ->
  clean_logger
    (fold_left (clean_track rt server apple_tracks cleaned_tracks)
       plex_tracks run)
  = clean_logger run
  /\ edits
       (fold_left (clean_track rt server apple_tracks cleaned_tracks)
          plex_tracks run)
     = edits run
  /\ updated_tracks
       (stats
          (fold_left (clean_track rt server apple_tracks cleaned_tracks)
             plex_tracks run))
     = updated_tracks (stats run)
  /\ title_updates
       (stats
          (fold_left (clean_track rt server apple_tracks cleaned_tracks)
             plex_tracks run))
     = title_updates (stats run)
  /\ artist_updates
       (stats
          (fold_left (clean_track rt server apple_tracks cleaned_tracks)
             plex_tracks run))
     = artist_updates (stats run)
  /\ album_updates
       (stats
          (fold_left (clean_track rt server apple_tracks cleaned_tracks)
             plex_tracks run))
     = album_updates (stats run).
Proof.
  revert run. induction plex_tracks as [|track plex_tracks IH];
    intros run Hidle; [done|].
  apply Forall_cons in Hidle as [Hhere Hthere]. cbn [fold_left].
  destruct (clean_track_idle run track Hhere)
    as (Hlog & Hedits & Hu & Ht & Ha & Hb).
  destruct (IH (clean_track rt server apple_tracks cleaned_tracks run track)
              Hthere) as (Hlog' & Hedits' & Hu' & Ht' & Ha' & Hb').
  split_and!; congruence.
Qed.

End RerunFacts.

(** X15.  A clean run is not repeated on tracks whose key is a string.
    After a run on an open change log, a second run over tracks of the
    first run whose keys are strings, read as they were then (as when the
    server rejected the writes, or has not applied them yet), with the
    same catalog and on the log the first run left, changes nothing: it
    logs no row, sends no write and counts no update, whatever the
    server of the second run is. *)
Theorem second_clean_run_is_idle (rt : Runtime) (server server' : Plex.Server)
    (plex_tracks plex_tracks' : list Plex.Track)
    (apple_tracks : dict AppleMusic.Metadata) (clean_logger : CleanLogger.t) :
  CleanLogger.conn_open clean_logger = true ->
  plex_tracks' ⊆ plex_tracks ->
  Forall (fun track => exists key, Plex.ratingKey track = Plex.StrKey key)
    plex_tracks' ->
  Orchestrator.clean_logger
    (Orchestrator.clean_tracks rt server' plex_tracks' apple_tracks
       (Orchestrator.clean_logger
          (Orchestrator.clean_tracks rt server plex_tracks apple_tracks
             clean_logger)))
  = Orchestrator.clean_logger
      (Orchestrator.clean_tracks rt server plex_tracks apple_tracks
         clean_logger)
  /\ Orchestrator.edits
       (Orchestrator.clean_tracks rt server' plex_tracks' apple_tracks
          (Orchestrator.clean_logger
             (Orchestrator.clean_tracks rt server plex_tracks apple_tracks
                clean_logger)))
     = []
  /\ Orchestrator.updated_tracks
       (Orchestrator.stats
          (Orchestrator.clean_tracks rt server' plex_tracks' apple_tracks
             (Orchestrator.clean_logger
                (Orchestrator.clean_tracks rt server plex_tracks apple_tracks
                   clean_logger))))
     = 0
  /\ Orchestrator.title_updates
       (Orchestrator.stats
          (Orchestrator.clean_tracks rt server' plex_tracks' apple_tracks
             (Orchestrator.clean_logger
                (Orchestrator.clean_tracks rt server plex_tracks apple_tracks
                   clean_logger))))
     = 0
  /\ Orchestrator.artist_updates
       (Orchestrator.stats
          (Orchestrator.clean_tracks rt server' plex_tracks' apple_tracks
             (Orchestrator.clean_logger
                (Orchestrator.clean_tracks rt server plex_tracks apple_tracks
                   clean_logger))))
     = 0
  /\ Orchestrator.album_updates
       (Orchestrator.stats
          (Orchestrator.clean_tracks rt server' plex_tracks' apple_tracks
             (Orchestrator.clean_logger
                (Orchestrator.clean_tracks rt server plex_tracks apple_tracks
                   clean_logger))))
     = 0.
Proof.
  intros Hopen Hsub Hstr.
  set (first := Orchestrator.clean_tracks rt server plex_tracks apple_tracks
                  clean_logger).
  assert (exists rows,
             CleanLogger.cleaned (Orchestrator.clean_logger first)
             = CleanLogger.cleaned clean_logger ++ rows
             /\ CleanLogger.conn_open (Orchestrator.clean_logger first) = true
             /\ forall track,
                  track ∈ plex_tracks ->
                  Plex.ratingKey track
                  ∉ CleanLogger.get_cleaned_tracks clean_logger ->
                  Orchestrator.needs_change rt apple_tracks track = true ->
                  Plex.key_text (Plex.ratingKey track)
                  ∈ CleanLogger.plex_rating_key <$> rows)
    as (rows & Hrows & Hopen' & Hlogged).
  { subst first. unfold Orchestrator.clean_tracks.
    match goal with |- context [fold_left ?f ?l ?run] =>
      destruct (clean_loop_rows rt server apple_tracks
                  (CleanLogger.get_cleaned_tracks clean_logger) l run Hopen)
        as (rows & Hrows & Hopen' & _ & _ & _ & _ & Hlogged) end.
    by exists rows. }
  assert (Forall (fun track =>
                    Plex.ratingKey track
                    ∈ CleanLogger.get_cleaned_tracks
                        (Orchestrator.clean_logger first)
                    \/ Orchestrator.needs_change rt apple_tracks track = false)
            plex_tracks') as Hidle.
  { apply Forall_forall. intros track Hin.
    rewrite Forall_forall in Hstr. destruct (Hstr track Hin) as [key Hkey].
    apply Hsub in Hin.
    destruct (Orchestrator.needs_change rt apple_tracks track) eqn:Hneeds;
      [left | by right].
    rewrite Hkey. apply key_in_str.
    unfold CleanLogger.get_cleaned_tracks. rewrite Hopen', Hrows. cbn.
    rewrite fmap_app, list_to_set_app, elem_of_union, !elem_of_list_to_set.
    destruct (decide (key
                      ∈ CleanLogger.plex_rating_key
                          <$> CleanLogger.cleaned clean_logger))
      as [Hold|Hnew]; [by left|right].
    specialize (Hlogged track Hin). rewrite Hkey in Hlogged.
    apply Hlogged; [|done]. intros Hhas%key_in_str.
    unfold CleanLogger.get_cleaned_tracks in Hhas. rewrite Hopen in Hhas.
    cbn in Hhas. by rewrite elem_of_list_to_set in Hhas. }
  unfold Orchestrator.clean_tracks.
  match goal with |- context [fold_left ?f ?l ?run] =>
    destruct (clean_loop_idle rt server' apple_tracks _ l run Hidle)
      as (Hlog & Hedits & Hu & Ht & Ha & Hb) end.
  by split_and!.
Qed.

Lemma second_clean_run_is_idle_witness :
  Orchestrator.clean_logger
    (Orchestrator.clean_tracks Posix.runtime (Scenario.server true)
       [Scenario.track_a; Scenario.track_c] Scenario.source_catalog
       (Orchestrator.clean_logger
          (Orchestrator.clean_tracks Posix.runtime (Scenario.server false)
             [Scenario.track_n; Scenario.track_a; Scenario.track_c]
             Scenario.source_catalog CleanLogger.fresh)))
  = Orchestrator.clean_logger
      (Orchestrator.clean_tracks Posix.runtime (Scenario.server false)
         [Scenario.track_n; Scenario.track_a; Scenario.track_c]
         Scenario.source_catalog CleanLogger.fresh)
  /\ Orchestrator.edits
       (Orchestrator.clean_tracks Posix.runtime (Scenario.server true)
          [Scenario.track_a; Scenario.track_c] Scenario.source_catalog
          (Orchestrator.clean_logger
             (Orchestrator.clean_tracks Posix.runtime (Scenario.server false)
                [Scenario.track_n; Scenario.track_a; Scenario.track_c]
                Scenario.source_catalog CleanLogger.fresh)))
     = [].
Proof.
  destruct (second_clean_run_is_idle Posix.runtime (Scenario.server false)
              (Scenario.server true)
              [Scenario.track_n; Scenario.track_a; Scenario.track_c]
              [Scenario.track_a; Scenario.track_c] Scenario.source_catalog
              CleanLogger.fresh eq_refl)
    as (Hlog & Hedits & _).
  - intros track Hin. apply elem_of_cons. by right.
  - repeat constructor; by eexists.
  - by split.
Defined.

(** ** What is logged and what is written *)

Section SentFacts.
Import Orchestrator.
Context (rt : Runtime) (server : Plex.Server).

(** The writes of [compare_and_update] are those of
    [update_track_metadata] on the three source values, sent when some
    field differs. *)
Lemma compare_and_update_sent (run : Run) (track : Plex.Track)
    (apple_track : AppleMusic.Metadata) :
  edits (compare_and_update rt server run track apple_track)
  = edits run
    ++ (if py_ne (Plex.title track) (AppleMusic.title apple_track)
           || py_ne (track_artist track) (AppleMusic.artist apple_track)
           || py_ne (Plex.parentTitle track) (AppleMusic.album apple_track)
        then (Plex.update_track_metadata server track
                (AppleMusic.title apple_track) (AppleMusic.artist apple_track)
                (AppleMusic.album apple_track)).2
        else []).
Proof.
  cases track apple_track;
    try destruct (Plex.update_track_metadata _ _ _ _ _) as [ok sent];
    unfold count, log_change; cbn [edits stats clean_logger orb snd];
    by rewrite ?app_nil_r.
Qed.

Lemma track_artist_override (track : Plex.Track) (v : string) :
  Plex.originalTitle track = Some v -> v <> "" ->
  track_artist track = Some v.
Proof.
  intros Hov Hv. unfold track_artist, py_or. rewrite Hov.
  by destruct v.
Qed.

End SentFacts.

(** X16.  A logged change with a value is requested from the server.  When
    [compare_and_update] adds a row whose new value is a string (for the
    artist: a non-empty one), it sends one write, to that track, which
    sets the field of the row to that value: [title] for a title row,
    [originalTitle] for an artist row, [parentTitle] for an album row. *)
Theorem logged_values_are_requested (rt : Runtime) (server : Plex.Server)
    (run : Orchestrator.Run) (track : Plex.Track)
    (apple_track : AppleMusic.Metadata) (rows : list CleanLogger.Row)
    (row : CleanLogger.Row) (v : string) :
  CleanLogger.conn_open (Orchestrator.clean_logger run) = true ->
  CleanLogger.cleaned
    (Orchestrator.clean_logger
       (Orchestrator.compare_and_update rt server run track apple_track))
  = CleanLogger.cleaned (Orchestrator.clean_logger run) ++ rows ->
  row ∈ rows ->
  CleanLogger.new_value row = Some v ->
  (CleanLogger.field row = "artist" -> v <> "") ->
  exists call,
    Orchestrator.edits
      (Orchestrator.compare_and_update rt server run track apple_track)
    = Orchestrator.edits run ++ [call]
    /\ Plex.target call = Plex.ratingKey track
    /\ Plex.accepted call = Plex.edit server track (Plex.update_fields call)
    /\ (CleanLogger.field row = "title"
        /\ dict_get (Plex.update_fields call) "title" = Some v
        \/ CleanLogger.field row = "artist"
           /\ dict_get (Plex.update_fields call) "originalTitle" = Some v
        \/ CleanLogger.field row = "album"
           /\ dict_get (Plex.update_fields call) "parentTitle" = Some v).
Proof.
  intros Hopen Hrows Hin Hnew Hartist.
  rewrite (compare_and_update_rows rt server run track apple_track Hopen)
    in Hrows.
  apply app_inv_head in Hrows. subst rows.
  rewrite compare_and_update_sent.
  unfold Orchestrator.change_entries in Hin.
  assert (forall field_ old new n,
             CleanLogger.new_value
               (CleanLogger.entry rt n (Plex.key_text (Plex.ratingKey track))
                  field_ old new)
             = new) as Hentry by done.
  unfold Plex.update_track_metadata.
  destruct (py_ne (Plex.title track) (AppleMusic.title apple_track))
    eqn:Htitle;
    destruct (py_ne (Orchestrator.track_artist track)
                (AppleMusic.artist apple_track)) eqn:Hart;
    destruct (py_ne (Plex.parentTitle track) (AppleMusic.album apple_track))
      eqn:Halbum;
    cbn [app orb] in Hin |- *;
    repeat (apply elem_of_cons in Hin as [->|Hin]);
    try (by apply elem_of_nil in Hin);
    cbn [CleanLogger.new_value CleanLogger.field CleanLogger.entry] in *;
    try (specialize (Hartist eq_refl));
    rewrite Hnew in *;
    try (assert (py_ne (Plex.originalTitle track) (Some v) = true) as ->
           by (apply py_ne_true; intros Hov;
               apply py_ne_true in Hart; apply Hart;
               by apply track_artist_override));
    destruct (AppleMusic.title apple_track) as [t|];
    destruct (AppleMusic.artist apple_track) as [a|];
    destruct (AppleMusic.album apple_track) as [b|];
    try discriminate;
    rewrite ?Htitle, ?Halbum;
    repeat match goal with
           | |- context [py_ne ?x ?y] => destruct (py_ne x y)
           end;
    cbn; eexists; (split; [reflexivity|]); cbn;
    (split_and!; [done | done |]);
    first [ by left | by right; left | by right; right ].
Qed.

Lemma logged_values_are_requested_witness :
  exists call,
    Orchestrator.edits
      (Orchestrator.compare_and_update Posix.runtime (Scenario.server true)
         {| Orchestrator.stats := Orchestrator.initial_stats 1;
            Orchestrator.clean_logger := CleanLogger.fresh;
            Orchestrator.edits := [] |}
         Scenario.track_a
         {| AppleMusic.title := Some "X"; AppleMusic.artist := Some "Y";
            AppleMusic.album := Some "Z" |})
    = [] ++ [call]
    /\ Plex.target call = Plex.StrKey "101"
    /\ Plex.accepted call = true
    /\ dict_get (Plex.update_fields call) "title" = Some "X".
Proof.
  destruct (logged_values_are_requested Posix.runtime (Scenario.server true)
              {| Orchestrator.stats := Orchestrator.initial_stats 1;
                 Orchestrator.clean_logger := CleanLogger.fresh;
                 Orchestrator.edits := [] |}
              Scenario.track_a
              {| AppleMusic.title := Some "X"; AppleMusic.artist := Some "Y";
                 AppleMusic.album := Some "Z" |}
              [CleanLogger.entry Posix.runtime 1 "101" "title" (Some "Old")
                 (Some "X")]
              (CleanLogger.entry Posix.runtime 1 "101" "title" (Some "Old")
                 (Some "X"))
              "X" eq_refl eq_refl)
    as (call & Hcall & Htarget & Haccepted & Hfield).
  - apply list_elem_of_singleton. reflexivity.
  - reflexivity.
  - discriminate.
  - exists call. split_and!; [exact Hcall | exact Htarget | exact Haccepted |].
    destruct Hfield as [[_ Hv]|[[Hf _]|[Hf _]]];
      [exact Hv | discriminate Hf | discriminate Hf].
Defined.

(** X17.  The change log does not show every write.  On a track without an
    artist override whose album artist already is the source artist, no
    artist change is logged or counted; yet as soon as its title or album
    differs, the write sent for the track also sets the override
    [originalTitle] to the source artist. *)
Theorem artist_override_written_unlogged (rt : Runtime) (server : Plex.Server)
    (run : Orchestrator.Run) (track : Plex.Track)
    (apple_track : AppleMusic.Metadata) (a : string) :
  CleanLogger.conn_open (Orchestrator.clean_logger run) = true ->
  Plex.originalTitle track = None ->
  Plex.grandparentTitle track = Some a ->
  AppleMusic.artist apple_track = Some a ->
  Plex.title track <> AppleMusic.title apple_track
  \/ Plex.parentTitle track <> AppleMusic.album apple_track ->
  exists call rows,
    Orchestrator.edits
      (Orchestrator.compare_and_update rt server run track apple_track)
    = Orchestrator.edits run ++ [call]
    /\ dict_get (Plex.update_fields call) "originalTitle" = Some a
    /\ CleanLogger.cleaned
         (Orchestrator.clean_logger
            (Orchestrator.compare_and_update rt server run track apple_track))
       = CleanLogger.cleaned (Orchestrator.clean_logger run) ++ rows
    /\ Forall (fun row => CleanLogger.field row <> "artist") rows
    /\ Orchestrator.artist_updates
         (Orchestrator.stats
            (Orchestrator.compare_and_update rt server run track apple_track))
       = Orchestrator.artist_updates (Orchestrator.stats run).
Proof.
  intros Hopen Hov Halbum_artist Hartist Hdiff.
  assert (py_ne (Orchestrator.track_artist track)
            (AppleMusic.artist apple_track) = false) as Hsame.
  { apply py_ne_false. unfold Orchestrator.track_artist, py_or.
    rewrite Hov. cbn. congruence. }
  assert (py_ne (Plex.title track) (AppleMusic.title apple_track)
          || py_ne (Plex.parentTitle track) (AppleMusic.album apple_track)
          = true) as Hsome.
  { apply orb_true_iff. destruct Hdiff as [Hd|Hd]; [left|right];
      by apply py_ne_true. }
  rewrite compare_and_update_sent, compare_and_update_stats.
  rewrite (compare_and_update_rows rt server run track apple_track Hopen).
  unfold Orchestrator.change_entries, Orchestrator.differs.
  rewrite Hsame, Hartist. unfold Plex.update_track_metadata.
  rewrite Hov.
  assert (py_ne None (Some a) = true) as -> by done.
  destruct (py_ne (Plex.title track) (AppleMusic.title apple_track));
    destruct (py_ne (Plex.parentTitle track) (AppleMusic.album apple_track));
    try discriminate Hsome;
    destruct (AppleMusic.title apple_track) as [t|];
    destruct (AppleMusic.album apple_track) as [b|];
    cbn; eexists; eexists;
    (split_and!; [reflexivity | done | reflexivity | | lia]);
    repeat constructor; cbn; discriminate.
Qed.

Lemma artist_override_written_unlogged_witness :
  exists call rows,
    Orchestrator.edits
      (Orchestrator.compare_and_update Posix.runtime (Scenario.server true)
         {| Orchestrator.stats := Orchestrator.initial_stats 1;
            Orchestrator.clean_logger := CleanLogger.fresh;
            Orchestrator.edits := [] |}
         Scenario.track_a
         {| AppleMusic.title := Some "X"; AppleMusic.artist := Some "Y";
            AppleMusic.album := Some "Z" |})
    = [] ++ [call]
    /\ dict_get (Plex.update_fields call) "originalTitle" = Some "Y"
    /\ CleanLogger.cleaned
         (Orchestrator.clean_logger
            (Orchestrator.compare_and_update Posix.runtime
               (Scenario.server true)
               {| Orchestrator.stats := Orchestrator.initial_stats 1;
                  Orchestrator.clean_logger := CleanLogger.fresh;
                  Orchestrator.edits := [] |}
               Scenario.track_a
               {| AppleMusic.title := Some "X"; AppleMusic.artist := Some "Y";
                  AppleMusic.album := Some "Z" |}))
       = [] ++ rows
    /\ Forall (fun row => CleanLogger.field row <> "artist") rows.
Proof.
  destruct (artist_override_written_unlogged Posix.runtime
              (Scenario.server true)
              {| Orchestrator.stats := Orchestrator.initial_stats 1;
                 Orchestrator.clean_logger := CleanLogger.fresh;
                 Orchestrator.edits := [] |}
              Scenario.track_a
              {| AppleMusic.title := Some "X"; AppleMusic.artist := Some "Y";
                 AppleMusic.album := Some "Z" |}
              "Y" eq_refl eq_refl eq_refl eq_refl)
    as (call & rows & Hcall & Hfield & Hrows & Hnone & _).
  - left. discriminate.
  - exists call, rows. split_and!; assumption.
Defined.

(** X18.  A source value that is missing is logged, never written.  When the
    source has no title, no artist and no album for a matched track that
    shows at least one of them, the track is logged, with rows whose new
    value is [None], and counted as updated, but no write is sent. *)
Theorem missing_source_values_logged_not_written (rt : Runtime)
    (server : Plex.Server) (run : Orchestrator.Run) (track : Plex.Track)
    (apple_track : AppleMusic.Metadata) :
  CleanLogger.conn_open (Orchestrator.clean_logger run) = true ->
  AppleMusic.title apple_track = None ->
  AppleMusic.artist apple_track = None ->
  AppleMusic.album apple_track = None ->
  Plex.title track <> None
  \/ Orchestrator.track_artist track <> None
  \/ Plex.parentTitle track <> None ->
  Orchestrator.edits
    (Orchestrator.compare_and_update rt server run track apple_track)
  = Orchestrator.edits run
  /\ Orchestrator.updated_tracks
       (Orchestrator.stats
          (Orchestrator.compare_and_update rt server run track apple_track))
     = S (Orchestrator.updated_tracks (Orchestrator.stats run))
  /\ exists row rows,
       CleanLogger.cleaned
         (Orchestrator.clean_logger
            (Orchestrator.compare_and_update rt server run track apple_track))
       = CleanLogger.cleaned (Orchestrator.clean_logger run) ++ row :: rows
       /\ Forall (fun row =>
                    CleanLogger.plex_rating_key row = Plex.key_text (Plex.ratingKey track)
                    /\ CleanLogger.new_value row = None) (row :: rows).
Proof.
  intros Hopen Htitle Hartist Halbum Hshown.
  rewrite compare_and_update_sent, compare_and_update_stats.
  rewrite (compare_and_update_rows rt server run track apple_track Hopen).
  unfold Orchestrator.change_entries, Orchestrator.differs,
    Plex.update_track_metadata.
  rewrite Htitle, Hartist, Halbum.
  assert (forall v : pystr, v <> None -> py_ne v None = true) as Hne
    by (intros v Hv; by apply py_ne_true).
  assert (forall v : pystr, py_ne v None = false -> v = None) as Heq
    by (intros v Hv; by apply py_ne_false).
  destruct (py_ne (Plex.title track) None) eqn:Ht;
    destruct (py_ne (Orchestrator.track_artist track) None) eqn:Ha;
    destruct (py_ne (Plex.parentTitle track) None) eqn:Hb;
    try (exfalso; apply Heq in Ht, Ha, Hb; by destruct Hshown as [?|[?|?]]);
    cbn; rewrite ?app_nil_r;
    (split_and!; [done | lia |]); eexists; eexists;
    (split; [reflexivity | by repeat constructor]).
Qed.

Lemma missing_source_values_logged_not_written_witness :
  Orchestrator.edits
    (Orchestrator.compare_and_update Posix.runtime (Scenario.server true)
       {| Orchestrator.stats := Orchestrator.initial_stats 1;
          Orchestrator.clean_logger := CleanLogger.fresh;
          Orchestrator.edits := [] |}
       Scenario.track_a
       {| AppleMusic.title := None; AppleMusic.artist := None;
          AppleMusic.album := None |})
  = []
  /\ Orchestrator.updated_tracks
       (Orchestrator.stats
          (Orchestrator.compare_and_update Posix.runtime
             (Scenario.server true)
             {| Orchestrator.stats := Orchestrator.initial_stats 1;
                Orchestrator.clean_logger := CleanLogger.fresh;
                Orchestrator.edits := [] |}
             Scenario.track_a
             {| AppleMusic.title := None; AppleMusic.artist := None;
                AppleMusic.album := None |}))
     = 1.
Proof.
  destruct (missing_source_values_logged_not_written Posix.runtime
              (Scenario.server true)
              {| Orchestrator.stats := Orchestrator.initial_stats 1;
                 Orchestrator.clean_logger := CleanLogger.fresh;
                 Orchestrator.edits := [] |}
              Scenario.track_a
              {| AppleMusic.title := None; AppleMusic.artist := None;
                 AppleMusic.album := None |}
              eq_refl eq_refl eq_refl eq_refl)
    as (Hedits & Hupdated & _).
  - left. discriminate.
  - split; assumption.
Defined.

(** ** The interactive clean of all artists *)

Section InteractiveFacts.
Import Interactive.
Context (rt : Runtime)
        (clean_artist_tracks : pystr -> CleanLogger.t -> exn Orchestrator.Run).

Lemma prompt_filter (answers : list string) :
  prompt rt (filter (fun line => is_Some (choice_of rt line)) answers)
  = match prompt rt answers with
    | Return (choice, rest) =>
        Return (choice,
                filter (fun line => is_Some (choice_of rt line)) rest)
    | Raise => Raise
    end.
Proof.
  induction answers as [|line answers IH]; [done|].
  rewrite filter_cons. cbn [prompt].
  destruct (choice_of rt line) as [choice|] eqn:Hchoice.
  - rewrite decide_True by (by eexists). cbn [prompt]. by rewrite Hchoice.
  - rewrite decide_False by (by intros [? ?]). exact IH.
Qed.

Lemma process_artists_filter (sorted_artists : list pystr)
    (session : Session) (answers : list string) :
  process_artists rt clean_artist_tracks sorted_artists session
    (filter (fun line => is_Some (choice_of rt line)) answers)
  = process_artists rt clean_artist_tracks sorted_artists session answers.
Proof.
  revert session answers.
  induction sorted_artists as [|artist_name sorted_artists IH];
    intros session answers; [done|].
  cbn [process_artists]. rewrite prompt_filter.
  destruct (prompt rt answers) as [[[| |] rest]|]; try done.
  destruct (clean_artist_tracks artist_name (clean_logger session)); [|done].
  apply IH.
Qed.

(** The input up to the first choice, the choice, and the input left. *)
Lemma prompt_split (pre post : list string) (line : string) :
  choice_of rt line = Some Exit ->
  (prompt rt (pre ++ line :: post) = Return (Exit, post)
   /\ prompt rt (pre ++ [line]) = Return (Exit, []))
  \/ (exists choice pre',
        prompt rt (pre ++ line :: post)
        = Return (choice, pre' ++ line :: post)
        /\ prompt rt (pre ++ [line]) = Return (choice, pre' ++ [line])).
Proof.
  intros Hexit. induction pre as [|first pre IH]; cbn [app prompt].
  - left. by rewrite Hexit.
  - destruct (choice_of rt first) as [choice|]; [|exact IH].
    right. by exists choice, pre.
Qed.

Lemma process_artists_exit (sorted_artists : list pystr) (session : Session)
    (pre post : list string) (line : string) :
  choice_of rt line = Some Exit ->
  process_artists rt clean_artist_tracks sorted_artists session
    (pre ++ line :: post)
  = process_artists rt clean_artist_tracks sorted_artists session
      (pre ++ [line]).
Proof.
  intros Hexit. revert session pre.
  induction sorted_artists as [|artist_name sorted_artists IH];
    intros session pre; [done|].
  cbn [process_artists].
  destruct (prompt_split pre post line Hexit)
    as [[-> ->]|(choice & pre' & -> & ->)]; [done|].
  destruct choice; [|apply IH|done].
  destruct (clean_artist_tracks artist_name (clean_logger session)); [|done].
  apply IH.
Qed.

Lemma prompt_shorter (answers rest : list string) (choice : Choice) :
  prompt rt answers = Return (choice, rest) ->
  length rest < length answers
  /\ (Forall (fun line => choice_of rt line <> Some Exit) answers ->
      choice <> Exit
      /\ Forall (fun line => choice_of rt line <> Some Exit) rest).
Proof.
  revert rest. induction answers as [|line answers IH]; intros rest;
    [done|].
  cbn [prompt length].
  destruct (choice_of rt line) as [c|] eqn:Hc.
  - intros [= -> ->]. split; [lia|].
    intros Hnone. apply Forall_cons in Hnone as [Hline Hrest].
    split; [congruence | exact Hrest].
  - intros Hprompt. destruct (IH _ Hprompt) as [Hlen Hnone]. split; [lia|].
    intros Hall. apply Forall_cons in Hall as [_ Hall]. by apply Hnone.
Qed.

Lemma process_artists_accounting (sorted_artists : list pystr)
    (session final : Session) (answers : list string) :
  process_artists rt clean_artist_tracks sorted_artists session answers
  = Return final ->
  total_artists (stats final) = total_artists (stats session)
  /\ total_tracks (stats final) = total_tracks (stats session)
  /\ processed_artists (stats session) <= processed_artists (stats final)
  /\ skipped_artists (stats session) <= skipped_artists (stats final)
  /\ processed_artists (stats final) + skipped_artists (stats final)
     <= processed_artists (stats session) + skipped_artists (stats session)
        + length sorted_artists
  /\ processed_artists (stats final) + skipped_artists (stats final)
     <= processed_artists (stats session) + skipped_artists (stats session)
        + length answers
  /\ (Forall (fun line => choice_of rt line <> Some Exit) answers ->
      processed_artists (stats final) + skipped_artists (stats final)
      = processed_artists (stats session) + skipped_artists (stats session)
        + length sorted_artists).
Proof.
  revert session answers.
  induction sorted_artists as [|artist_name sorted_artists IH];
    intros session answers; cbn [process_artists length].
  - intros [= <-]. split_and!; try done; lia.
  - destruct (prompt rt answers) as [[choice rest]|] eqn:Hprompt; [|done].
    destruct (prompt_shorter _ _ _ Hprompt) as [Hlen Hnone].
    destruct choice.
    + destruct (clean_artist_tracks artist_name (clean_logger session))
        as [run|]; [|done].
      intros Hfinal.
      destruct (IH _ _ Hfinal) as (Ha & Ht & Hp & Hs & Hsum & Hread & Hall).
      cbn [add_artist_stats stats total_artists total_tracks
           processed_artists skipped_artists] in *.
      split_and!; try done; try lia.
      intros Hexit. destruct (Hnone Hexit) as [_ Hrest].
      specialize (Hall Hrest). lia.
    + intros Hfinal.
      destruct (IH _ _ Hfinal) as (Ha & Ht & Hp & Hs & Hsum & Hread & Hall).
      cbn [skip_artist stats total_artists total_tracks
           processed_artists skipped_artists] in *.
      split_and!; try done; try lia.
      intros Hexit. destruct (Hnone Hexit) as [_ Hrest].
      specialize (Hall Hrest). lia.
    + intros [= <-]. split_and!; try done; try lia.
      intros Hexit. by destruct (Hnone Hexit) as [? _].
Qed.

End InteractiveFacts.

Section GroupFacts.
Import Interactive.

Lemma group_append_keys (artists_tracks : list (pystr * list Plex.Track))
    (artist : pystr) (track : Plex.Track) :
  (group_append artists_tracks artist track).*1
  = if bool_decide (artist ∈ artists_tracks.*1) then artists_tracks.*1
    else artists_tracks.*1 ++ [artist].
Proof.
  induction artists_tracks as [|[key tracks] rest IH]; [done|].
  cbn [group_append]. csimpl.
  destruct (bool_decide (key = artist)) eqn:Hkey.
  - apply bool_decide_eq_true_1 in Hkey as ->. csimpl.
    rewrite bool_decide_eq_true_2; [done|]. apply elem_of_cons. by left.
  - apply bool_decide_eq_false_1 in Hkey. csimpl. rewrite IH.
    destruct (bool_decide (artist ∈ rest.*1)) eqn:Hin.
    + apply bool_decide_eq_true_1 in Hin.
      rewrite bool_decide_eq_true_2; [done|]. apply elem_of_cons. by right.
    + apply bool_decide_eq_false_1 in Hin.
      rewrite bool_decide_eq_false_2; [done|].
      intros [?|?]%elem_of_cons; [congruence|done].
Qed.

Lemma group_keys_from (plex_tracks : list Plex.Track)
    (artists_tracks : list (pystr * list Plex.Track)) :
  NoDup artists_tracks.*1 ->
  NoDup
    (fold_left (fun artists_tracks track =>
                  group_append artists_tracks
                    (Orchestrator.track_artist track) track)
       plex_tracks artists_tracks).*1
  /\ forall artist,
       artist
       ∈ (fold_left (fun artists_tracks track =>
                       group_append artists_tracks
                         (Orchestrator.track_artist track) track)
            plex_tracks artists_tracks).*1
       <-> artist ∈ artists_tracks.*1
           \/ artist ∈ Orchestrator.track_artist <$> plex_tracks.
Proof.
  revert artists_tracks.
  induction plex_tracks as [|track plex_tracks IH];
    intros artists_tracks Hnodup; cbn [fold_left].
  - split; [done|]. intros artist. csimpl. rewrite elem_of_nil. tauto.
  - assert (NoDup (group_append artists_tracks
                     (Orchestrator.track_artist track) track).*1) as Hstep.
    { rewrite group_append_keys. case_bool_decide; [done|].
      apply NoDup_app. split_and!; [done| |apply NoDup_singleton].
      intros artist Hin ->%list_elem_of_singleton. done. }
    destruct (IH _ Hstep) as [Hfinal Hkeys]. split; [done|].
    intros artist. rewrite Hkeys, group_append_keys. csimpl.
    rewrite elem_of_cons.
    case_bool_decide as Hin.
    + split; [tauto|]. intros [?|[->|?]]; tauto.
    + rewrite elem_of_app, list_elem_of_singleton. tauto.
Qed.

Lemma group_by_artist_keys (plex_tracks : list Plex.Track) :
  NoDup (group_by_artist plex_tracks).*1
  /\ forall artist,
       artist ∈ (group_by_artist plex_tracks).*1
       <-> artist ∈ Orchestrator.track_artist <$> plex_tracks.
Proof.
  destruct (group_keys_from plex_tracks [] (NoDup_nil_2)) as [Hnodup Hkeys].
  split; [exact Hnodup|]. intros artist.
  unfold group_by_artist. rewrite Hkeys. csimpl. rewrite elem_of_nil. tauto.
Qed.

Lemma group_by_artist_count (plex_tracks : list Plex.Track) :
  length (group_by_artist plex_tracks).*1
  = length (remove_dups (Orchestrator.track_artist <$> plex_tracks)).
Proof.
  destruct (group_by_artist_keys plex_tracks) as [Hnodup Hkeys].
  apply Permutation_length, NoDup_Permutation;
    [exact Hnodup | apply NoDup_remove_dups |].
  intros artist. by rewrite Hkeys, elem_of_remove_dups.
Qed.

Lemma remove_dups_length_le {A : Type} `{EqDecision A} (l : list A) :
  length (remove_dups l) <= length l.
Proof.
  induction l as [|x l IH]; [done|]. cbn [remove_dups length].
  destruct (decide_rel elem_of x l); cbn [length]; lia.
Qed.

Lemma insert_sorted_perm (name : string) (names : list string) :
  insert_sorted name names ≡ₚ name :: names.
Proof.
  induction names as [|other rest IH]; [done|]. cbn [insert_sorted].
  destruct (String.leb name other); [done|].
  by rewrite IH, Permutation_swap.
Qed.

Lemma sort_strings_perm (names : list string) :
  sort_strings names ≡ₚ names.
Proof.
  induction names as [|name names IH]; [done|].
  unfold sort_strings. cbn [foldr]. rewrite insert_sorted_perm.
  by constructor.
Qed.

(** The order of [sort_strings] is ascending. *)
Lemma insert_sorted_ascending (name : string) (names : list string) :
  Sorted (fun a b => String.leb a b = true) names ->
  Sorted (fun a b => String.leb a b = true) (insert_sorted name names).
Proof.
  induction 1 as [|other rest Hrest IH Hhead]; cbn [insert_sorted].
  - by repeat constructor.
  - destruct (String.leb name other) eqn:Hle.
    + by repeat constructor.
    + constructor; [exact IH|].
      assert (String.leb other name = true) as Hge
        by (destruct (String.leb_total name other); congruence).
      destruct Hhead as [|next rest' Hnext]; cbn [insert_sorted].
      * by constructor.
      * destruct (String.leb name next); by constructor.
Qed.

Lemma sort_strings_ascending (names : list string) :
  Sorted (fun a b => String.leb a b = true) (sort_strings names).
Proof.
  induction names as [|name names IH]; [constructor|].
  by apply insert_sorted_ascending.
Qed.

Lemma all_strings_some (keys : list pystr) (names : list string) :
  all_strings keys = Some names -> keys = Some <$> names.
Proof.
  revert names. induction keys as [|[name|] keys IH]; intros names;
    cbn [all_strings].
  - by intros [= <-].
  - destruct (all_strings keys) as [rest|]; [|done].
    intros [= <-]. csimpl. by rewrite (IH rest).
  - done.
Qed.

Lemma sorted_perm (keys sorted_artists : list pystr) :
  sorted keys = Return sorted_artists -> sorted_artists ≡ₚ keys.
Proof.
  unfold sorted. destruct keys as [|first [|second keys]];
    try by intros [= <-].
  destruct (all_strings _) as [names|] eqn:Hall; [|done].
  intros [= <-]. apply all_strings_some in Hall as ->.
  by rewrite sort_strings_perm.
Qed.

End GroupFacts.

(** X19.  Lines that are no choice are ignored.  The interactive clean gives
    the same result on an input as on the input without the lines that
    are none of y, yes, n, no, e, exit in any letter case: a mistyped
    answer neither cleans nor skips an artist. *)
Theorem invalid_answers_are_ignored (rt : Runtime)
    (clean_artist_tracks : pystr -> CleanLogger.t -> exn Orchestrator.Run)
    (plex_client : Plex.Server) (clean_logger : CleanLogger.t)
    (answers : list string) :
  Interactive.interactive_clean_all rt clean_artist_tracks plex_client
    clean_logger
    (filter (fun line => is_Some (Interactive.choice_of rt line)) answers)
  = Interactive.interactive_clean_all rt clean_artist_tracks plex_client
      clean_logger answers.
Proof.
  unfold Interactive.interactive_clean_all.
  destruct (Interactive.sorted _) as [sorted_artists|]; [|done].
  apply process_artists_filter.
Qed.

(** X20.  The accounting of the interactive clean.  When it returns,
    [total_tracks] is the number of tracks of the library and
    [total_artists] the number of distinct artists they show (the
    override, else the album artist); the artists processed and skipped
    are at most that many, and at most the lines of input; and they are
    all of them when no line of the input is an exit. *)
Theorem interactive_clean_accounting (rt : Runtime)
    (clean_artist_tracks : pystr -> CleanLogger.t -> exn Orchestrator.Run)
    (plex_client : Plex.Server) (clean_logger : CleanLogger.t)
    (answers : list string) (session : Interactive.Session) :
  Interactive.interactive_clean_all rt clean_artist_tracks plex_client
    clean_logger answers
  = Return session ->
  Interactive.total_tracks (Interactive.stats session)
  = length (Plex.get_all_tracks plex_client)
  /\ Interactive.total_artists (Interactive.stats session)
     = length (remove_dups
                 (Orchestrator.track_artist
                    <$> Plex.get_all_tracks plex_client))
  /\ Interactive.total_artists (Interactive.stats session)
     <= Interactive.total_tracks (Interactive.stats session)
  /\ Interactive.processed_artists (Interactive.stats session)
     + Interactive.skipped_artists (Interactive.stats session)
     <= Interactive.total_artists (Interactive.stats session)
  /\ Interactive.processed_artists (Interactive.stats session)
     + Interactive.skipped_artists (Interactive.stats session)
     <= length answers
  /\ (Forall (fun line => Interactive.choice_of rt line <> Some Interactive.Exit)
        answers ->
      Interactive.processed_artists (Interactive.stats session)
      + Interactive.skipped_artists (Interactive.stats session)
      = Interactive.total_artists (Interactive.stats session)).
Proof.
  unfold Interactive.interactive_clean_all.
  destruct (Interactive.sorted _) as [sorted_artists|] eqn:Hsorted; [|done].
  intros Hfinal.
  apply process_artists_accounting in Hfinal
    as (Ha & Ht & _ & _ & Hsum & Hread & Hall).
  cbn [Interactive.stats Interactive.total_artists Interactive.total_tracks
       Interactive.processed_artists Interactive.skipped_artists] in *.
  apply sorted_perm, Permutation_length in Hsorted.
  rewrite group_by_artist_count in Hsorted.
  pose proof (remove_dups_length_le
                (Orchestrator.track_artist
                   <$> Plex.get_all_tracks plex_client)) as Hle.
  rewrite length_fmap in Hle.
  split_and!; try lia. intros Hexit. specialize (Hall Hexit). lia.
Qed.

Lemma interactive_clean_accounting_witness :
  exists session,
    Interactive.interactive_clean_all Posix.runtime
      (Interactive.clean_artist_call Posix.runtime Scenario.playlist_server
         Scenario.source (fun _ => Raise))
      Scenario.playlist_server CleanLogger.fresh ["maybe"; "Y"]
    = Return session
    /\ Interactive.total_tracks (Interactive.stats session) = 2
    /\ Interactive.total_artists (Interactive.stats session) = 1
    /\ Interactive.processed_artists (Interactive.stats session)
       + Interactive.skipped_artists (Interactive.stats session)
       = Interactive.total_artists (Interactive.stats session).
Proof.
  destruct (Interactive.interactive_clean_all Posix.runtime
              (Interactive.clean_artist_call Posix.runtime
                 Scenario.playlist_server Scenario.source (fun _ => Raise))
              Scenario.playlist_server CleanLogger.fresh ["maybe"; "Y"])
    as [session|] eqn:Hrun; [|vm_compute in Hrun; discriminate Hrun].
  exists session. split; [reflexivity|].
  destruct (interactive_clean_accounting _ _ _ _ _ _ Hrun)
    as (Htracks & Hartists & _ & _ & _ & Hall).
  split_and!; [exact Htracks | exact Hartists |].
  apply Hall. repeat constructor; vm_compute; discriminate.
Defined.

(** X21.  Nothing is read after an exit.  Whatever follows a line that is an
    exit (e or exit, in any letter case) in the input has no effect on
    the result of the interactive clean. *)
Theorem nothing_is_read_after_exit (rt : Runtime)
    (clean_artist_tracks : pystr -> CleanLogger.t -> exn Orchestrator.Run)
    (plex_client : Plex.Server) (clean_logger : CleanLogger.t)
    (pre post : list string) (line : string) :
  Interactive.choice_of rt line = Some Interactive.Exit ->
  Interactive.interactive_clean_all rt clean_artist_tracks plex_client
    clean_logger (pre ++ line :: post)
  = Interactive.interactive_clean_all rt clean_artist_tracks plex_client
      clean_logger (pre ++ [line]).
Proof.
  intros Hexit. unfold Interactive.interactive_clean_all.
  destruct (Interactive.sorted _) as [sorted_artists|]; [|done].
  by apply process_artists_exit.
Qed.

Lemma nothing_is_read_after_exit_witness :
  Interactive.interactive_clean_all Posix.runtime
    (Interactive.clean_artist_call Posix.runtime Scenario.playlist_server
       Scenario.source (fun _ => Raise))
    Scenario.playlist_server CleanLogger.fresh (["what"] ++ "EXIT" :: ["y"])
  = Interactive.interactive_clean_all Posix.runtime
      (Interactive.clean_artist_call Posix.runtime Scenario.playlist_server
         Scenario.source (fun _ => Raise))
      Scenario.playlist_server CleanLogger.fresh (["what"] ++ ["EXIT"]).
Proof.
  apply (nothing_is_read_after_exit Posix.runtime
           (Interactive.clean_artist_call Posix.runtime
              Scenario.playlist_server Scenario.source (fun _ => Raise))
           Scenario.playlist_server CleanLogger.fresh ["what"] ["y"] "EXIT").
  reflexivity.
Defined.

Section SessionFacts.
Import Interactive.
Context (rt : Runtime) (plex_client : Plex.Server)
        (apple_music_client : AppleMusic.Source)
        (on_none : CleanLogger.t -> exn Orchestrator.Run).

(** What one per-artist run adds to an open change log, and its counters. *)
Lemma clean_artist_tracks_log (clean_logger : CleanLogger.t)
    (artist_name : string) (run : Orchestrator.Run) :
  CleanLogger.conn_open clean_logger = true ->
  Orchestrator.clean_artist_tracks rt plex_client apple_music_client
    clean_logger artist_name
  = Return run ->
  exists rows,
    CleanLogger.cleaned (Orchestrator.clean_logger run)
    = CleanLogger.cleaned clean_logger ++ rows
    /\ CleanLogger.conn_open (Orchestrator.clean_logger run) = true
    /\ Orchestrator.title_updates (Orchestrator.stats run)
       = length (filter (fun row => CleanLogger.field row = "title") rows)
    /\ Orchestrator.artist_updates (Orchestrator.stats run)
       = length (filter (fun row => CleanLogger.field row = "artist") rows)
    /\ Orchestrator.album_updates (Orchestrator.stats run)
       = length (filter (fun row => CleanLogger.field row = "album") rows)
    /\ Forall (fun row =>
                 CleanLogger.field row ∈ ["title"; "artist"; "album"]) rows
    /\ length (Orchestrator.edits run)
       <= Orchestrator.updated_tracks (Orchestrator.stats run)
    /\ Orchestrator.updated_tracks (Orchestrator.stats run)
       <= Orchestrator.title_updates (Orchestrator.stats run)
          + Orchestrator.artist_updates (Orchestrator.stats run)
          + Orchestrator.album_updates (Orchestrator.stats run).
Proof.
  intros Hopen. unfold Orchestrator.clean_artist_tracks.
  destruct (AppleMusic.tracks_by_artist apple_music_client artist_name)
    as [apple_tracks|]; [|done].
  intros [= <-]. unfold Orchestrator.clean_tracks.
  match goal with |- context [fold_left ?f ?l ?run] =>
    destruct (clean_loop_rows rt plex_client apple_tracks
                (CleanLogger.get_cleaned_tracks clean_logger) l run Hopen)
      as (rows & Hrows & Hopen' & Ht & Ha & Hb & Hkeys & _);
    pose proof (clean_loop_counters rt plex_client apple_tracks
                  (CleanLogger.get_cleaned_tracks clean_logger) l 0 run)
      as Hcounters
  end.
  cbn zeta in Hcounters.
  destruct Hcounters as (_ & _ & _ & _ & _ & _ & Hsum & Hedits);
    [cbn; lia|].
  cbn [Orchestrator.clean_logger Orchestrator.stats] in Hrows, Ht, Ha, Hb.
  exists rows. split_and!; try done.
  eapply Forall_impl; [exact Hkeys|]. by intros row [_ ?].
Qed.

Lemma process_artists_log (sorted_artists : list pystr)
    (session final : Session) (answers : list string) :
  Forall is_Some sorted_artists ->
  CleanLogger.conn_open (clean_logger session) = true ->
  process_artists rt
    (clean_artist_call rt plex_client apple_music_client on_none)
    sorted_artists session answers
  = Return final ->
  exists rows,
    CleanLogger.cleaned (clean_logger final)
    = CleanLogger.cleaned (clean_logger session) ++ rows
    /\ CleanLogger.conn_open (clean_logger final) = true
    /\ title_updates (stats final)
       = title_updates (stats session)
         + length (filter (fun row => CleanLogger.field row = "title") rows)
    /\ artist_updates (stats final)
       = artist_updates (stats session)
         + length (filter (fun row => CleanLogger.field row = "artist") rows)
    /\ album_updates (stats final)
       = album_updates (stats session)
         + length (filter (fun row => CleanLogger.field row = "album") rows)
    /\ Forall (fun row =>
                 CleanLogger.field row ∈ ["title"; "artist"; "album"]) rows
    /\ length (edits final) + updated_tracks (stats session)
       <= length (edits session) + updated_tracks (stats final)
    /\ updated_tracks (stats final) <= updated_tracks (stats session)
                                       + length rows.
Proof.
  intros Hsome. revert session answers.
  induction Hsome as [|artist_name sorted_artists Hname Hsome IH];
    intros session answers Hopen; cbn [process_artists].
  - intros [= <-]. exists []. rewrite app_nil_r. cbn.
    split_and!; try done; lia.
  - destruct (prompt rt answers) as [[[| |] rest]|]; try done.
    + destruct Hname as [name ->]. cbn [clean_artist_call].
      destruct (Orchestrator.clean_artist_tracks rt plex_client
                  apple_music_client (clean_logger session) name)
        as [run|] eqn:Hrun; [|done].
      destruct (clean_artist_tracks_log _ _ _ Hopen Hrun)
        as (rows & Hrows & Hopen' & Ht & Ha & Hb & Hfields & Hedits & Hsum).
      intros Hfinal.
      destruct (IH (add_artist_stats session run) rest Hopen' Hfinal)
        as (rows' & Hrows' & Hopen'' & Ht' & Ha' & Hb' & Hfields' & Hedits'
            & Hsum').
      cbn [add_artist_stats stats clean_logger edits title_updates
           artist_updates album_updates updated_tracks] in *.
      rewrite length_app in Hedits'.
      assert (length (filter (fun row => CleanLogger.field row = "title") rows)
              + length (filter (fun row => CleanLogger.field row = "artist")
                          rows)
              + length (filter (fun row => CleanLogger.field row = "album")
                          rows)
              <= length rows) as Hparts.
      { clear -Hfields. induction Hfields as [|row rows Hrow _ IHrows];
          [done|].
        rewrite !filter_cons. cbn [length].
        repeat case_decide; cbn [length]; try lia; congruence. }
      exists (rows ++ rows').
      rewrite !filter_app, !length_app.
      split_and!; try done; try lia.
      * by rewrite Hrows', Hrows, app_assoc.
      * by apply Forall_app.
    + intros Hfinal.
      destruct (IH (skip_artist session) rest Hopen Hfinal)
        as (rows' & Hrows' & Hopen'' & Ht' & Ha' & Hb' & Hfields' & Hedits'
            & Hsum').
      by exists rows'.
    + intros [= <-]. exists []. rewrite app_nil_r. cbn.
      split_and!; try done; lia.
Qed.

End SessionFacts.

(** X22.  The totals of the interactive clean agree with the change log.  On a
    library whose tracks all show an artist and on an open change log,
    when the interactive clean returns it has only appended rows to the
    log, each of field title, artist or album; its title, artist and
    album totals are the numbers of appended rows of that field; it has
    sent at most as many writes as it counts updated tracks, and counts
    at most as many updated tracks as it appended rows. *)
Theorem interactive_clean_totals_agree_with_log (rt : Runtime)
    (plex_client : Plex.Server) (apple_music_client : AppleMusic.Source)
    (on_none : CleanLogger.t -> exn Orchestrator.Run)
    (clean_logger : CleanLogger.t) (answers : list string)
    (session : Interactive.Session) :
  CleanLogger.conn_open clean_logger = true ->
  Forall (fun track => is_Some (Orchestrator.track_artist track))
    (Plex.get_all_tracks plex_client) ->
  Interactive.interactive_clean_all rt
    (Interactive.clean_artist_call rt plex_client apple_music_client on_none)
    plex_client clean_logger answers
  = Return session ->
  exists rows,
    CleanLogger.cleaned (Interactive.clean_logger session)
    = CleanLogger.cleaned clean_logger ++ rows
    /\ CleanLogger.conn_open (Interactive.clean_logger session) = true
    /\ Interactive.title_updates (Interactive.stats session)
       = length (filter (fun row => CleanLogger.field row = "title") rows)
    /\ Interactive.artist_updates (Interactive.stats session)
       = length (filter (fun row => CleanLogger.field row = "artist") rows)
    /\ Interactive.album_updates (Interactive.stats session)
       = length (filter (fun row => CleanLogger.field row = "album") rows)
    /\ Forall (fun row =>
                 CleanLogger.field row ∈ ["title"; "artist"; "album"]) rows
    /\ length (Interactive.edits session)
       <= Interactive.updated_tracks (Interactive.stats session)
    /\ Interactive.updated_tracks (Interactive.stats session) <= length rows.
Proof.
  intros Hopen Hartists. unfold Interactive.interactive_clean_all.
  destruct (Interactive.sorted _) as [sorted_artists|] eqn:Hsorted; [|done].
  intros Hfinal.
  assert (Forall is_Some sorted_artists) as Hsome.
  { apply Forall_forall. intros artist Hin.
    apply sorted_perm in Hsorted. rewrite Hsorted in Hin.
    apply group_by_artist_keys in Hin.
    apply list_elem_of_fmap in Hin as (track & -> & Hin).
    rewrite Forall_forall in Hartists. by apply Hartists. }
  apply (process_artists_log rt plex_client apple_music_client on_none
           _ _ _ _ Hsome) in Hfinal
    as (rows & Hrows & Hopen' & Ht & Ha & Hb & Hfields & Hedits & Hsum);
    [|exact Hopen].
  cbn [Interactive.stats Interactive.clean_logger Interactive.edits
       Interactive.title_updates Interactive.artist_updates
       Interactive.album_updates Interactive.updated_tracks length] in *.
  exists rows. split_and!; try done; lia.
Qed.

Lemma interactive_clean_totals_agree_with_log_witness :
  exists session rows,
    Interactive.interactive_clean_all Posix.runtime
      (Interactive.clean_artist_call Posix.runtime Scenario.playlist_server
         Scenario.source (fun _ => Raise))
      Scenario.playlist_server CleanLogger.fresh ["maybe"; "Y"]
    = Return session
    /\ CleanLogger.cleaned (Interactive.clean_logger session)
       = CleanLogger.cleaned CleanLogger.fresh ++ rows
    /\ Interactive.title_updates (Interactive.stats session)
       = length (filter (fun row => CleanLogger.field row = "title") rows).
Proof.
  destruct (Interactive.interactive_clean_all Posix.runtime
              (Interactive.clean_artist_call Posix.runtime
                 Scenario.playlist_server Scenario.source (fun _ => Raise))
              Scenario.playlist_server CleanLogger.fresh ["maybe"; "Y"])
    as [session|] eqn:Hrun; [|vm_compute in Hrun; discriminate Hrun].
  destruct (interactive_clean_totals_agree_with_log Posix.runtime
              Scenario.playlist_server Scenario.source (fun _ => Raise)
              CleanLogger.fresh ["maybe"; "Y"] session eq_refl)
    as (rows & Hrows & _ & Htitle & _).
  - repeat constructor; by eexists.
  - exact Hrun.
  - exists session, rows. split_and!; [reflexivity | exact Hrows | exact Htitle].
Defined.

(** ** The SSH connection string *)

Section BreakFacts.

Lemma str_in_char_cons (sep c : ascii) (s : string) :
  str_in (String sep "") (String c s)
  = Ascii.eqb sep c || str_in (String sep "") s.
Proof. cbn [str_in startswith]. by destruct (Ascii.eqb sep c). Qed.

Lemma break_at_sound (sep : ascii) (s before after : string) :
  break_at sep s = Some (before, after) ->
  s = before +:+ String sep after
  /\ str_in (String sep "") before = false.
Proof.
  revert before. induction s as [|c s IH]; intros before; [done|].
  cbn [break_at]. destruct (Ascii.eqb c sep) eqn:Hc.
  - intros [= <- <-]. apply Ascii.eqb_eq in Hc as ->. by split.
  - destruct (break_at sep s) as [[before' after']|]; [|done].
    intros [= <- <-]. destruct (IH _ eq_refl) as [-> Hnot].
    split; [done|]. rewrite str_in_char_cons, Hnot.
    by rewrite Ascii.eqb_sym, Hc.
Qed.

Lemma break_at_complete (sep : ascii) (before after : string) :
  str_in (String sep "") before = false ->
  break_at sep (before +:+ String sep after) = Some (before, after).
Proof.
  induction before as [|c before IH].
  - intros _. cbn. by rewrite Ascii.eqb_refl.
  - rewrite str_in_char_cons. intros [Hc Hnot]%orb_false_elim.
    cbn. rewrite Ascii.eqb_sym, Hc. by rewrite (IH Hnot).
Qed.

Lemma break_at_none (sep : ascii) (s : string) :
  break_at sep s = None <-> str_in (String sep "") s = false.
Proof.
  induction s as [|c s IH]; [done|].
  rewrite str_in_char_cons. cbn [break_at]. rewrite (Ascii.eqb_sym sep c).
  destruct (Ascii.eqb c sep); [done|]. cbn [orb].
  destruct (break_at sep s) as [[before after]|].
  - split; [done|]. intros Hnot. by apply IH in Hnot.
  - split; [|done]. intros _. by apply IH.
Qed.

Lemma str_in_char_app (sep : ascii) (s t : string) :
  str_in (String sep "") (s +:+ t)
  = str_in (String sep "") s || str_in (String sep "") t.
Proof.
  induction s as [|c s IH]; [by destruct t|].
  cbn [String.append]. rewrite !str_in_char_cons, IH.
  by rewrite orb_assoc.
Qed.

End BreakFacts.

(** X23.  The connection string [user@host:remote_path] is read at its first
    [@] and at the first [:] after it.  A string built from a user without
    [@] and a host without [:] is parsed into these parts, whatever the
    remote path; conversely whatever is parsed from a string with an [@]
    spells the string, with no [@] in the user and no [:] in the host; and
    parsing fails exactly when no [:] follows the first [@]. *)
Theorem ssh_connection_parts (getuser : exn string) :
  (forall user host remote_path,
     str_in "@" user = false ->
     str_in ":" host = false ->
     AppleMusicClient.ssh_connection getuser
       (user +:+ "@" +:+ host +:+ ":" +:+ remote_path)
     = Return (user, host, remote_path))
  /\ (forall library_path user' host' remote_path',
        str_in "@" library_path = true ->
        AppleMusicClient.ssh_connection getuser library_path
        = Return (user', host', remote_path') ->
        library_path = user' +:+ "@" +:+ host' +:+ ":" +:+ remote_path'
        /\ str_in "@" user' = false
        /\ str_in ":" host' = false)
  /\ (forall before after,
        str_in "@" before = false ->
        (AppleMusicClient.ssh_connection getuser (before +:+ "@" +:+ after)
         = Raise
         <-> str_in ":" after = false)).
Proof.
  split_and!.
  - intros user host remote_path Huser Hhost.
    unfold AppleMusicClient.ssh_connection.
    rewrite str_in_char_app. cbn [String.append].
    rewrite str_in_char_cons, Ascii.eqb_refl, orb_true_r.
    cbn [split_max].
    rewrite break_at_complete by exact Huser.
    cbn [AppleMusicClient.unpack2 split_max].
    by rewrite break_at_complete by exact Hhost.
  - intros library_path user' host' remote_path' Hat.
    unfold AppleMusicClient.ssh_connection. rewrite Hat. cbn [split_max].
    destruct (break_at "@" library_path) as [[u rest]|] eqn:Hsplit; [|done].
    cbn [AppleMusicClient.unpack2].
    destruct (break_at ":" rest) as [[h p]|] eqn:Hsplit'; [|done].
    cbn [AppleMusicClient.unpack2]. intros [= <- <- <-].
    apply break_at_sound in Hsplit as [-> Hnot].
    apply break_at_sound in Hsplit' as [-> Hnot'].
    by split_and!.
  - intros before after Hbefore.
    unfold AppleMusicClient.ssh_connection.
    rewrite str_in_char_app. cbn [String.append].
    rewrite str_in_char_cons, Ascii.eqb_refl, orb_true_r.
    cbn [split_max].
    rewrite break_at_complete by exact Hbefore.
    cbn [AppleMusicClient.unpack2].
    destruct (break_at ":" after) as [[h p]|] eqn:Hsplit;
      cbn [AppleMusicClient.unpack2].
    + split; [done|]. intros Hnone%break_at_none. congruence.
    + split; [|done]. intros _. by apply break_at_none.
Qed.

Lemma ssh_connection_parts_witness :
  AppleMusicClient.ssh_connection Raise
    ("me" +:+ "@" +:+ "mac.local" +:+ ":" +:+ "/Users/me/Music/a:b@c")
  = Return ("me", "mac.local", "/Users/me/Music/a:b@c").
Proof.
  destruct (ssh_connection_parts Raise) as [Hparse _].
  apply (Hparse "me" "mac.local" "/Users/me/Music/a:b@c"); reflexivity.
Defined.
